(** * Floyd-Steinberg dithering: serial sweep and wavefront engine

    Shallow embedding of [error_diffusion.c] and [thread.c].

    - C [int] values are integers of [Z] in the range [INT_MIN .. INT_MAX];
      every arithmetic operation on pixel data is followed by [wrap_int],
      the two's complement reduction to 32 bits.
    - Loop counters and array indices ([x], [y], [diag], [x + 1], ...) stay
      between [-1] and [width + height]; they are kept exact.
    - A two-dimensional array is a finite map from [(row, col)] to its
      cell; a cell that was never written is absent from the map.
    - [input], [work] and [output] are three distinct arrays, as [main]
      allocates them. *)

From Stdlib Require Import ZArith List Lia Bool.
From stdpp Require Import base tactics option list numbers gmap.

Local Open Scope Z_scope.

(** ** C integers *)

Module CInt.

Definition INT_MAX : Z := 2147483647.
Definition INT_MIN : Z := -2147483648.

Definition in_int (z : Z) : Prop := INT_MIN <= z <= INT_MAX.

Definition wrap_int (z : Z) : Z := (z + 2147483648) mod 4294967296 - 2147483648.

Definition int_add (a b : Z) : Z := wrap_int (a + b).
Definition int_sub (a b : Z) : Z := wrap_int (a - b).
Definition int_mul (a b : Z) : Z := wrap_int (a * b).
(* C division truncates toward zero. *)
Definition int_div (a b : Z) : Z := wrap_int (Z.quot a b).

(* (unsigned char) v *)
Definition to_uchar (v : Z) : Z := v mod 256.

End CInt.

Import CInt.

(** ** Arrays *)

(* A grid coordinate (row, col). *)
Abbreviation coord := (Z * Z)%type.

(* 0 <= row < height and 0 <= col < width *)
Definition in_bounds (width height : Z) (c : coord) : bool :=
  (0 <=? c.1) && (c.1 <? height) && (0 <=? c.2) && (c.2 <? width).

(* height <= 0 or width <= 0 *)
Definition height_or_width_malformed (width height : Z) : Prop :=
  height <= 0 \/ width <= 0.

(* a[y][x], for a cell the code has written before *)
Definition cell (a : gmap coord Z) (y x : Z) : Z := default 0 (a !! (y, x)).

(* a[y][x] = v *)
Definition set_cell (a : gmap coord Z) (y x v : Z) : gmap coord Z :=
  <[(y, x) := v]> a.

(* The cell holds one of the two output levels. *)
Definition bilevel (o : gmap coord Z) (c : coord) : Prop :=
  o !! c = Some 0 \/ o !! c = Some 255.

(* The three arrays of one dithering call. *)
Record arrays : Type := Arrays {
  input : gmap coord Z;
  work : gmap coord Z;
  output : gmap coord Z
}.

(** ** error_diffusion.c *)

Module ErrorDiffusion.

Definition floor_divide (numerator denominator : Z) : Z :=
  if numerator >=? 0 then int_div numerator denominator
  else int_div (int_add (int_sub numerator denominator) 1) denominator.

(* work[y][x] += floor_divide(err * weight, 16) *)
Definition deposit (err weight y x : Z) (a : arrays) : arrays :=
  Arrays (input a)
         (set_cell (work a) y x
            (int_add (cell (work a) y x) (floor_divide (int_mul err weight) 16)))
         (output a).

(* Body of the inner loop of dither_image. *)
Definition dither_pixel (width height y x : Z) (a : arrays) : arrays :=
  let old_pixel := cell (work a) y x in
  let new_pixel := if old_pixel >? 128 then 255 else 0 in
  let a := Arrays (input a) (work a) (set_cell (output a) y x (to_uchar new_pixel)) in
  let err := int_sub old_pixel new_pixel in
  let a := if x + 1 <? width then deposit err 7 y (x + 1) a else a in
  if y + 1 <? height then
    let a := if x - 1 >=? 0 then deposit err 3 (y + 1) (x - 1) a else a in
    let a := deposit err 5 (y + 1) x a in
    if x + 1 <? width then deposit err 1 (y + 1) (x + 1) a else a
  else a.

(* work[y][x] = input[y][x] for one row *)
Definition copy_row (width y : Z) (a : arrays) : arrays :=
  foldl (fun a x => Arrays (input a) (set_cell (work a) y x (cell (input a) y x)) (output a))
        a (seqZ 0 width).

Definition copy_input (width height : Z) (a : arrays) : arrays :=
  foldl (fun a y => copy_row width y a) a (seqZ 0 height).

Definition dither_row (width height y : Z) (a : arrays) : arrays :=
  foldl (fun a x => dither_pixel width height y x a) a (seqZ 0 width).

(* [work] is freshly allocated by the call. *)
Definition dither_image (inp out : gmap coord Z) (width height : Z) : arrays :=
  let a := copy_input width height (Arrays inp ∅ out) in
  foldl (fun a y => dither_row width height y a) a (seqZ 0 height).

End ErrorDiffusion.

(** ** thread.c *)

Module Thread.

Definition floor_divide (numerator denominator : Z) : Z :=
  if numerator >=? 0 then int_div numerator denominator
  else int_div (int_add (int_sub numerator denominator) 1) denominator.

(** *** Quantization (lines 222-225 and 361-364) *)

Definition new_pixel_of (old_pixel : Z) : Z := if old_pixel >? 128 then 255 else 0.
Definition err_of (old_pixel : Z) : Z := int_sub old_pixel (new_pixel_of old_pixel).

(* work[y][x] += floor_divide(err * weight, 16) *)
Definition deposit (err weight y x : Z) (a : arrays) : arrays :=
  Arrays (input a)
         (set_cell (work a) y x
            (int_add (cell (work a) y x) (floor_divide (int_mul err weight) 16)))
         (output a).

(** *** Serial engine: dither_image_st *)

(* Lines 366-374: the four guarded deposits. *)
Definition propagate_st (width height y x err : Z) (a : arrays) : arrays :=
  let a := if x + 1 <? width then deposit err 7 y (x + 1) a else a in
  if y + 1 <? height then
    let a := if x - 1 >=? 0 then deposit err 3 (y + 1) (x - 1) a else a in
    let a := deposit err 5 (y + 1) x a in
    if x + 1 <? width then deposit err 1 (y + 1) (x + 1) a else a
  else a.

(* Lines 361-374. *)
Definition pixel_st (width height y x : Z) (a : arrays) : arrays :=
  let old_pixel := cell (work a) y x in
  let new_pixel := new_pixel_of old_pixel in
  let a := Arrays (input a) (work a) (set_cell (output a) y x (to_uchar new_pixel)) in
  let err := int_sub old_pixel new_pixel in
  propagate_st width height y x err a.

Definition copy_row (width y : Z) (a : arrays) : arrays :=
  foldl (fun a x => Arrays (input a) (set_cell (work a) y x (cell (input a) y x)) (output a))
        a (seqZ 0 width).

Definition copy_input (width height : Z) (a : arrays) : arrays :=
  foldl (fun a y => copy_row width y a) a (seqZ 0 height).

Definition row_st (width height y : Z) (a : arrays) : arrays :=
  foldl (fun a x => pixel_st width height y x a) a (seqZ 0 width).

Definition dither_image_st (inp out : gmap coord Z) (width height : Z) : arrays :=
  let a := copy_input width height (Arrays inp ∅ out) in
  foldl (fun a y => row_st width height y a) a (seqZ 0 height).

(** *** Wavefront engine: process_wavefront

    The control flow of a worker depends only on [width], [height],
    [num_threads] and [thread_id], except for the wait loops.  A worker is
    therefore the list of the shared-memory actions it performs, in program
    order. *)

Inductive action : Type :=
| ALock (c : coord)                 (* pthread_mutex_lock(pixel_mutexes[c]) *)
| AAwait (c : coord)                (* while (!*pixel_processed[c]) pthread_cond_wait(...) *)
| AUnlock (c : coord)               (* pthread_mutex_unlock(pixel_mutexes[c]) *)
| ARead (c : coord)                 (* old_pixel = work[c] *)
| AWriteOut (c : coord)             (* output[c] = (unsigned char)new_pixel *)
| ADeposit (c : coord) (weight : Z) (* work[c] += floor_divide(err * weight, 16),
                                       one step: made under the mutex of c *)
| AMark (c : coord)                 (* *pixel_processed[c] = 1 *)
| ABroadcast (c : coord).           (* pthread_cond_broadcast(pixel_conditions[c]) *)

#[global] Instance action_eq_dec : EqDecision action.
Proof. solve_decision. Defined.

(* Lines 204-208 and 213-217. *)
Definition wait_for (c : coord) : list action := [ALock c; AAwait c; AUnlock c].

(* Lines 231-233, 239-241, 245-247, 251-253. *)
Definition locked_deposit (c : coord) (weight : Z) : list action :=
  [ALock c; ADeposit c weight; AUnlock c].

(* Lines 229-255. *)
Definition propagate_mt (width height y x : Z) : list action :=
  (if x + 1 <? width then locked_deposit (y, x + 1) 7 else []) ++
  (if y + 1 <? height then
     (if x - 1 >=? 0 then locked_deposit (y + 1, x - 1) 3 else []) ++
     locked_deposit (y + 1, x) 5 ++
     (if x + 1 <? width then locked_deposit (y + 1, x + 1) 1 else [])
   else []).

(* Lines 260-263. *)
Definition signal_completion (c : coord) : list action :=
  [ALock c; AMark c; ABroadcast c; AUnlock c].

(* Lines 200-263: everything done for the pixel (y, x). *)
Definition pixel_mt (width height y x : Z) : list action :=
  (if (y >? 0) && (x + 1 <? width) then wait_for (y - 1, x + 1) else []) ++
  (if x >? 0 then wait_for (y, x - 1) else []) ++
  [ARead (y, x); AWriteOut (y, x)] ++
  propagate_mt width height y x ++
  signal_completion (y, x).

(* Lines 196-265. *)
Definition diagonal_mt (width height diag : Z) : list action :=
  concat (map (fun y => let x := diag - y in
                        if (x >=? 0) && (x <? width) then pixel_mt width height y x else [])
              (seqZ 0 height)).

(* Lines 189-266; C's % is Z.rem. *)
Definition process_wavefront (width height num_threads thread_id : Z) : list action :=
  concat (map (fun diag => if negb (Z.rem diag num_threads =? thread_id) then []
                           else diagonal_mt width height diag)
              (seqZ 0 (width + height - 1))).

(** *** Shared state and interleaving *)

Record thread : Type := Thread {
  script : list action;   (* what the worker still has to do *)
  old_pixel : Z           (* its local variable old_pixel *)
}.

Record state : Type := State {
  arrs : arrays;
  pixel_processed : gmap coord Z;   (* the flags *)
  pixel_mutexes : gmap coord nat;   (* the worker holding each locked mutex *)
  threads : list thread
}.

Definition with_thread (s : state) (t : nat) (th : thread) : state :=
  State (arrs s) (pixel_processed s) (pixel_mutexes s) (<[t := th]> (threads s)).

(* Worker t, in the thread state th, performs the action a at the head of
   its script; rest is what follows.  None: the worker is blocked. *)
Definition exec (t : nat) (th : thread) (a : action) (rest : list action) (s : state)
  : option state :=
  match a with
  | ALock c =>
      match pixel_mutexes s !! c with
      | Some _ => None   (* blocked *)
      | None => Some (State (arrs s) (pixel_processed s) (<[c := t]> (pixel_mutexes s))
                            (<[t := Thread rest (old_pixel th)]> (threads s)))
      end
  | AAwait c =>
      if cell (pixel_processed s) c.1 c.2 =? 0
      then (* pthread_cond_wait: release the mutex, sleep, take it again, test again *)
        Some (State (arrs s) (pixel_processed s) (delete c (pixel_mutexes s))
                    (<[t := Thread (ALock c :: AAwait c :: rest) (old_pixel th)]> (threads s)))
      else Some (with_thread s t (Thread rest (old_pixel th)))
  | AUnlock c =>
      Some (State (arrs s) (pixel_processed s) (delete c (pixel_mutexes s))
                  (<[t := Thread rest (old_pixel th)]> (threads s)))
  | ARead c =>
      Some (with_thread s t (Thread rest (cell (work (arrs s)) c.1 c.2)))
  | AWriteOut c =>
      Some (State (Arrays (input (arrs s)) (work (arrs s))
                          (set_cell (output (arrs s)) c.1 c.2
                                    (to_uchar (new_pixel_of (old_pixel th)))))
                  (pixel_processed s) (pixel_mutexes s)
                  (<[t := Thread rest (old_pixel th)]> (threads s)))
  | ADeposit c weight =>
      Some (State (deposit (err_of (old_pixel th)) weight c.1 c.2 (arrs s))
                  (pixel_processed s) (pixel_mutexes s)
                  (<[t := Thread rest (old_pixel th)]> (threads s)))
  | AMark c =>
      Some (State (arrs s) (set_cell (pixel_processed s) c.1 c.2 1) (pixel_mutexes s)
                  (<[t := Thread rest (old_pixel th)]> (threads s)))
  | ABroadcast c =>
      Some (with_thread s t (Thread rest (old_pixel th)))
  end.

(* Worker t performs its next action, if it has one and is not blocked. *)
Definition step (t : nat) (s : state) : option state :=
  match threads s !! t with
  | Some th =>
      match script th with
      | [] => None
      | a :: rest => exec t th a rest s
      end
  | None => None
  end.

Definition step_rel (s s' : state) : Prop := exists t, step t s = Some s'.

(* Executions: any interleaving of the workers' steps. *)
Definition reachable : state -> state -> Prop := rtc step_rel.

(* pthread_join has returned for every worker. *)
Definition finished (s : state) : Prop := Forall (fun th => script th = []) (threads s).

(* A given schedule: the workers that step, in order. *)
Fixpoint run (sched : list nat) (s : state) : option state :=
  match sched with
  | [] => Some s
  | t :: sched => match step t s with Some s' => run sched s' | None => None end
  end.

(* Lines 287-301: every flag starts at 0. *)
Definition init_processed (width height : Z) : gmap coord Z :=
  foldl (fun p y => foldl (fun p x => set_cell p y x 0) p (seqZ 0 width)) ∅ (seqZ 0 height).

(* Lines 274-320: the state in which the workers start. *)
Definition dither_image_mt (inp out : gmap coord Z) (width height num_threads : Z) : state :=
  State (copy_input width height (Arrays inp ∅ out))
        (init_processed width height)
        ∅
        (map (fun i => Thread (process_wavefront width height num_threads i) 0)
             (seqZ 0 num_threads)).

(** *** Allocation requests

    The calls of malloc of one dithering call, in program order, each with
    the byte count it passes.  The count is a size_t: in
    [height * sizeof(int* )] the int operand is converted to size_t before
    the multiplication, and the product is taken modulo SIZE_MAX + 1.  The
    width of size_t and the sizes of the types belong to the platform. *)

Inductive elem : Type :=
| int_row_ptr | int_cell
| mutex_row_ptr | cond_row_ptr | flag_row_ptr
| mutex_ptr | cond_ptr | flag_ptr
| mutex_obj | cond_obj | flag_obj
| pthread_obj | thread_data_obj.

Inductive event : Type := EMalloc (bytes : Z) (what : elem).

Record platform : Type := Platform {
  size_modulus : Z;       (* SIZE_MAX + 1 *)
  sizeof : elem -> Z
}.

(* x86-64 Linux with glibc: 64-bit size_t and pointers, 4-byte int,
   pthread_mutex_t of 40 bytes, pthread_cond_t of 48, pthread_t of 8,
   ThreadData (four ints and five pointers) of 56. *)
Definition lp64 : platform :=
  Platform 18446744073709551616
    (fun e => match e with
              | int_cell | flag_obj => 4
              | mutex_obj => 40
              | cond_obj => 48
              | thread_data_obj => 56
              | _ => 8
              end).

(* malloc(n * sizeof(T)) for an int n *)
Definition request (p : platform) (n : Z) (what : elem) : event :=
  EMalloc (((n mod size_modulus p) * sizeof p what) mod size_modulus p) what.

(* malloc(sizeof(T)) *)
Definition request_one (p : platform) (what : elem) : event :=
  EMalloc (sizeof p what) what.

(* Lines 274-280 and 351-357: work is allocated and filled, row by row. *)
Definition copy_input_traced (p : platform) (width height : Z) (a : arrays)
  : list event * arrays :=
  foldl (fun ta y => (ta.1 ++ [request p width int_cell], copy_row width y ta.2))
        ([request p height int_row_ptr], a) (seqZ 0 height).

(* Lines 350-375: dither_image_st with the requests it makes. *)
Definition dither_image_st_traced (p : platform) (inp out : gmap coord Z)
    (width height : Z) : list event * arrays :=
  let ta := copy_input_traced p width height (Arrays inp ∅ out) in
  (ta.1, foldl (fun a y => row_st width height y a) ta.2 (seqZ 0 height)).

(* Lines 283-301: the synchronization cells are allocated and initialised. *)
Definition init_processed_traced (p : platform) (width height : Z)
  : list event * gmap coord Z :=
  foldl (fun tp y =>
           foldl (fun tp x =>
                    (tp.1 ++ [request_one p mutex_obj; request_one p cond_obj;
                              request_one p flag_obj],
                     set_cell tp.2 y x 0))
                 (tp.1 ++ [request p width mutex_ptr; request p width cond_ptr;
                           request p width flag_ptr],
                  tp.2)
                 (seqZ 0 width))
        ([request p height mutex_row_ptr; request p height cond_row_ptr;
          request p height flag_row_ptr], ∅)
        (seqZ 0 height).

(* Lines 272-320: dither_image_mt up to the start of the workers, with the
   requests it makes. *)
Definition dither_image_mt_traced (p : platform) (inp out : gmap coord Z)
    (width height num_threads : Z) : list event * state :=
  let ta := copy_input_traced p width height (Arrays inp ∅ out) in
  let tp := init_processed_traced p width height in
  (ta.1 ++ tp.1 ++ [request p num_threads pthread_obj; request p num_threads thread_data_obj],
   State ta.2 tp.2 ∅
         (map (fun i => Thread (process_wavefront width height num_threads i) 0)
              (seqZ 0 num_threads))).

(** *** Lock discipline of a script

    [disciplined held l]: starting with the mutex [held] (or none), the
    script [l] takes a mutex only when it holds none, releases only the one
    it holds, touches an accumulator cell or a flag only under that cell's
    mutex, reads [work] for quantization and writes [output] holding no
    mutex, and ends holding none. *)

Definition holds_none (held : option coord) : bool :=
  match held with None => true | Some _ => false end.

Definition holds (held : option coord) (c : coord) : bool :=
  match held with Some c' => bool_decide (c' = c) | None => false end.

Fixpoint disciplined (held : option coord) (l : list action) : bool :=
  match l with
  | [] => holds_none held
  | ALock c :: l => holds_none held && disciplined (Some c) l
  | AUnlock c :: l => holds held c && disciplined None l
  | AAwait c :: l | ADeposit c _ :: l | AMark c :: l | ABroadcast c :: l =>
      holds held c && disciplined held l
  | ARead _ :: l | AWriteOut _ :: l => holds_none held && disciplined held l
  end.

(** *** Invariants of the interleaving *)

(* Every worker's remaining script is disciplined from the mutex it holds,
   and it holds no other mutex. *)
Definition lock_inv (s : state) : Prop :=
  forall t th, threads s !! t = Some th ->
    exists held, disciplined held (script th) = true /\
                 forall c, pixel_mutexes s !! c = Some t <-> held = Some c.

(* Every cell of the grid has its output level, or it is as the caller
   passed it and its write is still in some worker's script. *)
Definition output_inv (out : gmap coord Z) (width height : Z) (s : state) : Prop :=
  forall c, in_bounds width height c = true ->
    bilevel (output (arrs s)) c \/
    (output (arrs s) !! c = out !! c /\
     exists t th, threads s !! t = Some th /\ AWriteOut c ∈ script th).

End Thread.

(** ** The scheduler and the kernel as the specification words them *)

Module WavefrontSpec.

Import Thread.

(* The four targets of (row, col) with their weights. *)
Definition kernel_targets (c : coord) : list (coord * Z) :=
  [((c.1, c.2 + 1), 7); ((c.1 + 1, c.2 - 1), 3); ((c.1 + 1, c.2), 5); ((c.1 + 1, c.2 + 1), 1)].

Definition live_targets (width height : Z) (c : coord) : list (coord * Z) :=
  List.filter (fun tk => in_bounds width height tk.1) (kernel_targets c).

(* What a worker does at a visited coordinate. *)
Inductive phase : Type :=
| AwaitProcessed (c : coord)     (* wait until c is marked processed *)
| QuantizeAndWrite (c : coord)   (* read the accumulator, write the output cell *)
| PropagateError (c : coord)     (* deposit into the in-bounds targets *)
| MarkProcessed (c : coord).     (* set the flag, wake the waiters *)

Definition visit (width height : Z) (c : coord) : list phase :=
  (if in_bounds width height (c.1 - 1, c.2 + 1) then [AwaitProcessed (c.1 - 1, c.2 + 1)] else []) ++
  (if in_bounds width height (c.1, c.2 - 1) then [AwaitProcessed (c.1, c.2 - 1)] else []) ++
  [QuantizeAndWrite c; PropagateError c; MarkProcessed c].

(* Valid coordinates of a diagonal, in increasing row order. *)
Definition diagonal_coords (width height diag : Z) : list coord :=
  List.filter (in_bounds width height) (map (fun row => (row, diag - row)) (seqZ 0 height)).

(* Diagonals 0 .. width + height - 2 owned by the worker. *)
Definition owned_diagonals (width height num_workers worker : Z) : list Z :=
  List.filter (fun diag => diag mod num_workers =? worker) (seqZ 0 (width + height - 1)).

Definition worker_plan (width height num_workers worker : Z) : list phase :=
  concat (map (fun diag => concat (map (visit width height) (diagonal_coords width height diag)))
              (owned_diagonals width height num_workers worker)).

(* The actions of thread.c that carry out a phase. *)
Definition implement (width height : Z) (p : phase) : list action :=
  match p with
  | AwaitProcessed c => [ALock c; AAwait c; AUnlock c]
  | QuantizeAndWrite c => [ARead c; AWriteOut c]
  | PropagateError c =>
      concat (map (fun tk => [ALock tk.1; ADeposit tk.1 tk.2; AUnlock tk.1])
                  (live_targets width height c))
  | MarkProcessed c => [ALock c; AMark c; ABroadcast c; AUnlock c]
  end.

(* The deposits into the given targets, in order. *)
Definition deposited (err : Z) (targets : list (coord * Z)) (a : arrays) : arrays :=
  foldl (fun a tk => deposit err tk.2 tk.1.1 tk.1.2 a) a targets.

End WavefrontSpec.

(** ** The recurrence of error diffusion

    The deposit of weight [k] into [c] comes from the pixel [src c k]; an
    accumulator is the input cell plus the deposits already received. *)

Module Recurrence.

Import Thread.

Definition weights : list Z := [7; 3; 5; 1].

Definition src (c : coord) (k : Z) : coord :=
  if k =? 7 then (c.1, c.2 - 1)
  else if k =? 3 then (c.1 - 1, c.2 + 1)
  else if k =? 5 then (c.1 - 1, c.2)
  else (c.1 - 1, c.2 - 1).

(* What the pixel src c k deposits into c, when its accumulator was acc. *)
Definition dep_value (acc : coord -> Z) (c : coord) (k : Z) : Z :=
  floor_divide (int_mul (err_of (acc (src c k))) k) 16.

(* One of the four terms of the sum received by c. *)
Definition term (width height : Z) (dn : coord -> Z -> bool) (acc : coord -> Z)
    (c : coord) (k : Z) : Z :=
  if in_bounds width height (src c k) && dn c k then dep_value acc c k else 0.

(* The deposits received by c, among those that [dn] says were made. *)
Definition received (width height : Z) (dn : coord -> Z -> bool) (acc : coord -> Z)
    (c : coord) : Z :=
  term width height dn acc c 7 + term width height dn acc c 3 +
  term width height dn acc c 5 + term width height dn acc c 1.

(* The arrays after the deposits of the pixel (y0, x0). *)
Definition after_pixel (width height y0 x0 : Z) (a : arrays) : arrays :=
  WavefrontSpec.deposited (err_of (cell (work a) y0 x0))
                          (WavefrontSpec.live_targets width height (y0, x0)) a.

(* Raster order: q comes before (y0, x0). *)
Definition before (y0 x0 : Z) (q : coord) : bool :=
  (q.1 <? y0) || ((q.1 =? y0) && (q.2 <? x0)).

(* Cells of the input grid are bytes. *)
Definition byte_grid (width height : Z) (inp : gmap coord Z) : Prop :=
  forall c, in_bounds width height c = true -> 0 <= cell inp c.1 c.2 <= 255.

(* The serial sweep has quantized the pixels before (y0, x0). *)
Definition sweep_inv (inp : gmap coord Z) (width height y0 x0 : Z) (a : arrays) : Prop :=
  (forall c, in_bounds width height c = true ->
     work a !! c =
       Some (wrap_int (cell inp c.1 c.2 +
                       received width height (fun c k => before y0 x0 (src c k))
                                (fun q => cell (work a) q.1 q.2) c))) /\
  (forall q, in_bounds width height q = true -> before y0 x0 q = true ->
     output a !! q = Some (new_pixel_of (cell (work a) q.1 q.2))).

End Recurrence.

(** ** What a worker has established, along its script *)

Module Protocol.

Import Thread WavefrontSpec Recurrence.

(* The coordinates whose flag a worker waits for before it quantizes p. *)
Definition wait_targets (p : coord) : list coord :=
  [(p.1 - 1, p.2 + 1); (p.1, p.2 - 1)].

Record ctx : Type := Ctx {
  waited : list coord;          (* flags seen set since the last pixel was completed *)
  curp : option coord;          (* the pixel whose accumulator is in old_pixel *)
  todo : list (coord * Z)       (* its deposits still to make, in order *)
}.

Definition ctx0 : ctx := Ctx [] None [].

(* Follow a script from the context x; None if the script reads before it
   has waited, or deposits, writes or marks out of turn. *)
Fixpoint walk (width height : Z) (x : ctx) (l : list action) : option ctx :=
  match l with
  | [] => Some x
  | ALock _ :: l | AUnlock _ :: l | ABroadcast _ :: l => walk width height x l
  | AAwait c :: l => walk width height (Ctx (c :: waited x) (curp x) (todo x)) l
  | ARead p :: l =>
      if in_bounds width height p &&
         forallb (fun c => negb (in_bounds width height c) || bool_decide (c ∈ waited x))
                 (wait_targets p)
      then walk width height (Ctx (waited x) (Some p) (live_targets width height p)) l
      else None
  | AWriteOut p :: l =>
      if bool_decide (curp x = Some p) then walk width height x l else None
  | ADeposit c k :: l =>
      match todo x with
      | ck :: td =>
          if bool_decide (ck = (c, k))
          then walk width height (Ctx (waited x) (curp x) td) l else None
      | [] => None
      end
  | AMark p :: l =>
      if bool_decide (curp x = Some p) && bool_decide (todo x = [])
      then walk width height ctx0 l else None
  end.

(* Occurrences of the action a in a script. *)
Definition occurrences (a : action) (l : list action) : nat :=
  length (List.filter (fun b => bool_decide (b = a)) l).

(* Number of deposits of weight k into c still in the workers' scripts. *)
Definition deposits_left (c : coord) (k : Z) (ths : list thread) : nat :=
  occurrences (ADeposit c k) (concat (map script ths)).

(* The flag of c is set. *)
Definition processed (flags : gmap coord Z) (c : coord) : Prop :=
  cell flags c.1 c.2 <> 0.

Section invariant.

Variables (inp out : gmap coord Z) (width height : Z).

(* The accumulators and output levels of the serial engine. *)
Definition serial_acc (q : coord) : Z :=
  cell (work (dither_image_st inp out width height)) q.1 q.2.

Definition made (D : gset (coord * Z)) (c : coord) (k : Z) : bool :=
  bool_decide ((c, k) ∈ D).

(* The context x of a worker is true of the flags and of the deposits made. *)
Definition realized (flags : gmap coord Z) (D : gset (coord * Z)) (th : thread) (x : ctx)
  : Prop :=
  (forall c, c ∈ waited x -> processed flags c) /\
  match curp x with
  | None => todo x = []
  | Some p =>
      in_bounds width height p = true /\
      old_pixel th = serial_acc p /\
      (forall c, c ∈ wait_targets p -> in_bounds width height c = true -> processed flags c) /\
      exists done, live_targets width height p = done ++ todo x /\
                   forall ck, ck ∈ done -> ck ∈ D
  end.

(* D is the set of deposits made so far. *)
Record agree_inv (s : state) (D : gset (coord * Z)) : Prop := {
  inv_work : forall c, in_bounds width height c = true ->
    work (arrs s) !! c =
      Some (wrap_int (cell inp c.1 c.2 + received width height (made D) serial_acc c));
  inv_made : forall c k, (c, k) ∈ D ->
    in_bounds width height c = true /\ k ∈ weights /\
    in_bounds width height (src c k) = true;
  inv_once : forall c k,
    (deposits_left c k (threads s) + (if made D c k then 1 else 0) <= 1)%nat;
  inv_flags : forall q, in_bounds width height q = true -> processed (pixel_processed s) q ->
    (forall ck, ck ∈ live_targets width height q -> ck ∈ D) /\
    (forall c, c ∈ wait_targets q -> in_bounds width height c = true ->
               processed (pixel_processed s) c);
  inv_threads : forall t th, threads s !! t = Some th ->
    exists x, is_Some (walk width height x (script th)) /\
              realized (pixel_processed s) D th x;
  inv_output : forall p, in_bounds width height p = true ->
    output (arrs s) !! p = Some (new_pixel_of (serial_acc p)) \/
    exists t th, threads s !! t = Some th /\ AWriteOut p ∈ script th
}.

End invariant.

(* Every worker has seen set the flags it has waited for since it last
   completed a pixel, and its script reads an accumulator only after the
   waits for the in-grid wait targets. *)
Definition waits_seen (width height : Z) (s : state) : Prop :=
  forall t th, threads s !! t = Some th ->
    exists x, is_Some (walk width height x (script th)) /\
              forall c, c ∈ waited x -> processed (pixel_processed s) c.

End Protocol.

(** ** The traversal of the grid by the workers *)

Module Traversal.

Import Thread WavefrontSpec.

(* The coordinate whose mutex, flag, accumulator or output cell an action uses. *)
Definition action_coord (a : action) : coord :=
  match a with
  | ALock c | AAwait c | AUnlock c | ARead c | AWriteOut c
  | ADeposit c _ | AMark c | ABroadcast c => c
  end.

(* All the workers' remaining scripts, one after the other. *)
Definition all_scripts (s : state) : list action := concat (map script (threads s)).

(* What an action does to the arrays, the flags and old_pixel when the
   worker is not interfered with; None when it would have to wait for a
   flag that is not set. *)
Definition solo_action (a : action) (m : arrays * gmap coord Z * Z)
  : option (arrays * gmap coord Z * Z) :=
  match a with
  | ALock _ | AUnlock _ | ABroadcast _ => Some m
  | AAwait c => if cell m.1.2 c.1 c.2 =? 0 then None else Some m
  | ARead c => Some (m.1.1, m.1.2, cell (work m.1.1) c.1 c.2)
  | AWriteOut c =>
      Some (Arrays (input m.1.1) (work m.1.1)
                   (set_cell (output m.1.1) c.1 c.2 (to_uchar (new_pixel_of m.2))),
            m.1.2, m.2)
  | ADeposit c k => Some (deposit (err_of m.2) k c.1 c.2 m.1.1, m.1.2, m.2)
  | AMark c => Some (m.1.1, set_cell m.1.2 c.1 c.2 1, m.2)
  end.

Fixpoint solo (l : list action) (m : arrays * gmap coord Z * Z)
  : option (arrays * gmap coord Z * Z) :=
  match l with
  | [] => Some m
  | a :: l => match solo_action a m with Some m' => solo l m' | None => None end
  end.

(* The schedule in which the pixels are processed one after the other,
   diagonal by diagonal and rows increasing, each from its first action
   to its last by the worker that owns its diagonal. *)
Definition diagonal_schedule (width height num_threads diag : Z) : list nat :=
  concat (map (fun y => let x := diag - y in
                        if (x >=? 0) && (x <? width)
                        then replicate (length (pixel_mt width height y x))
                                       (Z.to_nat (Z.rem diag num_threads))
                        else [])
              (seqZ 0 height)).

Definition sequential_schedule (width height num_threads : Z) : list nat :=
  concat (map (diagonal_schedule width height num_threads)
              (seqZ 0 (width + height - 1))).

(* An action that belongs to the pixel p alone: its read, its output
   write, the setting of its flag. *)
Definition own_action (a : action) (p : coord) : Prop :=
  a = ARead p \/ a = AWriteOut p \/ a = AMark p.

(* No cell outside the grid was touched. *)
Definition untouched_outside (out : gmap coord Z) (width height : Z) (s : state) : Prop :=
  forall c, in_bounds width height c = false ->
    work (arrs s) !! c = None /\ output (arrs s) !! c = out !! c /\
    pixel_processed s !! c = None /\ pixel_mutexes s !! c = None.

(* Every action left in a script uses a coordinate of the grid. *)
Definition scripts_in_bounds (width height : Z) (s : state) : Prop :=
  forall a, a ∈ all_scripts s -> in_bounds width height (action_coord a) = true.

(* Every held mutex is held by an existing worker. *)
Definition owners_exist (s : state) : Prop :=
  forall c t, pixel_mutexes s !! c = Some t -> is_Some (threads s !! t).

(* What the worker i still has to do from the diagonal diag on. *)
Definition remaining_from (width height num_threads diag i : Z) : list action :=
  concat (map (fun diag => if negb (Z.rem diag num_threads =? i) then []
                           else diagonal_mt width height diag)
              (seqZ diag (width + height - 1 - diag))).

(* The same when, on the diagonal diag, the rows before y are done. *)
Definition remaining (width height num_threads diag y i : Z) : list action :=
  (if Z.rem diag num_threads =? i
   then concat (map (fun y => let x := diag - y in
                              if (x >=? 0) && (x <? width) then pixel_mt width height y x
                              else [])
                    (seqZ y (height - y)))
   else []) ++
  remaining_from width height num_threads (diag + 1) i.

(* Between two pixels of the sequential schedule: no mutex is held, the
   worker i is left with scr i, and the flags of the pixels in done are set. *)
Definition swept (width height num_threads : Z) (scr : Z -> list action)
    (done : coord -> Prop) (s : state) : Prop :=
  pixel_mutexes s = ∅ /\
  length (threads s) = Z.to_nat num_threads /\
  (forall i, 0 <= i < num_threads ->
     exists op, threads s !! Z.to_nat i = Some (Thread (scr i) op)) /\
  (forall q, in_bounds width height q = true -> done q ->
     cell (pixel_processed s) q.1 q.2 <> 0).

Definition at_diagonal (width height num_threads diag : Z) : state -> Prop :=
  swept width height num_threads (remaining_from width height num_threads diag)
        (fun q => q.1 + q.2 < diag).

Definition at_row (width height num_threads diag y : Z) : state -> Prop :=
  swept width height num_threads (remaining width height num_threads diag y)
        (fun q => q.1 + q.2 < diag \/ (q.1 + q.2 = diag /\ q.1 < y)).

End Traversal.

(** ** The dithering step of main (thread.c) *)

Module Main.

Import Thread.

(* Line 423: num_threads <= 1 || image->height * image->width < 10000. *)
Definition single_threaded (num_threads width height : Z) : bool :=
  (num_threads <=? 1) || (int_mul height width <? 10000).

(* Lines 423-429: the arrays that main may find after the call of the
   engine it has chosen; for the wavefront engine, after any execution in
   which all workers were joined. *)
Definition dithered (inp out : gmap coord Z) (width height num_threads : Z)
    (a : arrays) : Prop :=
  if single_threaded num_threads width height
  then a = dither_image_st inp out width height
  else exists s, reachable (dither_image_mt inp out width height num_threads) s /\
                 finished s /\ a = arrs s.

End Main.

(** ** The serial engine with signed overflow left undefined

    The same statements of dither_image_st, where an int operation whose
    mathematical result is not an int has no result (in C it is undefined),
    instead of wrapping around.  The loop counters and the index
    expressions x + 1, x - 1, y + 1 stay below width and height. *)

Module Checked.

Import Thread.

Definition in_range (z : Z) : option Z :=
  if (INT_MIN <=? z) && (z <=? INT_MAX) then Some z else None.

Definition add (a b : Z) : option Z := in_range (a + b).
Definition sub (a b : Z) : option Z := in_range (a - b).
Definition mul (a b : Z) : option Z := in_range (a * b).
Definition div (a b : Z) : option Z := if b =? 0 then None else in_range (Z.quot a b).

(* Lines 171-178. *)
Definition floor_divide (numerator denominator : Z) : option Z :=
  if numerator >=? 0 then div numerator denominator
  else t ← sub numerator denominator; t ← add t 1; div t denominator.

(* work[y][x] += floor_divide(err * weight, 16) *)
Definition deposit (err weight y x : Z) (a : arrays) : option arrays :=
  e ← mul err weight;
  f ← floor_divide e 16;
  v ← add (cell (work a) y x) f;
  Some (Arrays (input a) (set_cell (work a) y x v) (output a)).

(* Lines 366-374. *)
Definition propagate_st (width height y x err : Z) (a : arrays) : option arrays :=
  a ← (if x + 1 <? width then deposit err 7 y (x + 1) a else Some a);
  if y + 1 <? height then
    a ← (if x - 1 >=? 0 then deposit err 3 (y + 1) (x - 1) a else Some a);
    a ← deposit err 5 (y + 1) x a;
    if x + 1 <? width then deposit err 1 (y + 1) (x + 1) a else Some a
  else Some a.

(* Lines 361-374. *)
Definition pixel_st (width height y x : Z) (a : arrays) : option arrays :=
  let old_pixel := cell (work a) y x in
  let new_pixel := new_pixel_of old_pixel in
  let a := Arrays (input a) (work a) (set_cell (output a) y x (to_uchar new_pixel)) in
  err ← sub old_pixel new_pixel;
  propagate_st width height y x err a.

Definition row_st (width height y : Z) (a : arrays) : option arrays :=
  foldl (fun a x => a ≫= pixel_st width height y x) (Some a) (seqZ 0 width).

Definition dither_image_st (inp out : gmap coord Z) (width height : Z) : option arrays :=
  foldl (fun a y => a ≫= row_st width height y)
        (Some (copy_input width height (Arrays inp ∅ out))) (seqZ 0 height).

(* Every accumulator of the grid is within m of zero. *)
Definition work_within (width height m : Z) (a : arrays) : Prop :=
  forall c, in_bounds width height c = true -> - m <= cell (work a) c.1 c.2 <= m.

End Checked.

(** ** Heap blocks of the two engines of thread.c

    The blocks obtained from malloc, named by the pointer that holds them,
    in the order in which the engine requests them, and in the order in
    which it frees them. *)

Module Heap.

Inductive block : Type :=
| work_rows | work_row (y : Z)                        (* work, work[y] *)
| mutex_rows | cond_rows | flag_rows                  (* pixel_mutexes, ... *)
| mutex_row (y : Z) | cond_row (y : Z) | flag_row (y : Z)   (* pixel_mutexes[y], ... *)
| mutex_at (y x : Z) | cond_at (y x : Z) | flag_at (y x : Z) (* pixel_mutexes[y][x], ... *)
| thread_handles | thread_args.                       (* threads, thread_data *)

#[global] Instance block_eq_dec : EqDecision block.
Proof. solve_decision. Defined.

(* Lines 293-295 and 332-334. *)
Definition pixel_blocks (width y : Z) : list block :=
  concat (map (fun x => [mutex_at y x; cond_at y x; flag_at y x]) (seqZ 0 width)).

(* Lines 274-305. *)
Definition dither_image_mt_allocated (width height : Z) : list block :=
  [work_rows] ++ map work_row (seqZ 0 height) ++
  [mutex_rows; cond_rows; flag_rows] ++
  concat (map (fun y => [mutex_row y; cond_row y; flag_row y] ++ pixel_blocks width y)
              (seqZ 0 height)) ++
  [thread_handles; thread_args].

(* Lines 328-346. *)
Definition dither_image_mt_freed (width height : Z) : list block :=
  concat (map (fun y => pixel_blocks width y ++
                        [mutex_row y; cond_row y; flag_row y; work_row y])
              (seqZ 0 height)) ++
  [mutex_rows; cond_rows; flag_rows; work_rows; thread_handles; thread_args].

(* Lines 351-353. *)
Definition dither_image_st_allocated (height : Z) : list block :=
  [work_rows] ++ map work_row (seqZ 0 height).

(* Lines 378-381. *)
Definition dither_image_st_freed (height : Z) : list block :=
  map work_row (seqZ 0 height) ++ [work_rows].

End Heap.

(** ** What keeps the workers going *)

Module Progress.

Import Thread Protocol Traversal.








End Progress.

(** * Properties *)

Import Thread WavefrontSpec.

Lemma wrap_int_id z : in_int z -> wrap_int z = z.
Proof.
  unfold in_int, INT_MIN, INT_MAX, wrap_int. intros H.
  rewrite Z.mod_small by lia. lia.
Qed.

Lemma wrap_int_range z : in_int (wrap_int z).
Proof.
  unfold in_int, INT_MIN, INT_MAX, wrap_int.
  pose proof (Z.mod_pos_bound (z + 2147483648) 4294967296 ltac:(lia)). lia.
Qed.

Lemma wrap_int_add_l a b : wrap_int (wrap_int a + b) = wrap_int (a + b).
Proof.
  unfold wrap_int.
  replace ((a + 2147483648) mod 4294967296 - 2147483648 + b + 2147483648)
    with ((a + 2147483648) mod 4294967296 + b) by lia.
  rewrite Zplus_mod_idemp_l. f_equal. f_equal. lia.
Qed.

Lemma floor_divide_same n d : ErrorDiffusion.floor_divide n d = Thread.floor_divide n d.
Proof. reflexivity. Qed.

Lemma floor_divide_nonneg n : 0 <= n <= INT_MAX -> floor_divide n 16 = Z.quot n 16.
Proof.
  intros H. unfold floor_divide, int_div.
  destruct (Z.geb_spec n 0); [|lia].
  apply wrap_int_id. unfold in_int, INT_MIN, INT_MAX in *.
  rewrite Z.quot_div_nonneg by lia.
  pose proof (Z.div_pos n 16 ltac:(lia) ltac:(lia)).
  pose proof (Z.div_le_upper_bound n 16 INT_MAX ltac:(lia)). unfold INT_MAX in *. lia.
Qed.

Lemma floor_divide_neg n :
  INT_MIN + 15 <= n < 0 -> floor_divide n 16 = Z.quot (n - 16 + 1) 16.
Proof.
  intros H. unfold floor_divide, int_div, int_add, int_sub, INT_MIN in *.
  destruct (Z.geb_spec n 0); [lia|].
  rewrite wrap_int_add_l.
  rewrite (wrap_int_id (n - 16 + 1)) by (unfold in_int, INT_MIN, INT_MAX; lia).
  apply wrap_int_id. unfold in_int, INT_MIN, INT_MAX.
  pose proof (Z.quot_opp_l (-(n - 16 + 1)) 16 ltac:(lia)) as E.
  rewrite Z.opp_involutive in E. rewrite E.
  rewrite Z.quot_div_nonneg by lia.
  pose proof (Z.div_pos (-(n - 16 + 1)) 16 ltac:(lia) ltac:(lia)).
  pose proof (Z.div_le_upper_bound (-(n - 16 + 1)) 16 2147483647 ltac:(lia)). lia.
Qed.

Lemma quot_floor_neg n : n < 0 -> Z.quot (n - 16 + 1) 16 = n / 16.
Proof.
  intros H.
  pose proof (Z.quot_opp_l (-(n - 16 + 1)) 16 ltac:(lia)) as E.
  rewrite Z.opp_involutive in E. rewrite E.
  rewrite Z.quot_div_nonneg by lia.
  pose proof (Z.div_mod n 16 ltac:(lia)).
  pose proof (Z.mod_pos_bound n 16 ltac:(lia)).
  pose proof (Z.div_mod (-(n - 16 + 1)) 16 ltac:(lia)).
  pose proof (Z.mod_pos_bound (-(n - 16 + 1)) 16 ltac:(lia)).
  lia.
Qed.

Lemma floor_divide_floor n : INT_MIN + 15 <= n <= INT_MAX -> floor_divide n 16 = n / 16.
Proof.
  intros H. destruct (Z.lt_ge_cases n 0).
  - rewrite floor_divide_neg by lia. by apply quot_floor_neg.
  - rewrite floor_divide_nonneg by lia. apply Z.quot_div_nonneg; lia.
Qed.

(** ** floor_divide *)

(** C3 fails on the code near the smallest int.  For the sixteen ints
    below INT_MIN + 16 the subtraction [numerator - denominator] leaves
    the range of int: in C the call is undefined.  Where the overflow wraps
    around, the result for the fifteen ints below INT_MIN + 15 is not the
    floor: floor_divide(INT_MIN, 16) is 134217727, while the floor of
    -2147483648 / 16 is -134217728. *)
Theorem floor_divide_overflows_near_int_min :
  Forall (fun n => in_int n /\ Checked.floor_divide n 16 = None) (seqZ INT_MIN 16) /\
  Forall (fun n => Thread.floor_divide n 16 <> n / 16 /\
                   ErrorDiffusion.floor_divide n 16 <> n / 16) (seqZ INT_MIN 15) /\
  Thread.floor_divide INT_MIN 16 = 134217727 /\
  ErrorDiffusion.floor_divide INT_MIN 16 = 134217727 /\
  INT_MIN / 16 = -134217728.
Proof.
  split; [|split; [|by repeat split]].
  - apply Forall_forall. intros n Hn%elem_of_seqZ. unfold in_int, INT_MIN, INT_MAX in *.
    split; [lia|].
    unfold Checked.floor_divide, Checked.sub, Checked.in_range, INT_MIN, INT_MAX.
    destruct (n >=? 0) eqn:E; [apply Z.geb_le in E; lia|].
    destruct (-2147483648 <=? n - 16) eqn:E2; [apply Z.leb_le in E2; lia | done].
  - match goal with
    | |- Forall _ ?l => let l' := eval vm_compute in l in change l with l'
    end.
    repeat constructor; intros H; vm_compute in H; discriminate H.
Qed.

(* The values listed with the claim. *)
Lemma floor_divide_listed_values :
  Thread.floor_divide (-1) 16 = -1 /\ Thread.floor_divide (-15) 16 = -1 /\
  Thread.floor_divide (-16) 16 = -1 /\ Thread.floor_divide 15 16 = 0 /\
  Thread.floor_divide 16 16 = 1.
Proof. repeat split; reflexivity. Qed.

(** ** Quantization and the kernel *)

Ltac cmp_cases :=
  repeat match goal with
  | H : context [?a <? ?b] |- _ => destruct (Z.ltb_spec a b)
  | H : context [?a <=? ?b] |- _ => destruct (Z.leb_spec a b)
  | H : context [?a >? ?b] |- _ => rewrite (Z.gtb_ltb a b) in H
  | H : context [?a >=? ?b] |- _ => rewrite (Z.geb_leb a b) in H
  | |- context [?a <? ?b] => destruct (Z.ltb_spec a b)
  | |- context [?a <=? ?b] => destruct (Z.leb_spec a b)
  | |- context [?a >? ?b] => rewrite (Z.gtb_ltb a b)
  | |- context [?a >=? ?b] => rewrite (Z.geb_leb a b)
  | |- context [?a =? ?b] => destruct (Z.eqb_spec a b)
  end.

Lemma new_pixel_of_cases v : new_pixel_of v = 0 \/ new_pixel_of v = 255.
Proof. unfold new_pixel_of. destruct (v >? 128); auto. Qed.

Lemma to_uchar_new_pixel v : to_uchar (new_pixel_of v) = new_pixel_of v.
Proof. destruct (new_pixel_of_cases v) as [-> | ->]; reflexivity. Qed.

Lemma err_of_exact v : in_int v -> err_of v = v - new_pixel_of v.
Proof.
  intros H. unfold err_of, int_sub. apply wrap_int_id.
  unfold in_int, INT_MIN, INT_MAX, new_pixel_of in *. cmp_cases; lia.
Qed.

Lemma deposit_input err k y x a : input (deposit err k y x a) = input a.
Proof. reflexivity. Qed.

Lemma deposit_output err k y x a : output (deposit err k y x a) = output a.
Proof. reflexivity. Qed.

Lemma propagate_st_input w h y x err a : input (propagate_st w h y x err a) = input a.
Proof. unfold propagate_st. repeat case_match; reflexivity. Qed.

Lemma propagate_st_output w h y x err a : output (propagate_st w h y x err a) = output a.
Proof. unfold propagate_st. repeat case_match; reflexivity. Qed.

Lemma live_targets_guards w h y x :
  in_bounds w h (y, x) = true ->
  live_targets w h (y, x) =
    (if x + 1 <? w then [((y, x + 1), 7)] else []) ++
    (if y + 1 <? h then
       (if x - 1 >=? 0 then [((y + 1, x - 1), 3)] else []) ++
       [((y + 1, x), 5)] ++
       (if x + 1 <? w then [((y + 1, x + 1), 1)] else [])
     else []).
Proof.
  unfold live_targets, kernel_targets, in_bounds. simpl. intros H.
  cmp_cases; simpl in *; try discriminate; try lia; reflexivity.
Qed.

Lemma propagate_st_deposited w h y x err a :
  in_bounds w h (y, x) = true ->
  propagate_st w h y x err a = deposited err (live_targets w h (y, x)) a.
Proof.
  intros H. rewrite live_targets_guards by done.
  unfold propagate_st, deposited. repeat case_match; reflexivity.
Qed.

Lemma propagate_mt_implement w h y x :
  in_bounds w h (y, x) = true ->
  propagate_mt w h y x = implement w h (PropagateError (y, x)).
Proof.
  intros H. simpl. rewrite live_targets_guards by done.
  unfold propagate_mt, locked_deposit. repeat case_match; reflexivity.
Qed.

Ltac lookup_cells :=
  repeat first
    [ rewrite lookup_insert_eq
    | rewrite lookup_insert_ne by (intros [=]; lia) ].

Lemma deposited_work_target w h y x err a c k :
  in_bounds w h (y, x) = true ->
  (c, k) ∈ live_targets w h (y, x) ->
  work (deposited err (live_targets w h (y, x)) a) !! c =
    Some (int_add (cell (work a) c.1 c.2) (floor_divide (int_mul err k) 16)).
Proof.
  intros Hb Hin. rewrite live_targets_guards in * by done.
  unfold deposited, deposit, set_cell, cell.
  repeat case_match; simpl in *; set_unfold;
    repeat match goal with H : _ \/ _ |- _ => destruct H end;
    try done; simplify_eq; simpl; lookup_cells; reflexivity.
Qed.

Lemma deposited_work_other w h y x err a c :
  in_bounds w h (y, x) = true ->
  (forall k, (c, k) ∉ live_targets w h (y, x)) ->
  work (deposited err (live_targets w h (y, x)) a) !! c = work a !! c.
Proof.
  intros Hb Hin. rewrite live_targets_guards in * by done.
  unfold deposited, deposit, set_cell, cell.
  repeat case_match; simpl in *; set_unfold;
    repeat (rewrite lookup_insert_ne; [|intros <-; eapply Hin; eauto 10]); reflexivity.
Qed.


Lemma deposited_output err l a : output (deposited err l a) = output a.
Proof. revert a. induction l as [|tk l IH]; intros a; simpl; [done|]. unfold deposited in *. simpl. by rewrite IH. Qed.



(** C2: for an accumulator value v read when a pixel is quantized, either
    engine writes 255 to the output cell if v > 128 and 0 otherwise, and
    the error it propagates is exactly v minus that value.  The step is a
    total function of the state. *)
Theorem quantization_rule (v : Z) :
  in_int v ->
  let bit := if 128 <? v then 255 else 0 in
  (forall w h y x a,
     cell (work a) y x = v ->
     output (pixel_st w h y x a) !! (y, x) = Some bit /\
     pixel_st w h y x a =
       propagate_st w h y x (v - bit)
         (Arrays (input a) (work a) (<[(y, x) := bit]> (output a)))) /\
  (forall t th rest s y x,
     cell (work (arrs s)) y x = v ->
     exec t th (ARead (y, x)) rest s = Some (with_thread s t (Thread rest v))) /\
  (forall t th rest s y x,
     old_pixel th = v ->
     exists s', exec t th (AWriteOut (y, x)) rest s = Some s' /\
                output (arrs s') = <[(y, x) := bit]> (output (arrs s)) /\
                work (arrs s') = work (arrs s) /\ input (arrs s') = input (arrs s)) /\
  (forall t th rest s y x k,
     old_pixel th = v ->
     exists s', exec t th (ADeposit (y, x) k) rest s = Some s' /\
                arrs s' = deposit (v - bit) k y x (arrs s)).
Proof.
  intros Hv bit.
  assert (Hbit : new_pixel_of v = bit).
  { unfold new_pixel_of, bit. by rewrite Z.gtb_ltb. }
  assert (Herr : err_of v = v - bit) by (rewrite <- Hbit; by apply err_of_exact).
  split.
  { intros w h y x a Hc. unfold pixel_st. rewrite Hc.
    fold (err_of v). rewrite Herr, to_uchar_new_pixel, Hbit. split; [|reflexivity].
    rewrite propagate_st_output. simpl. unfold set_cell. apply lookup_insert_eq. }
  split.
  { intros t th rest s y x Hc. simpl. by rewrite Hc. }
  split.
  { intros t th rest s y x Ho. eexists. split; [reflexivity|]. simpl.
    rewrite Ho, to_uchar_new_pixel, Hbit. done. }
  intros t th rest s y x k Ho. eexists. split; [reflexivity|]. simpl.
  by rewrite Ho, Herr.
Qed.

Lemma quantization_rule_witness :
  in_int 129 /\
  output (pixel_st 1 1 0 0 (Arrays ∅ (<[(0, 0) := 129]> ∅) ∅)) !! (0, 0) = Some 255.
Proof.
  assert (H : in_int 129) by (unfold in_int, INT_MIN, INT_MAX; lia).
  split; [exact H|].
  exact (proj1 (proj1 (quantization_rule 129 H) 1 1 0 0
                  (Arrays ∅ (<[(0, 0) := 129]> ∅) ∅) eq_refl)).
Defined.

(** ** The two serial implementations *)

(** C10: dither_image of error_diffusion.c and dither_image_st of thread.c
    produce the same arrays, hence the same output grid, on every input. *)
Theorem dither_image_same_as_st (inp out : gmap coord Z) (width height : Z) :
  ErrorDiffusion.dither_image inp out width height =
  Thread.dither_image_st inp out width height.
Proof.
  unfold ErrorDiffusion.dither_image, dither_image_st.
  f_equal.
Qed.

(** ** Loops *)

Lemma foldl_preserved {A S : Type} (f : S -> A -> S) (Q : S -> Prop) (l : list A) :
  (forall s i, i ∈ l -> Q s -> Q (f s i)) -> forall s, Q s -> Q (foldl f s l).
Proof.
  induction l as [|i l IH]; intros Hf s Hs; simpl; [done|].
  apply IH.
  - intros s' j Hj. apply Hf. by right.
  - apply Hf; [by left | done].
Qed.

Lemma foldl_established {A S : Type} (f : S -> A -> S) (P : A -> S -> Prop) (l : list A) :
  (forall s i, i ∈ l -> P i (f s i)) ->
  (forall s i j, i ∈ l -> P j s -> P j (f s i)) ->
  forall s i, i ∈ l -> P i (foldl f s l).
Proof.
  induction l as [|j l IH]; intros Hest Hpres s i Hi; simpl.
  - by apply elem_of_nil in Hi.
  - apply elem_of_cons in Hi as [-> | Hi].
    + apply (foldl_preserved f (P j)).
      * intros s' i' Hi'. apply Hpres. by right.
      * apply Hest. by left.
    + apply IH; [| |done].
      * intros s' i' Hi'. apply Hest. by right.
      * intros s' i' j' Hi'. apply Hpres. by right.
Qed.

(** ** The serial engine *)

Lemma pixel_st_output w h y x a :
  output (pixel_st w h y x a) =
    <[(y, x) := new_pixel_of (cell (work a) y x)]> (output a).
Proof. unfold pixel_st. rewrite propagate_st_output. simpl. by rewrite to_uchar_new_pixel. Qed.

Lemma pixel_st_input w h y x a : input (pixel_st w h y x a) = input a.
Proof. unfold pixel_st. by rewrite propagate_st_input. Qed.

Lemma pixel_st_bilevel_here w h y x a : bilevel (output (pixel_st w h y x a)) (y, x).
Proof.
  rewrite pixel_st_output. unfold bilevel. rewrite lookup_insert_eq.
  destruct (new_pixel_of_cases (cell (work a) y x)) as [-> | ->]; auto.
Qed.

Lemma pixel_st_bilevel_kept w h y x a c :
  bilevel (output a) c -> bilevel (output (pixel_st w h y x a)) c.
Proof.
  intros H. destruct (decide (c = (y, x))) as [-> | Hne].
  - apply pixel_st_bilevel_here.
  - rewrite pixel_st_output. unfold bilevel. by rewrite lookup_insert_ne.
Qed.

Lemma row_st_bilevel_kept w h y a c :
  bilevel (output a) c -> bilevel (output (row_st w h y a)) c.
Proof.
  unfold row_st. apply (foldl_preserved _ (fun a => bilevel (output a) c)).
  intros s i _. apply pixel_st_bilevel_kept.
Qed.

Lemma row_st_bilevel_here w h y a x :
  0 <= x < w -> bilevel (output (row_st w h y a)) (y, x).
Proof.
  intros Hx. unfold row_st.
  apply (foldl_established _ (fun x a => bilevel (output a) (y, x))).
  - intros s i _. apply pixel_st_bilevel_here.
  - intros s i j _. apply pixel_st_bilevel_kept.
  - apply elem_of_seqZ. lia.
Qed.

Lemma copy_row_input w y a : input (copy_row w y a) = input a.
Proof. unfold copy_row. by apply (foldl_preserved _ (fun s => input s = input a)). Qed.

Lemma copy_row_output w y a : output (copy_row w y a) = output a.
Proof. unfold copy_row. by apply (foldl_preserved _ (fun s => output s = output a)). Qed.

Lemma copy_input_input w h a : input (copy_input w h a) = input a.
Proof.
  unfold copy_input. apply (foldl_preserved _ (fun s => input s = input a)); [|done].
  intros s i _ <-. apply copy_row_input.
Qed.

Lemma copy_input_output w h a : output (copy_input w h a) = output a.
Proof.
  unfold copy_input. apply (foldl_preserved _ (fun s => output s = output a)); [|done].
  intros s i _ <-. apply copy_row_output.
Qed.

Lemma row_st_input w h y a : input (row_st w h y a) = input a.
Proof.
  unfold row_st. apply (foldl_preserved _ (fun s => input s = input a)); [|done].
  intros s i _ <-. apply pixel_st_input.
Qed.

Lemma dither_image_st_input inp out w h : input (dither_image_st inp out w h) = inp.
Proof.
  unfold dither_image_st.
  apply (foldl_preserved _ (fun s => input s = inp)).
  - intros s i _ <-. apply row_st_input.
  - apply copy_input_input.
Qed.

Lemma dither_image_st_bilevel inp out w h y x :
  0 <= y < h -> 0 <= x < w -> bilevel (output (dither_image_st inp out w h)) (y, x).
Proof.
  intros Hy Hx. unfold dither_image_st.
  apply (foldl_established _ (fun y a => bilevel (output a) (y, x))).
  - intros s i _. by apply row_st_bilevel_here.
  - intros s i j _. apply row_st_bilevel_kept.
  - apply elem_of_seqZ. lia.
Qed.

(** ** The worker's traversal *)

Lemma concat_map_guarded {A B C : Type} (F : A -> list C) (G : B -> list C)
      (p : B -> bool) (k : A -> B) (l : list A) :
  (forall i, i ∈ l -> F i = if p (k i) then G (k i) else []) ->
  concat (map F l) = concat (map G (List.filter p (map k l))).
Proof.
  induction l as [|i l IH]; intros H; simpl; [done|].
  rewrite (H i) by (by left).
  rewrite IH by (intros j Hj; apply H; by right).
  destruct (p (k i)); simpl; done.
Qed.

Lemma concat_map_concat {A B : Type} (f : A -> list B) (ll : list (list A)) :
  concat (map f (concat ll)) = concat (map (fun l => concat (map f l)) ll).
Proof.
  induction ll as [|l ll IH]; simpl; [done|].
  by rewrite map_app, concat_app, IH.
Qed.

Lemma pixel_mt_visit w h y x :
  in_bounds w h (y, x) = true ->
  pixel_mt w h y x = concat (map (implement w h) (visit w h (y, x))).
Proof.
  intros Hb. unfold pixel_mt, visit.
  rewrite !map_app, !concat_app. cbn [fst snd].
  f_equal; [|f_equal].
  - unfold in_bounds in *. cbn [fst snd] in *.
    cmp_cases; simpl in *; try discriminate; try lia; reflexivity.
  - unfold in_bounds in *. cbn [fst snd] in *.
    cmp_cases; simpl in *; try discriminate; try lia; reflexivity.
  - rewrite propagate_mt_implement by done.
    unfold signal_completion. cbn [map concat app]. by rewrite app_nil_r.
Qed.

Lemma diagonal_mt_visits w h diag :
  diagonal_mt w h diag =
    concat (map (fun c => concat (map (implement w h) (visit w h c)))
                (diagonal_coords w h diag)).
Proof.
  unfold diagonal_mt, diagonal_coords.
  apply (concat_map_guarded _ _ (in_bounds w h) (fun row => (row, diag - row))).
  intros y Hy. apply elem_of_seqZ in Hy. cbn zeta.
  destruct (in_bounds w h (y, diag - y)) eqn:Hb.
  - rewrite pixel_mt_visit by done.
    unfold in_bounds in Hb. cbn [fst snd] in Hb.
    cmp_cases; simpl in *; try discriminate; try lia; reflexivity.
  - unfold in_bounds in Hb. cbn [fst snd] in Hb.
    cmp_cases; simpl in *; try discriminate; try lia; reflexivity.
Qed.

(** C6: worker w (thread_id) runs through the diagonals 0 .. width+height-2,
    acts only on those with diag mod num_workers = w, visits the valid
    coordinates of each in increasing row order, and at each performs, in
    this order: the wait for (row-1, col+1) if in bounds, the wait for
    (row, col-1) if in bounds, the quantization and the output write, the
    propagation of the error, the marking as processed with the wake-up. *)
Theorem process_wavefront_follows_plan (width height num_threads thread_id : Z) :
  0 < num_threads ->
  process_wavefront width height num_threads thread_id =
    concat (map (implement width height)
                (worker_plan width height num_threads thread_id)).
Proof.
  intros Hn. unfold process_wavefront, worker_plan, owned_diagonals.
  rewrite concat_map_concat, map_map.
  rewrite <- (map_id (seqZ 0 (width + height - 1))) at 2.
  rewrite <- (concat_map_guarded
    (fun diag => if negb (Z.rem diag num_threads =? thread_id) then []
                 else diagonal_mt width height diag)
    (fun diag => concat (map (implement width height)
       (concat (map (visit width height) (diagonal_coords width height diag)))))
    (fun diag => diag mod num_threads =? thread_id) id).
  - done.
  - intros diag Hd. apply elem_of_seqZ in Hd. unfold id.
    rewrite Z.rem_mod_nonneg by lia.
    destruct (diag mod num_threads =? thread_id); simpl; [|done].
    rewrite diagonal_mt_visits. by rewrite concat_map_concat, map_map.
Qed.

Lemma process_wavefront_follows_plan_witness :
  0 < 2 /\
  process_wavefront 2 2 2 1 =
    concat (map (implement 2 2) (worker_plan 2 2 2 1)).
Proof. split; [lia | apply process_wavefront_follows_plan; lia]. Defined.

(** ** Executions of the wavefront engine *)

Lemma reachable_invariant (I : state -> Prop) (s0 : state) :
  I s0 -> (forall s s', I s -> step_rel s s' -> I s') ->
  forall s, reachable s0 s -> I s.
Proof.
  intros H0 Hstep s Hr. induction Hr as [|s1 s2 s3 H12 _ IH]; [done|].
  apply IH. by apply (Hstep s1).
Qed.

Lemma run_reachable sched s s' : run sched s = Some s' -> reachable s s'.
Proof.
  revert s. induction sched as [|t sched IH]; intros s H; simpl in H.
  - injection H as <-. apply rtc_refl.
  - destruct (step t s) as [s1|] eqn:E; [|done].
    eapply rtc_l; [by exists t | by apply IH].
Qed.

Lemma step_inv t s s' :
  step t s = Some s' ->
  exists th a rest,
    threads s !! t = Some th /\ script th = a :: rest /\ exec t th a rest s = Some s'.
Proof.
  unfold step. intros H.
  destruct (threads s !! t) as [th|] eqn:Et; [|done].
  destruct (script th) as [|a rest] eqn:Es; [done|].
  by exists th, a, rest.
Qed.

Lemma threads_insert_lookup (ths : list thread) t0 th0 th' t th :
  ths !! t0 = Some th0 ->
  <[t0 := th']> ths !! t = Some th ->
  (t = t0 /\ th = th') \/ (t <> t0 /\ ths !! t = Some th).
Proof.
  intros H0 H. destruct (decide (t = t0)) as [-> | Hne].
  - left. split; [done|].
    rewrite list_lookup_insert_eq in H by (by eapply lookup_lt_Some). congruence.
  - right. split; [done|]. by rewrite list_lookup_insert_ne in H.
Qed.

(** *** Lock discipline *)

Lemma holds_none_true held : holds_none held = true -> held = None.
Proof. by destruct held. Qed.

Lemma holds_true held c : holds held c = true -> held = Some c.
Proof.
  destruct held as [c'|]; simpl; [|done].
  intros H. apply bool_decide_eq_true in H. by subst.
Qed.

Lemma lock_inv_same s t0 th0 a' p' scr' op' :
  lock_inv s -> threads s !! t0 = Some th0 ->
  (forall held, disciplined held (script th0) = true -> disciplined held scr' = true) ->
  lock_inv (State a' p' (pixel_mutexes s) (<[t0 := Thread scr' op']> (threads s))).
Proof.
  intros Hinv H0 Hd t th Ht. simpl in *.
  destruct (threads_insert_lookup _ _ _ _ _ _ H0 Ht) as [[-> ->] | [Hne Ht']].
  - destruct (Hinv _ _ H0) as (held & Hh & Hm). exists held. split; [by apply Hd | done].
  - by apply Hinv.
Qed.

Lemma lock_inv_acquire s t0 th0 a' p' scr' op' c :
  lock_inv s -> threads s !! t0 = Some th0 ->
  pixel_mutexes s !! c = None ->
  (forall held, disciplined held (script th0) = true ->
                held = None /\ disciplined (Some c) scr' = true) ->
  lock_inv (State a' p' (<[c := t0]> (pixel_mutexes s)) (<[t0 := Thread scr' op']> (threads s))).
Proof.
  intros Hinv H0 Hfree Hd t th Ht. simpl in *.
  destruct (threads_insert_lookup _ _ _ _ _ _ H0 Ht) as [[-> ->] | [Hne Ht']].
  - destruct (Hinv _ _ H0) as (held & Hh & Hm).
    destruct (Hd _ Hh) as [-> Hd']. exists (Some c). split; [done|].
    intros c'. destruct (decide (c' = c)) as [-> | Hc].
    + by rewrite lookup_insert_eq.
    + rewrite lookup_insert_ne by done. rewrite Hm. split; [done | congruence].
  - destruct (Hinv _ _ Ht') as (held & Hh & Hm). exists held. split; [done|].
    intros c'. destruct (decide (c' = c)) as [-> | Hc].
    + rewrite lookup_insert_eq. rewrite <- Hm, Hfree. split; [congruence | done].
    + by rewrite lookup_insert_ne.
Qed.

Lemma lock_inv_release s t0 th0 a' p' scr' op' c :
  lock_inv s -> threads s !! t0 = Some th0 ->
  (forall held, disciplined held (script th0) = true ->
                held = Some c /\ disciplined None scr' = true) ->
  lock_inv (State a' p' (delete c (pixel_mutexes s)) (<[t0 := Thread scr' op']> (threads s))).
Proof.
  intros Hinv H0 Hd t th Ht. simpl in *.
  destruct (Hinv _ _ H0) as (held0 & Hh0 & Hm0).
  destruct (Hd _ Hh0) as [-> Hd'].
  destruct (threads_insert_lookup _ _ _ _ _ _ H0 Ht) as [[-> ->] | [Hne Ht']].
  - exists None. split; [done|].
    intros c'. destruct (decide (c' = c)) as [-> | Hc].
    + by rewrite lookup_delete_eq.
    + rewrite lookup_delete_ne by done. rewrite Hm0. split; congruence.
  - destruct (Hinv _ _ Ht') as (held & Hh & Hm). exists held. split; [done|].
    intros c'. destruct (decide (c' = c)) as [-> | Hc].
    + rewrite lookup_delete_eq. rewrite <- Hm.
      assert (pixel_mutexes s !! c = Some t0) as -> by (by apply Hm0).
      split; [done | congruence].
    + by rewrite lookup_delete_ne.
Qed.

Lemma lock_inv_step s s' : lock_inv s -> step_rel s s' -> lock_inv s'.
Proof.
  intros Hinv [t Hs].
  destruct (step_inv _ _ _ Hs) as (th & a & rest & Ht & Hscr & He).
  destruct a; simpl in He.
  - destruct (pixel_mutexes s !! c) eqn:Hm; [done|]. injection He as <-.
    eapply lock_inv_acquire; eauto.
    intros held. rewrite Hscr. simpl. intros [H1 H2]%andb_prop.
    split; [by apply holds_none_true | done].
  - destruct (cell (pixel_processed s) c.1 c.2 =? 0); injection He as <-.
    + eapply lock_inv_release; eauto.
      intros held. rewrite Hscr. simpl. intros [H1 H2]%andb_prop.
      apply holds_true in H1 as ->. split; [done|].
      simpl. rewrite bool_decide_eq_true_2 by done. done.
    + eapply lock_inv_same; eauto.
      intros held. rewrite Hscr. simpl. by intros [H1 H2]%andb_prop.
  - injection He as <-. eapply lock_inv_release; eauto.
    intros held. rewrite Hscr. simpl. intros [H1 H2]%andb_prop.
    apply holds_true in H1 as ->. done.
  - injection He as <-. eapply lock_inv_same; eauto.
    intros held. rewrite Hscr. simpl. by intros [H1 H2]%andb_prop.
  - injection He as <-. eapply lock_inv_same; eauto.
    intros held. rewrite Hscr. simpl. by intros [H1 H2]%andb_prop.
  - injection He as <-. eapply lock_inv_same; eauto.
    intros held. rewrite Hscr. simpl. by intros [H1 H2]%andb_prop.
  - injection He as <-. eapply lock_inv_same; eauto.
    intros held. rewrite Hscr. simpl. by intros [H1 H2]%andb_prop.
  - injection He as <-. eapply lock_inv_same; eauto.
    intros held. rewrite Hscr. simpl. by intros [H1 H2]%andb_prop.
Qed.

Lemma disciplined_app l1 l2 held :
  disciplined held l1 = true -> disciplined held (l1 ++ l2) = disciplined None l2.
Proof.
  revert held. induction l1 as [|a l1 IH]; intros held H; simpl in *.
  - by apply holds_none_true in H as ->.
  - destruct a; apply andb_prop in H as [H1 H2]; rewrite H1; simpl; by apply IH.
Qed.

Lemma disciplined_concat (ls : list (list action)) :
  Forall (fun l => disciplined None l = true) ls -> disciplined None (concat ls) = true.
Proof.
  induction 1 as [|l ls Hl _ IH]; simpl; [done|].
  by rewrite disciplined_app.
Qed.

Lemma pixel_mt_disciplined w h y x : disciplined None (pixel_mt w h y x) = true.
Proof.
  unfold pixel_mt, propagate_mt, wait_for, locked_deposit, signal_completion.
  repeat case_match; simpl; repeat (rewrite bool_decide_eq_true_2 by done); reflexivity.
Qed.

Lemma diagonal_mt_disciplined w h diag : disciplined None (diagonal_mt w h diag) = true.
Proof.
  unfold diagonal_mt. apply disciplined_concat, Forall_map, Forall_forall.
  intros y _. simpl. case_match; [apply pixel_mt_disciplined | done].
Qed.

Lemma process_wavefront_disciplined w h n i :
  disciplined None (process_wavefront w h n i) = true.
Proof.
  unfold process_wavefront. apply disciplined_concat, Forall_map, Forall_forall.
  intros y _. simpl. case_match; [done | apply diagonal_mt_disciplined].
Qed.

Lemma initial_thread inp out w h n t th :
  threads (dither_image_mt inp out w h n) !! t = Some th ->
  exists i, 0 <= i < n /\ t = Z.to_nat i /\ th = Thread (process_wavefront w h n i) 0.
Proof.
  simpl. rewrite list_lookup_fmap. intros H.
  destruct (seqZ 0 n !! t) as [i|] eqn:E; [|done]. simpl in H. injection H as <-.
  apply lookup_seqZ in E as [-> Ht]. exists (Z.of_nat t). split; [lia|].
  split; [lia | f_equal; f_equal; lia].
Qed.

Lemma initial_thread_lookup inp out w h n i :
  0 <= i < n ->
  threads (dither_image_mt inp out w h n) !! Z.to_nat i =
    Some (Thread (process_wavefront w h n i) 0).
Proof.
  intros Hi. simpl. rewrite list_lookup_fmap.
  assert (seqZ 0 n !! Z.to_nat i = Some i) as ->; [|done].
  apply lookup_seqZ. lia.
Qed.

Lemma lock_inv_initial inp out w h n : lock_inv (dither_image_mt inp out w h n).
Proof.
  intros t th Ht. apply initial_thread in Ht as (i & _ & _ & ->).
  exists None. split; [apply process_wavefront_disciplined|].
  intros c. simpl. by rewrite lookup_empty.
Qed.

Lemma lock_inv_reachable inp out w h n s :
  reachable (dither_image_mt inp out w h n) s -> lock_inv s.
Proof. apply reachable_invariant; [apply lock_inv_initial | apply lock_inv_step]. Qed.

(** C5, as stated, fails: in the state in which the only worker of a 1 x 1
    grid starts, its next action is the quantization read of work[0][0],
    the mutex of (0, 0) is held by nobody, and the read is performed. *)
Lemma quantization_read_without_mutex :
  let s := dither_image_mt (<[(0, 0) := 200]> ∅) ∅ 1 1 1 in
  (exists rest, threads s !! 0%nat = Some (Thread (ARead (0, 0) :: rest) 0)) /\
  pixel_mutexes s !! (0, 0) = None /\
  (exists s', step 0 s = Some s' /\
              (threads s' !! 0%nat ≫= fun th => Some (old_pixel th)) = Some 200).
Proof.
  split; [eexists; reflexivity|].
  split; [reflexivity|].
  eexists. split; reflexivity.
Qed.

(** *** Output and input arrays during an execution *)

Lemma exec_shape t th a rest s s' :
  exec t th a rest s = Some s' ->
  exists scr' op',
    threads s' = <[t := Thread scr' op']> (threads s) /\
    (forall b, b ∈ rest -> b ∈ scr') /\
    input (arrs s') = input (arrs s) /\
    output (arrs s') =
      match a with
      | AWriteOut c => <[c := new_pixel_of (old_pixel th)]> (output (arrs s))
      | _ => output (arrs s)
      end.
Proof.
  destruct a; simpl; intros H.
  - destruct (pixel_mutexes s !! c); [done|]. injection H as <-. by eexists _, _.
  - destruct (cell (pixel_processed s) c.1 c.2 =? 0); injection H as <-.
    + eexists _, _. split; [reflexivity|]. split; [|done].
      intros b Hb. by do 2 right.
    + by eexists _, _.
  - injection H as <-. by eexists _, _.
  - injection H as <-. by eexists _, _.
  - injection H as <-. eexists _, _. split; [reflexivity|]. split; [done|]. split; [done|].
    simpl. rewrite to_uchar_new_pixel. unfold set_cell. by destruct c.
  - injection H as <-. by eexists _, _.
  - injection H as <-. by eexists _, _.
  - injection H as <-. by eexists _, _.
Qed.

Lemma output_inv_step out w h s s' :
  output_inv out w h s -> step_rel s s' -> output_inv out w h s'.
Proof.
  intros Hinv [t0 Hs] c Hc.
  destruct (step_inv _ _ _ Hs) as (th0 & a & rest & Ht0 & Hscr & He).
  destruct (exec_shape _ _ _ _ _ _ He) as (scr' & op' & Hths & Hsub & _ & Hout).
  assert (Hwritten : a = AWriteOut c -> bilevel (output (arrs s')) c).
  { intros ->. rewrite Hout. unfold bilevel. rewrite lookup_insert_eq.
    destruct (new_pixel_of_cases (old_pixel th0)) as [-> | ->]; auto. }
  assert (Hkept : a <> AWriteOut c -> output (arrs s') !! c = output (arrs s) !! c).
  { intros Ha. rewrite Hout. destruct a; try done.
    apply lookup_insert_ne. congruence. }
  destruct (decide (a = AWriteOut c)) as [Ha | Ha]; [left; by apply Hwritten|].
  specialize (Hkept Ha).
  destruct (Hinv c Hc) as [Hb | [Ho (t & th & Ht & Hin)]].
  - left. unfold bilevel in *. by rewrite Hkept.
  - right. split; [congruence|].
    destruct (decide (t = t0)) as [-> | Hne].
    + exists t0, (Thread scr' op'). split.
      * rewrite Hths. apply list_lookup_insert_eq. by eapply lookup_lt_Some.
      * simpl. apply Hsub. rewrite Ht0 in Ht. injection Ht as <-.
        rewrite Hscr in Hin. apply elem_of_cons in Hin as [Hin | Hin]; [congruence | done].
    + exists t, th. split; [|done]. rewrite Hths. by rewrite list_lookup_insert_ne.
Qed.

Lemma pixel_mt_writes w h y x : In (AWriteOut (y, x)) (pixel_mt w h y x).
Proof.
  unfold pixel_mt. apply in_or_app. right. apply in_or_app. right.
  apply in_or_app. left. right. by left.
Qed.

Lemma process_wavefront_writes w h n y x :
  0 < n -> in_bounds w h (y, x) = true ->
  AWriteOut (y, x) ∈ process_wavefront w h n ((y + x) mod n).
Proof.
  intros Hn Hb. unfold in_bounds in Hb. cbn [fst snd] in Hb.
  assert (0 <= y < h /\ 0 <= x < w) as [Hy Hx] by (cmp_cases; simpl in *; try discriminate; lia).
  apply list_elem_of_In. unfold process_wavefront.
  apply in_concat. exists (diagonal_mt w h (y + x)). split.
  - apply in_map_iff. exists (y + x). split.
    + rewrite Z.rem_mod_nonneg by lia. by rewrite Z.eqb_refl.
    + apply list_elem_of_In, elem_of_seqZ. lia.
  - unfold diagonal_mt. apply in_concat. exists (pixel_mt w h y x). split.
    + apply in_map_iff. exists y. split.
      * cbn zeta. replace (y + x - y) with x by lia.
        cmp_cases; simpl; try lia; reflexivity.
      * apply list_elem_of_In, elem_of_seqZ. lia.
    + apply pixel_mt_writes.
Qed.

Lemma output_inv_initial inp out w h n :
  0 < n -> output_inv out w h (dither_image_mt inp out w h n).
Proof.
  intros Hn [y x] Hb. right. split.
  - simpl. by rewrite copy_input_output.
  - exists (Z.to_nat ((y + x) mod n)), (Thread (process_wavefront w h n ((y + x) mod n)) 0).
    split.
    + apply initial_thread_lookup. by apply Z.mod_pos_bound.
    + by apply process_wavefront_writes.
Qed.

Lemma output_inv_finished out w h s c :
  output_inv out w h s -> finished s -> in_bounds w h c = true ->
  bilevel (output (arrs s)) c.
Proof.
  intros Hinv Hfin Hc. destruct (Hinv c Hc) as [Hb | [_ (t & th & Ht & Hin)]]; [done|].
  unfold finished in Hfin. rewrite Forall_forall in Hfin.
  rewrite (Hfin th) in Hin by (by eapply list_elem_of_lookup_2).
  by apply elem_of_nil in Hin.
Qed.

Lemma input_step s s' : step_rel s s' -> input (arrs s') = input (arrs s).
Proof.
  intros [t Hs]. destruct (step_inv _ _ _ Hs) as (th & a & rest & _ & _ & He).
  by destruct (exec_shape _ _ _ _ _ _ He) as (? & ? & _ & _ & Hin & _).
Qed.

Lemma copy_cell_seeded y x y' x' s :
  work s !! (y', x') = Some (cell (input s) y' x') ->
  let s' := Arrays (input s) (set_cell (work s) y x (cell (input s) y x)) (output s) in
  work s' !! (y', x') = Some (cell (input s') y' x').
Proof.
  intros H. simpl. unfold set_cell.
  destruct (decide ((y, x) = (y', x'))) as [[= -> ->] | Hne].
  - by rewrite lookup_insert_eq.
  - by rewrite lookup_insert_ne.
Qed.

Lemma copy_row_seeded_kept w y y' x' s :
  work s !! (y', x') = Some (cell (input s) y' x') ->
  work (copy_row w y s) !! (y', x') = Some (cell (input (copy_row w y s)) y' x').
Proof.
  unfold copy_row.
  apply (foldl_preserved _ (fun s => work s !! (y', x') = Some (cell (input s) y' x'))).
  intros s' x _. apply copy_cell_seeded.
Qed.

Lemma copy_row_seeded w y x s :
  0 <= x < w ->
  work (copy_row w y s) !! (y, x) = Some (cell (input (copy_row w y s)) y x).
Proof.
  intros Hx. unfold copy_row.
  apply (foldl_established _ (fun x s => work s !! (y, x) = Some (cell (input s) y x))).
  - intros s' i _. simpl. unfold set_cell. by rewrite lookup_insert_eq.
  - intros s' i j _. apply copy_cell_seeded.
  - apply elem_of_seqZ. lia.
Qed.

Lemma copy_input_seeded w h y x a :
  in_bounds w h (y, x) = true ->
  work (copy_input w h a) !! (y, x) = Some (cell (input a) y x).
Proof.
  intros Hb. unfold in_bounds in Hb. cbn [fst snd] in Hb.
  assert (0 <= y < h /\ 0 <= x < w) as [Hy Hx] by (cmp_cases; simpl in *; try discriminate; lia).
  rewrite <- (copy_input_input w h a). unfold copy_input.
  apply (foldl_established _
           (fun y s => work s !! (y, x) = Some (cell (input s) y x))).
  - intros s i _. by apply copy_row_seeded.
  - intros s i j _. apply copy_row_seeded_kept.
  - apply elem_of_seqZ. lia.
Qed.

Lemma dither_image_same_as_st_arrays inp out w h :
  ErrorDiffusion.dither_image inp out w h = dither_image_st inp out w h.
Proof. reflexivity. Qed.

(** C9: every engine leaves the input grid as it was: dither_image,
    dither_image_st, and every state of every execution of the wavefront
    engine have the input array of the call; the accumulation runs on the
    work array, which starts as a copy of the input. *)
Theorem input_is_only_read (inp out : gmap coord Z) (width height num_threads : Z) :
  input (ErrorDiffusion.dither_image inp out width height) = inp /\
  input (dither_image_st inp out width height) = inp /\
  (forall s, reachable (dither_image_mt inp out width height num_threads) s ->
             input (arrs s) = inp) /\
  (forall y x, in_bounds width height (y, x) = true ->
     work (copy_input width height (Arrays inp ∅ out)) !! (y, x) = Some (cell inp y x) /\
     work (ErrorDiffusion.copy_input width height (Arrays inp ∅ out)) !! (y, x)
       = Some (cell inp y x)).
Proof.
  split; [rewrite dither_image_same_as_st_arrays; apply dither_image_st_input|].
  split; [apply dither_image_st_input|].
  split.
  - apply (reachable_invariant (fun s => input (arrs s) = inp)).
    + simpl. apply copy_input_input.
    + intros s s' <- Hs. by apply input_step.
  - intros y x Hb. split; by apply (copy_input_seeded width height y x (Arrays inp ∅ out)).
Qed.

Lemma input_is_only_read_witness :
  let inp : gmap coord Z := <[(0, 0) := 200]> (<[(0, 1) := 7]> ∅) in
  let s0 := dither_image_mt inp ∅ 2 1 1 in
  let s := default s0 (run [0; 0; 0]%nat s0) in
  reachable s0 s /\
  input (arrs s) = inp /\
  in_bounds 2 1 (0, 1) = true /\
  work (copy_input 2 1 (Arrays inp ∅ ∅)) !! (0, 1) = Some (cell inp 0 1).
Proof.
  intros inp s0 s.
  assert (Hrun : run [0; 0; 0]%nat s0 = Some s) by (vm_compute; reflexivity).
  assert (Hr : reachable s0 s) by (by apply (run_reachable [0; 0; 0]%nat)).
  pose proof (input_is_only_read inp ∅ 2 1 1) as (_ & _ & Hmt & Hwork).
  split; [exact Hr|].
  split; [exact (Hmt s Hr)|].
  split; [reflexivity|].
  exact (proj1 (Hwork 0 1 eq_refl)).
Defined.

(** C7: after a completed dithering call on a height x width grid, every
    cell of the output grid holds 0 or 255: after dither_image_st, and in
    every state of the wavefront engine in which all workers have finished.
    While the workers run, a cell of the grid holds 0, 255, or what the
    caller's array held before the call. *)
Theorem output_is_bilevel
    (inp out : gmap coord Z) (width height num_threads y x : Z) :
  0 <= y < height -> 0 <= x < width ->
  bilevel (output (dither_image_st inp out width height)) (y, x) /\
  (0 < num_threads ->
   forall s, reachable (dither_image_mt inp out width height num_threads) s ->
     (finished s -> bilevel (output (arrs s)) (y, x)) /\
     (bilevel (output (arrs s)) (y, x) \/ output (arrs s) !! (y, x) = out !! (y, x))).
Proof.
  intros Hy Hx. split; [by apply dither_image_st_bilevel|].
  intros Hn s Hr.
  assert (Hb : in_bounds width height (y, x) = true).
  { unfold in_bounds. cbn [fst snd]. cmp_cases; simpl; try lia; reflexivity. }
  assert (Hinv : output_inv out width height s).
  { revert s Hr. apply reachable_invariant;
      [by apply output_inv_initial | apply output_inv_step]. }
  split.
  - intros Hfin. by eapply output_inv_finished.
  - destruct (Hinv _ Hb) as [? | [? _]]; auto.
Qed.

Lemma output_is_bilevel_witness :
  let inp : gmap coord Z := <[(0, 0) := 200]> (<[(0, 1) := 7]> ∅) in
  let s0 := dither_image_mt inp ∅ 2 1 1 in
  let s := default s0 (run (replicate 18 0%nat) s0) in
  reachable s0 s /\
  finished s /\
  bilevel (output (arrs s)) (0, 1) /\
  bilevel (output (dither_image_st inp ∅ 2 1)) (0, 1).
Proof.
  intros inp s0 s.
  assert (Hrun : run (replicate 18 0%nat) s0 = Some s) by (vm_compute; reflexivity).
  assert (Hr : reachable s0 s) by (by apply (run_reachable (replicate 18 0%nat))).
  assert (Hfin : finished s) by (vm_compute; repeat constructor).
  pose proof (output_is_bilevel inp ∅ 2 1 1 0 1 ltac:(lia) ltac:(lia)) as [Hst Hmt].
  split; [exact Hr|]. split; [exact Hfin|].
  split; [|exact Hst].
  exact (proj1 (Hmt ltac:(lia) s Hr) Hfin).
Defined.

(** ** Malformed dimensions *)

Lemma concat_all_nil {A : Type} (ls : list (list A)) :
  Forall (fun l => l = []) ls -> concat ls = [].
Proof. induction 1 as [|l ls -> _ IH]; simpl; done. Qed.

Lemma in_bounds_malformed w h c : height_or_width_malformed w h -> in_bounds w h c = false.
Proof.
  unfold height_or_width_malformed, in_bounds. intros H.
  cmp_cases; simpl; try reflexivity; lia.
Qed.

Lemma process_wavefront_malformed w h n i :
  height_or_width_malformed w h -> process_wavefront w h n i = [].
Proof.
  intros H. unfold process_wavefront.
  apply concat_all_nil, Forall_map, Forall_forall. intros diag _. simpl.
  case_match; [done|]. unfold diagonal_mt.
  apply concat_all_nil, Forall_map, Forall_forall. intros y Hy. simpl.
  apply elem_of_seqZ in Hy. unfold height_or_width_malformed in H.
  cmp_cases; simpl; try reflexivity; lia.
Qed.

Lemma row_st_malformed w h y a :
  height_or_width_malformed w h -> 0 <= y < h -> row_st w h y a = a.
Proof.
  unfold height_or_width_malformed. intros H Hy. unfold row_st.
  by rewrite seqZ_nil by lia.
Qed.

Lemma dither_image_st_malformed inp out w h :
  height_or_width_malformed w h -> output (dither_image_st inp out w h) = out.
Proof.
  intros H. unfold dither_image_st.
  apply (foldl_preserved _ (fun s => output s = out)).
  - intros s y Hy <-. apply elem_of_seqZ in Hy. by rewrite row_st_malformed by (done || lia).
  - apply copy_input_output.
Qed.

Lemma foldl_snd {T A B : Type} (F : T * A -> B -> T * A) (f : A -> B -> A) :
  (forall ta y, (F ta y).2 = f ta.2 y) ->
  forall l ta, (foldl F ta l).2 = foldl f ta.2 l.
Proof.
  intros HF. induction l as [|y l IH]; intros ta; [done|].
  cbn [foldl]. by rewrite IH, HF.
Qed.

Lemma foldl_trace_extends {A B : Type} (F : list event * A -> B -> list event * A) :
  (forall ta y, exists more, (F ta y).1 = ta.1 ++ more) ->
  forall l ta, exists more, (foldl F ta l).1 = ta.1 ++ more.
Proof.
  intros HF. induction l as [|y l IH]; intros ta; cbn [foldl].
  - exists []. by rewrite app_nil_r.
  - destruct (IH (F ta y)) as [m1 ->]. destruct (HF ta y) as [m2 ->].
    exists (m2 ++ m1). by rewrite app_assoc.
Qed.

Lemma copy_input_traced_arrays p w h a :
  (copy_input_traced p w h a).2 = copy_input w h a.
Proof.
  unfold copy_input_traced, copy_input.
  by rewrite (foldl_snd _ (fun a y => copy_row w y a)).
Qed.

Lemma init_processed_traced_flags p w h :
  (init_processed_traced p w h).2 = init_processed w h.
Proof.
  unfold init_processed_traced, init_processed.
  rewrite (foldl_snd _ (fun fl y => foldl (fun fl x => set_cell fl y x 0) fl (seqZ 0 w)));
    [done|].
  intros tp y. by rewrite (foldl_snd _ (fun fl x => set_cell fl y x 0)).
Qed.

(* The traced engines are the engines. *)
Lemma dither_image_st_traced_arrays p inp out w h :
  (dither_image_st_traced p inp out w h).2 = dither_image_st inp out w h.
Proof. unfold dither_image_st_traced, dither_image_st. cbn [snd]. by rewrite copy_input_traced_arrays. Qed.

Lemma dither_image_mt_traced_state p inp out w h n :
  (dither_image_mt_traced p inp out w h n).2 = dither_image_mt inp out w h n.
Proof.
  unfold dither_image_mt_traced, dither_image_mt. cbn [snd].
  by rewrite copy_input_traced_arrays, init_processed_traced_flags.
Qed.

Lemma copy_input_traced_first p w h a :
  exists more, (copy_input_traced p w h a).1 = request p h int_row_ptr :: more.
Proof.
  unfold copy_input_traced.
  destruct (foldl_trace_extends
              (fun ta y => (ta.1 ++ [request p w int_cell], copy_row w y ta.2))
              (fun ta y => ex_intro _ [request p w int_cell] eq_refl)
              (seqZ 0 h) ([request p h int_row_ptr], a)) as [more ->].
  by exists more.
Qed.

Lemma init_processed_traced_first p w h :
  exists more, (init_processed_traced p w h).1 =
    [request p h mutex_row_ptr; request p h cond_row_ptr; request p h flag_row_ptr] ++ more.
Proof.
  unfold init_processed_traced. apply foldl_trace_extends. intros tp y.
  destruct (foldl_trace_extends
              (fun tp x => (tp.1 ++ [request_one p mutex_obj; request_one p cond_obj;
                                     request_one p flag_obj], set_cell tp.2 y x 0))
              (fun tp x => ex_intro _ _ eq_refl) (seqZ 0 w)
              (tp.1 ++ [request p w mutex_ptr; request p w cond_ptr; request p w flag_ptr],
               tp.2)) as [more ->].
  cbn [fst]. eexists. by rewrite <- app_assoc.
Qed.

Lemma copy_input_malformed w h a :
  height_or_width_malformed w h -> copy_input w h a = a.
Proof.
  unfold height_or_width_malformed. intros H. unfold copy_input.
  apply (foldl_preserved _ (fun s => s = a)); [|done].
  intros s y Hy ->. apply elem_of_seqZ in Hy. unfold copy_row.
  by rewrite seqZ_nil by lia.
Qed.

Lemma init_processed_malformed w h :
  height_or_width_malformed w h -> init_processed w h = ∅.
Proof.
  unfold height_or_width_malformed. intros H. unfold init_processed.
  apply (foldl_preserved _ (fun fl : gmap coord Z => fl = ∅)); [|done].
  intros fl y Hy ->. apply elem_of_seqZ in Hy. by rewrite seqZ_nil by lia.
Qed.

Lemma dither_image_st_malformed_arrays inp out w h :
  height_or_width_malformed w h -> dither_image_st inp out w h = Arrays inp ∅ out.
Proof.
  intros H. unfold dither_image_st. rewrite copy_input_malformed by done.
  apply (foldl_preserved _ (fun s => s = Arrays inp ∅ out)); [|done].
  intros s y Hy ->. apply elem_of_seqZ in Hy. by rewrite row_st_malformed by (done || lia).
Qed.

(** C8, as stated, fails: neither engine has a dimension check.  Called
    with height 0, dither_image_st and dither_image_mt call malloc as for
    any other call, for the row pointers of the working grid first (with a
    byte count of 0). *)
Lemma malformed_dimensions_still_allocate :
  height_or_width_malformed 5 0 /\
  (dither_image_st_traced lp64 ∅ ∅ 5 0).1 = [EMalloc 0 int_row_ptr] /\
  (dither_image_mt_traced lp64 ∅ ∅ 5 0 2).1 =
    [EMalloc 0 int_row_ptr;
     EMalloc 0 mutex_row_ptr; EMalloc 0 cond_row_ptr; EMalloc 0 flag_row_ptr;
     EMalloc 16 pthread_obj; EMalloc 112 thread_data_obj].
Proof. split; [left; lia | split; reflexivity]. Qed.

(** C8 (amended): for height <= 0 or width <= 0 neither engine rejects the
    call.  Its first statement is the call of malloc for the row pointers
    of the work array, with the byte count height * sizeof(int* ) computed
    in size_t, and dither_image_mt also calls malloc for the row pointers
    of the three synchronization arrays, with byte counts computed the
    same way; no quantization step is performed: the serial engine leaves
    the output array as it was, and every worker of the wavefront engine
    has nothing to do; no cell of the work array or of the flags is
    written. *)
Theorem malformed_dimensions_run_empty
    (p : platform) (inp out : gmap coord Z) (width height num_threads : Z) :
  height_or_width_malformed width height ->
  (dither_image_st_traced p inp out width height).2 = dither_image_st inp out width height /\
  (dither_image_mt_traced p inp out width height num_threads).2 =
    dither_image_mt inp out width height num_threads /\
  (exists rest, (dither_image_st_traced p inp out width height).1
                = request p height int_row_ptr :: rest) /\
  (exists rest, (dither_image_mt_traced p inp out width height num_threads).1
                = request p height int_row_ptr :: rest) /\
  request p height mutex_row_ptr ∈ (dither_image_mt_traced p inp out width height num_threads).1 /\
  request p height cond_row_ptr ∈ (dither_image_mt_traced p inp out width height num_threads).1 /\
  request p height flag_row_ptr ∈ (dither_image_mt_traced p inp out width height num_threads).1 /\
  output (dither_image_st inp out width height) = out /\
  finished (dither_image_mt inp out width height num_threads) /\
  output (arrs (dither_image_mt inp out width height num_threads)) = out /\
  dither_image_st inp out width height = Arrays inp ∅ out /\
  arrs (dither_image_mt inp out width height num_threads) = Arrays inp ∅ out /\
  pixel_processed (dither_image_mt inp out width height num_threads) = ∅.
Proof.
  intros H.
  split; [apply dither_image_st_traced_arrays|].
  split; [apply dither_image_mt_traced_state|].
  destruct (copy_input_traced_first p width height (Arrays inp ∅ out)) as [m1 Hm1].
  destruct (init_processed_traced_first p width height) as [m2 Hm2].
  split; [exists m1; exact Hm1|].
  split; [unfold dither_image_mt_traced; cbn [fst]; rewrite Hm1; by eexists|].
  assert (Hsync : forall e,
    e ∈ [request p height mutex_row_ptr; request p height cond_row_ptr;
         request p height flag_row_ptr] ->
    e ∈ (dither_image_mt_traced p inp out width height num_threads).1).
  { intros e He. unfold dither_image_mt_traced. cbn [fst]. rewrite Hm2.
    apply elem_of_app. right. apply elem_of_app. left. apply elem_of_app. by left. }
  split; [apply Hsync; rewrite !elem_of_cons; auto|].
  split; [apply Hsync; rewrite !elem_of_cons; auto|].
  split; [apply Hsync; rewrite !elem_of_cons; auto|].
  split; [by apply dither_image_st_malformed|].
  split.
  { unfold finished. simpl. apply Forall_map, Forall_forall. intros i _. simpl.
    by apply process_wavefront_malformed. }
  split; [simpl; apply copy_input_output|].
  split; [by apply dither_image_st_malformed_arrays|].
  split; [simpl; by apply copy_input_malformed | simpl; by apply init_processed_malformed].
Qed.

Lemma malformed_dimensions_run_empty_witness :
  height_or_width_malformed 3 (-1) /\
  (exists rest, (dither_image_st_traced lp64 ∅ (<[(0, 0) := 77]> ∅) 3 (-1)).1
                = EMalloc 18446744073709551608 int_row_ptr :: rest) /\
  output (dither_image_st ∅ (<[(0, 0) := 77]> ∅) 3 (-1)) = <[(0, 0) := 77]> ∅.
Proof.
  assert (H : height_or_width_malformed 3 (-1)) by (left; lia).
  split; [exact H|].
  destruct (malformed_dimensions_run_empty lp64 ∅ (<[(0, 0) := 77]> ∅) 3 (-1) 2 H)
    as (_ & _ & Hfirst & _ & _ & _ & _ & Hout & _).
  split; [exact Hfirst | exact Hout].
Defined.

(** ** The serial sweep solves the recurrence *)

Import Recurrence.

Lemma foldl_seqZ_invariant {St : Type} (f : St -> Z -> St) (I : Z -> St -> Prop) (n : Z) :
  (forall i s, 0 <= i < n -> I i s -> I (i + 1) (f s i)) ->
  forall s, 0 <= n -> I 0 s -> I n (foldl f s (seqZ 0 n)).
Proof.
  intros Hstep s Hn H0.
  assert (G : forall (k : nat) m s, 0 <= m -> m + Z.of_nat k <= n -> I m s ->
              I (m + Z.of_nat k) (foldl f s (seqZ m (Z.of_nat k)))).
  { induction k as [|k IH]; intros m s' Hm Hk Hs.
    - simpl. by rewrite Z.add_0_r.
    - rewrite seqZ_cons by lia. simpl.
      replace (Z.pred (Z.of_nat (S k))) with (Z.of_nat k) by lia.
      replace (m + Z.of_nat (S k)) with (Z.succ m + Z.of_nat k) by lia.
      apply IH; [lia | lia |].
      replace (Z.succ m) with (m + 1) by lia. apply Hstep; [lia | done]. }
  specialize (G (Z.to_nat n) 0 s).
  rewrite Z2Nat.id in G by done. apply G; [lia | lia | done].
Qed.

Lemma in_bounds_spec w h c :
  in_bounds w h c = true <-> 0 <= c.1 < h /\ 0 <= c.2 < w.
Proof.
  unfold in_bounds. split.
  - intros H. cmp_cases; simpl in *; try discriminate; lia.
  - intros H. cmp_cases; simpl; try lia; reflexivity.
Qed.

Lemma live_targets_src w h p c k :
  (c, k) ∈ live_targets w h p <->
  in_bounds w h c = true /\ k ∈ weights /\ src c k = p.
Proof.
  unfold live_targets. rewrite list_elem_of_In, filter_In, <- list_elem_of_In.
  unfold kernel_targets, weights, src. destruct c as [cy cx], p as [py px].
  cbn [fst snd]. set_unfold. split.
  - intros [[H | [H | [H | [H | []]]]] Hb]; simplify_eq; (split; [done|]); split;
      first [ by eauto 6 | simpl; f_equal; lia ].
  - intros (Hb & [-> | [-> | [-> | [-> | []]]]] & Hs); simpl in Hs; simplify_eq;
      (split; [|done]).
    + left. repeat f_equal; lia.
    + right; left. repeat f_equal; lia.
    + do 2 right; left. repeat f_equal; lia.
    + do 3 right; left. repeat f_equal; lia.
Qed.

Lemma before_self y0 x0 : before y0 x0 (y0, x0) = false.
Proof. unfold before. cbn [fst snd]. cmp_cases; simpl; try reflexivity; lia. Qed.

Lemma before_next y0 x0 q :
  before y0 (x0 + 1) q = before y0 x0 q || bool_decide (q = (y0, x0)).
Proof.
  unfold before. destruct q as [qy qx]. cbn [fst snd].
  case_bool_decide as E; [injection E as -> ->|];
    cmp_cases; simpl; try reflexivity; try lia.
  all: exfalso; apply E; f_equal; lia.
Qed.

Lemma before_next_row w h y0 q :
  in_bounds w h q = true -> before y0 w q = before (y0 + 1) 0 q.
Proof.
  rewrite in_bounds_spec. unfold before. destruct q as [qy qx]. cbn [fst snd].
  intros H. cmp_cases; simpl; try reflexivity; lia.
Qed.

Lemma target_after w h y0 x0 c k :
  (c, k) ∈ live_targets w h (y0, x0) -> before y0 (x0 + 1) c = false.
Proof.
  rewrite live_targets_src. intros (_ & Hk & Hs).
  unfold weights, src, before in *. destruct c as [cy cx]. cbn [fst snd] in *.
  set_unfold. destruct Hk as [-> | [-> | [-> | [-> | []]]]]; simpl in Hs; simplify_eq;
    cmp_cases; simpl; try reflexivity; lia.
Qed.

Lemma src_distinct c k k' : k ∈ weights -> k' ∈ weights -> src c k = src c k' -> k = k'.
Proof.
  unfold weights, src. destruct c as [cy cx]. cbn [fst snd]. set_unfold.
  intros [-> | [-> | [-> | [-> | []]]]] [-> | [-> | [-> | [-> | []]]]]; simpl;
    intros [=]; try reflexivity; lia.
Qed.

Section sweep_step.

Variables (w h y0 x0 : Z) (a : arrays).
Hypothesis Hp : in_bounds w h (y0, x0) = true.

Local Abbreviation err := (err_of (cell (work a) y0 x0)).
Local Abbreviation a' := (after_pixel w h y0 x0 a).

Lemma deposited_keeps_earlier q :
  before y0 (x0 + 1) q = true -> work a' !! q = work a !! q.
Proof.
  intros Hq. unfold after_pixel. apply (deposited_work_other w h); [done|].
  intros k Hk. apply target_after in Hk. congruence.
Qed.

Lemma term_after_pixel c k :
  term w h (fun c k => before y0 (x0 + 1) (src c k)) (fun q => cell (work a') q.1 q.2) c k =
  term w h (fun c k => before y0 x0 (src c k)) (fun q => cell (work a) q.1 q.2) c k +
  (if bool_decide (src c k = (y0, x0)) then floor_divide (int_mul err k) 16 else 0).
Proof.
  unfold term, dep_value. cbv beta. rewrite before_next.
  assert (Hcell : before y0 (x0 + 1) (src c k) = true ->
                  cell (work a') (src c k).1 (src c k).2 = cell (work a) (src c k).1 (src c k).2).
  { intros Hq. unfold cell. by rewrite <- surjective_pairing, deposited_keeps_earlier. }
  rewrite before_next in Hcell.
  case_bool_decide as E.
  - rewrite E in *. rewrite Hp, before_self. simpl. cbn [fst snd] in Hcell.
    rewrite Hcell by (by rewrite before_self).
    simpl. lia.
  - rewrite orb_false_r in *.
    destruct (in_bounds w h (src c k) && before y0 x0 (src c k)) eqn:Hb; [|lia].
    apply andb_prop in Hb as [_ Hb]. rewrite Hcell by done. lia.
Qed.

Lemma work_after_pixel c :
  in_bounds w h c = true ->
  work a !! c = Some (wrap_int (cell (work a) c.1 c.2)) ->
  work a' !! c =
    Some (wrap_int (cell (work a) c.1 c.2 +
      ((if bool_decide (src c 7 = (y0, x0)) then floor_divide (int_mul err 7) 16 else 0) +
       (if bool_decide (src c 3 = (y0, x0)) then floor_divide (int_mul err 3) 16 else 0) +
       (if bool_decide (src c 5 = (y0, x0)) then floor_divide (int_mul err 5) 16 else 0) +
       (if bool_decide (src c 1 = (y0, x0)) then floor_divide (int_mul err 1) 16 else 0)))).
Proof.
  intros Hc Hw.
  assert (Hin : forall k, k ∈ weights -> src c k = (y0, x0) ->
            work a' !! c = Some (int_add (cell (work a) c.1 c.2) (floor_divide (int_mul err k) 16))).
  { intros k Hk Hs. unfold after_pixel.
    apply (deposited_work_target w h); [done|]. by apply live_targets_src. }
  assert (Hne : forall k k', k ∈ weights -> k' ∈ weights -> k <> k' ->
            src c k = (y0, x0) -> bool_decide (src c k' = (y0, x0)) = false).
  { intros k k' Hk Hk' Hkk Hs. apply bool_decide_eq_false. intros Hs'.
    apply Hkk, (src_distinct c); congruence. }
  assert (H7 : 7 ∈ weights) by (unfold weights; rewrite !elem_of_cons; auto 10).
  assert (H3 : 3 ∈ weights) by (unfold weights; rewrite !elem_of_cons; auto 10).
  assert (H5 : 5 ∈ weights) by (unfold weights; rewrite !elem_of_cons; auto 10).
  assert (H1 : 1 ∈ weights) by (unfold weights; rewrite !elem_of_cons; auto 10).
  destruct (decide (src c 7 = (y0, x0))) as [E7 | E7].
  { rewrite (Hin 7 H7 E7), (bool_decide_eq_true_2 _ E7).
    rewrite (Hne 7 3), (Hne 7 5), (Hne 7 1) by (done || lia).
    unfold int_add. apply f_equal, f_equal. lia. }
  destruct (decide (src c 3 = (y0, x0))) as [E3 | E3].
  { rewrite (Hin 3 H3 E3), (bool_decide_eq_true_2 _ E3).
    rewrite (Hne 3 7), (Hne 3 5), (Hne 3 1) by (done || lia).
    unfold int_add. apply f_equal, f_equal. lia. }
  destruct (decide (src c 5 = (y0, x0))) as [E5 | E5].
  { rewrite (Hin 5 H5 E5), (bool_decide_eq_true_2 _ E5).
    rewrite (Hne 5 7), (Hne 5 3), (Hne 5 1) by (done || lia).
    unfold int_add. apply f_equal, f_equal. lia. }
  destruct (decide (src c 1 = (y0, x0))) as [E1 | E1].
  { rewrite (Hin 1 H1 E1), (bool_decide_eq_true_2 _ E1).
    rewrite (Hne 1 7), (Hne 1 3), (Hne 1 5) by (done || lia).
    unfold int_add. apply f_equal, f_equal. lia. }
  rewrite !bool_decide_eq_false_2 by done. unfold after_pixel.
  rewrite (deposited_work_other w h) by
    (done || (intros k [_ [Hk Hs]]%live_targets_src; unfold weights in Hk; set_unfold;
              destruct Hk as [-> | [-> | [-> | [-> | []]]]]; done)).
  rewrite Hw. apply f_equal, f_equal. lia.
Qed.

End sweep_step.

Lemma wrap_int_idem z : wrap_int (wrap_int z) = wrap_int z.
Proof. apply wrap_int_id, wrap_int_range. Qed.

Lemma cell_lookup (m : gmap coord Z) (c : coord) (v : Z) :
  m !! c = Some v -> cell m c.1 c.2 = v.
Proof. intros H. unfold cell. destruct c. cbn [fst snd]. by rewrite H. Qed.

Lemma term_ext w h dn dn' acc c k :
  (in_bounds w h (src c k) = true -> dn c k = dn' c k) ->
  term w h dn acc c k = term w h dn' acc c k.
Proof.
  intros H. unfold term. destruct (in_bounds w h (src c k)); [|done].
  by rewrite H.
Qed.

Lemma received_ext w h dn dn' acc c :
  (forall k, k ∈ weights -> in_bounds w h (src c k) = true -> dn c k = dn' c k) ->
  received w h dn acc c = received w h dn' acc c.
Proof.
  intros H. unfold received.
  by rewrite (term_ext w h dn dn' acc c 7), (term_ext w h dn dn' acc c 3),
    (term_ext w h dn dn' acc c 5), (term_ext w h dn dn' acc c 1)
    by (apply H; unfold weights; rewrite !elem_of_cons; auto 10).
Qed.

Lemma sweep_inv_ext inp w h y0 x0 y1 x1 a :
  (forall q, in_bounds w h q = true -> before y0 x0 q = before y1 x1 q) ->
  sweep_inv inp w h y0 x0 a -> sweep_inv inp w h y1 x1 a.
Proof.
  intros Hq [Hw Ho]. split.
  - intros c Hc. rewrite (Hw c Hc). do 3 f_equal.
    apply received_ext. intros k _ Hk. by apply Hq.
  - intros q Hb Hbe. apply Ho; [done|]. by rewrite Hq.
Qed.

Lemma sweep_pixel inp w h y0 x0 a :
  in_bounds w h (y0, x0) = true ->
  sweep_inv inp w h y0 x0 a ->
  sweep_inv inp w h y0 (x0 + 1) (pixel_st w h y0 x0 a).
Proof.
  intros Hp [Hw Ho]. unfold pixel_st. fold (err_of (cell (work a) y0 x0)).
  rewrite to_uchar_new_pixel, propagate_st_deposited by done.
  set (a1 := Arrays (input a) (work a) _).
  change (deposited _ _ a1) with (after_pixel w h y0 x0 a1).
  split.
  - intros c Hc.
    rewrite (work_after_pixel w h y0 x0 a1 Hp c Hc).
    + unfold received. rewrite !term_after_pixel by done.
      change (work a1) with (work a).
      rewrite (cell_lookup _ _ _ (Hw c Hc)) at 1.
      rewrite wrap_int_add_l. apply f_equal, f_equal. unfold received. lia.
    + change (work a1) with (work a). rewrite (Hw c Hc) at 1. f_equal.
      rewrite (cell_lookup _ _ _ (Hw c Hc)).
      by rewrite wrap_int_idem.
  - intros q Hq Hbe.
    assert (Hwq : cell (work (after_pixel w h y0 x0 a1)) q.1 q.2 = cell (work a) q.1 q.2).
    { unfold cell. destruct q as [qy qx]. cbn [fst snd]. f_equal.
      exact (deposited_keeps_earlier w h y0 x0 a1 Hp (qy, qx) Hbe). }
    rewrite Hwq. unfold after_pixel. rewrite deposited_output. simpl. unfold set_cell.
    rewrite before_next in Hbe. apply orb_prop in Hbe as [Hbe | Hbe].
    + rewrite lookup_insert_ne; [by apply Ho|].
      intros <-. by rewrite before_self in Hbe.
    + apply bool_decide_eq_true in Hbe as ->. by rewrite lookup_insert_eq.
Qed.

Lemma sweep_row inp w h y0 a :
  0 <= y0 < h -> 0 <= w ->
  sweep_inv inp w h y0 0 a -> sweep_inv inp w h (y0 + 1) 0 (row_st w h y0 a).
Proof.
  intros Hy Hw Hinv.
  apply (sweep_inv_ext inp w h y0 w); [intros q Hq; by apply (before_next_row w h)|].
  unfold row_st.
  apply (foldl_seqZ_invariant _ (fun x a => sweep_inv inp w h y0 x a)); [|done|done].
  intros x s Hx Hs. apply sweep_pixel; [|done].
  apply in_bounds_spec. simpl. lia.
Qed.

Lemma sweep_start inp out w h :
  byte_grid w h inp -> sweep_inv inp w h 0 0 (copy_input w h (Arrays inp ∅ out)).
Proof.
  intros Hbytes.
  assert (Hnone : forall q, in_bounds w h q = true -> before 0 0 q = false).
  { intros q [Hq Hq']%in_bounds_spec. unfold before. cmp_cases; simpl; try reflexivity; lia. }
  split.
  - intros [y x] Hc. rewrite copy_input_seeded by done. simpl. f_equal.
    assert (received w h (fun c k => before 0 0 (src c k))
              (fun q => cell (work (copy_input w h (Arrays inp ∅ out))) q.1 q.2) (y, x) = 0) as ->.
    { unfold received, term.
      repeat match goal with
      | |- context [in_bounds w h ?q && before 0 0 ?q] =>
          let E := fresh in
          destruct (in_bounds w h q) eqn:E; [rewrite (Hnone q E)|]; cbn [andb]
      end; reflexivity. }
    rewrite Z.add_0_r. symmetry. apply wrap_int_id.
    specialize (Hbytes (y, x) Hc). simpl in Hbytes. unfold in_int, INT_MIN, INT_MAX. lia.
  - intros q Hq Hbe. by rewrite Hnone in Hbe.
Qed.

Lemma sweep_image inp out w h :
  0 <= w -> 0 <= h -> byte_grid w h inp ->
  sweep_inv inp w h h 0 (dither_image_st inp out w h).
Proof.
  intros Hw Hh Hbytes. unfold dither_image_st.
  apply (foldl_seqZ_invariant _ (fun y a => sweep_inv inp w h y 0 a)); [|done|].
  - intros y s Hy Hs. by apply sweep_row.
  - by apply sweep_start.
Qed.

Lemma serial_recurrence inp out w h c :
  byte_grid w h inp -> in_bounds w h c = true ->
  let acc := fun q => cell (work (dither_image_st inp out w h)) q.1 q.2 in
  acc c = wrap_int (cell inp c.1 c.2 + received w h (fun _ _ => true) acc c) /\
  output (dither_image_st inp out w h) !! c = Some (new_pixel_of (acc c)).
Proof.
  intros Hbytes Hc acc.
  assert (0 <= w /\ 0 <= h) as [Hw Hh] by (apply in_bounds_spec in Hc; lia).
  destruct (sweep_image inp out w h Hw Hh Hbytes) as [Hwork Hout].
  assert (Hall : forall q, in_bounds w h q = true -> before h 0 q = true).
  { intros q [Hq _]%in_bounds_spec. unfold before. cmp_cases; simpl; try reflexivity; lia. }
  split.
  - unfold acc at 1. rewrite (cell_lookup _ _ _ (Hwork c Hc)).
    apply f_equal, f_equal. apply received_ext. intros k _ Hk. by apply Hall.
  - apply Hout; [done | by apply Hall].
Qed.

(** ** The wait protocol on grids at least two pixels wide *)

Import Protocol.

Lemma walk_app w h l1 l2 x :
  walk w h x (l1 ++ l2) = walk w h x l1 ≫= fun x' => walk w h x' l2.
Proof.
  revert x. induction l1 as [|a l1 IH]; intros x; simpl; [done|].
  destruct a; try apply IH.
  - case_match; [apply IH | done].
  - case_match; [apply IH | done].
  - destruct (todo x); [done|]. case_match; [apply IH | done].
  - case_match; [apply IH | done].
Qed.

Lemma walk_concat w h (ls : list (list action)) :
  Forall (fun l => forall x, is_Some (walk w h x l)) ls ->
  forall x, is_Some (walk w h x (concat ls)).
Proof.
  induction 1 as [|l ls Hl _ IH]; intros x; simpl; [done|].
  rewrite walk_app. destruct (Hl x) as [x' ->]. simpl. apply IH.
Qed.

Lemma walk_deposits w h td x :
  todo x = td ->
  walk w h x (concat (map (fun tk : coord * Z => [ALock tk.1; ADeposit tk.1 tk.2; AUnlock tk.1]) td))
    = Some (Ctx (waited x) (curp x) []).
Proof.
  revert x. induction td as [|[c k] td IH]; intros [wl cp t] Ht; simpl in *; subst.
  - done.
  - rewrite bool_decide_eq_true_2 by done. by apply IH.
Qed.

Lemma walk_pixel_tail w h y x0 x :
  in_bounds w h (y, x0) = true ->
  (forall c, c ∈ wait_targets (y, x0) -> in_bounds w h c = true -> c ∈ waited x) ->
  walk w h x ([ARead (y, x0); AWriteOut (y, x0)] ++ propagate_mt w h y x0 ++
              signal_completion (y, x0)) = Some ctx0.
Proof.
  intros Hp Hwait. cbn [app walk]. rewrite Hp. cbn [andb].
  assert (forallb (fun c => negb (in_bounds w h c) || bool_decide (c ∈ waited x))
            (wait_targets (y, x0)) = true) as ->.
  { apply forallb_forall. intros c Hc%list_elem_of_In.
    destruct (in_bounds w h c) eqn:Hb; [|done]. simpl.
    apply bool_decide_eq_true. by apply Hwait. }
  cbn [curp]. rewrite bool_decide_eq_true_2 by done.
  rewrite walk_app, propagate_mt_implement by done. cbn [implement].
  rewrite (walk_deposits w h (live_targets w h (y, x0))) by done.
  cbn. rewrite !bool_decide_eq_true_2 by done. done.
Qed.

Lemma walk_pixel w h y x0 x :
  in_bounds w h (y, x0) = true -> walk w h x (pixel_mt w h y x0) = Some ctx0.
Proof.
  intros Hp. unfold pixel_mt.
  assert (H1 : in_bounds w h (y - 1, x0 + 1) = (y >? 0) && (x0 + 1 <? w)).
  { apply in_bounds_spec in Hp. unfold in_bounds. cbn [fst snd] in *.
    cmp_cases; simpl; try reflexivity; lia. }
  assert (H2 : in_bounds w h (y, x0 - 1) = (x0 >? 0)).
  { apply in_bounds_spec in Hp. unfold in_bounds. cbn [fst snd] in *.
    cmp_cases; simpl; try reflexivity; lia. }
  rewrite <- H1, <- H2. unfold wait_for.
  destruct (in_bounds w h (y - 1, x0 + 1)) eqn:E1;
    destruct (in_bounds w h (y, x0 - 1)) eqn:E2; cbn [app walk];
    apply walk_pixel_tail; try done; unfold wait_targets; cbn [fst snd waited];
    intros c Hc Hb; set_unfold; destruct Hc as [-> | [-> | []]]; try congruence; auto.
Qed.

Lemma walk_process_wavefront w h n i x :
  is_Some (walk w h x (process_wavefront w h n i)).
Proof.
  unfold process_wavefront. revert x.
  apply walk_concat, Forall_map, Forall_forall. intros diag _. simpl.
  case_match; [by eexists|]. unfold diagonal_mt.
  apply walk_concat, Forall_map, Forall_forall. intros y Hy%elem_of_seqZ. simpl.
  destruct ((diag - y >=? 0) && (diag - y <? w)) eqn:E; [|by eexists].
  intros x. rewrite walk_pixel; [by eexists|].
  apply in_bounds_spec. cbn [fst snd]. cmp_cases; simpl in *; try discriminate; lia.
Qed.

Lemma init_processed_zero w h c : cell (init_processed w h) c.1 c.2 = 0.
Proof.
  unfold init_processed.
  apply (foldl_preserved _ (fun p : gmap coord Z => cell p c.1 c.2 = 0)); [|done].
  intros p y _ Hp.
  apply (foldl_preserved _ (fun p : gmap coord Z => cell p c.1 c.2 = 0)); [|done].
  intros p' x _ Hp'. unfold cell, set_cell in *.
  destruct (decide ((y, x) = (c.1, c.2))) as [-> | Hne].
  - by rewrite lookup_insert_eq.
  - by rewrite lookup_insert_ne.
Qed.

(** *** Every deposit is made once *)

Lemma occurrences_app a l1 l2 :
  occurrences a (l1 ++ l2) = (occurrences a l1 + occurrences a l2)%nat.
Proof. unfold occurrences. by rewrite List.filter_app, length_app. Qed.

Lemma occurrences_cons a b l :
  occurrences a (b :: l) = ((if bool_decide (b = a) then 1 else 0) + occurrences a l)%nat.
Proof. unfold occurrences. simpl. by destruct (bool_decide (b = a)). Qed.

Lemma occurrences_zero a l : a ∉ l -> occurrences a l = 0%nat.
Proof.
  induction l as [|b l IH]; intros H; [done|].
  rewrite occurrences_cons, IH by (intros ?; apply H; by right).
  rewrite bool_decide_eq_false_2; [done|]. intros ->. apply H. by left.
Qed.

Lemma occurrences_elem a l : (0 < occurrences a l)%nat -> a ∈ l.
Proof.
  intros H. destruct (decide (a ∈ l)) as [|Hn]; [done|].
  rewrite occurrences_zero in H by done. lia.
Qed.

Lemma occurrences_concat_zero {A : Type} a (F : A -> list action) (zs : list A) :
  (forall z, z ∈ zs -> occurrences a (F z) = 0%nat) ->
  occurrences a (concat (map F zs)) = 0%nat.
Proof.
  induction zs as [|z zs IH]; intros H; simpl; [done|].
  rewrite occurrences_app, (H z), IH; [done | | by left].
  intros z' Hz'. apply H. by right.
Qed.

Lemma occurrences_concat_once {A : Type} `{EqDecision A}
    a (F : A -> list action) (zs : list A) (z0 : A) :
  NoDup zs ->
  (forall z, z ∈ zs -> z <> z0 -> occurrences a (F z) = 0%nat) ->
  (z0 ∈ zs -> (occurrences a (F z0) <= 1)%nat) ->
  (occurrences a (concat (map F zs)) <= 1)%nat.
Proof.
  intros Hnd. induction Hnd as [|z zs Hz Hnd IH]; intros H0 H1; simpl;
    [unfold occurrences; simpl; lia|].
  rewrite occurrences_app.
  destruct (decide (z = z0)) as [-> | Hne].
  - rewrite occurrences_concat_zero.
    + specialize (H1 ltac:(by left)). lia.
    + intros z Hin. apply H0; [by right|]. intros ->. done.
  - rewrite (H0 z) by (done || by left). simpl. apply IH.
    + intros z' Hz'. apply H0. by right.
    + intros Hin. apply H1. by right.
Qed.

Lemma occurrences_deposits c k (td : list (coord * Z)) :
  occurrences (ADeposit c k)
    (concat (map (fun tk : coord * Z => [ALock tk.1; ADeposit tk.1 tk.2; AUnlock tk.1]) td))
  = length (List.filter (fun tk => bool_decide (tk = (c, k))) td).
Proof.
  induction td as [|[c' k'] td IH]; [done|].
  cbn [map concat app fst snd List.filter]. rewrite !occurrences_cons, IH.
  rewrite (bool_decide_eq_false_2 (ALock _ = _)), (bool_decide_eq_false_2 (AUnlock _ = _))
    by done.
  destruct (decide ((c', k') = (c, k))) as [[= -> ->] | Hne].
  - by rewrite !bool_decide_eq_true_2.
  - rewrite !bool_decide_eq_false_2; [done | done | congruence].
Qed.

Lemma live_targets_once w h p c k :
  (length (List.filter (fun tk => bool_decide (tk = (c, k))) (live_targets w h p)) <= 1)%nat.
Proof.
  unfold live_targets, kernel_targets. destruct p as [y x]. cbn [fst snd List.filter].
  repeat (case_match; cbn [List.filter length]); repeat case_bool_decide; simplify_eq;
    simpl; lia.
Qed.

Lemma occurrences_pixel w h y x c k :
  in_bounds w h (y, x) = true ->
  (occurrences (ADeposit c k) (pixel_mt w h y x) <= 1)%nat /\
  ((y, x) <> src c k -> occurrences (ADeposit c k) (pixel_mt w h y x) = 0%nat).
Proof.
  intros Hp.
  assert (E : occurrences (ADeposit c k) (pixel_mt w h y x) =
              length (List.filter (fun tk => bool_decide (tk = (c, k)))
                                  (live_targets w h (y, x)))).
  { unfold pixel_mt. rewrite propagate_mt_implement by done. cbn [implement].
    rewrite !occurrences_app, occurrences_deposits.
    rewrite (occurrences_zero _ (if _ : bool then _ else _)),
            (occurrences_zero _ (if _ : bool then _ else _)),
            (occurrences_zero _ [_; _]), (occurrences_zero _ (signal_completion _)); [lia|..].
    - unfold signal_completion. rewrite !elem_of_cons, elem_of_nil. intuition discriminate.
    - rewrite !elem_of_cons, elem_of_nil. intuition discriminate.
    - case_match; unfold wait_for; rewrite ?elem_of_cons, elem_of_nil; intuition discriminate.
    - case_match; unfold wait_for; rewrite ?elem_of_cons, elem_of_nil; intuition discriminate. }
  rewrite E. split; [apply live_targets_once|].
  intros Hne.
  destruct (length _) eqn:El; [done|]. exfalso. apply Hne.
  assert (Hin : (c, k) ∈ live_targets w h (y, x)).
  { apply list_elem_of_In.
    destruct (List.filter _ _) as [|tk l] eqn:Ef; [done|].
    assert (Htk : In tk (List.filter (fun tk => bool_decide (tk = (c, k)))
                           (live_targets w h (y, x)))) by (rewrite Ef; by left).
    apply filter_In in Htk as [Hin Heq]. apply bool_decide_eq_true in Heq. by subst. }
  apply live_targets_src in Hin as (_ & _ & Hs). done.
Qed.

Lemma occurrences_diagonal w h diag c k :
  (occurrences (ADeposit c k) (diagonal_mt w h diag) <= 1)%nat /\
  (diag <> (src c k).1 + (src c k).2 ->
   occurrences (ADeposit c k) (diagonal_mt w h diag) = 0%nat).
Proof.
  unfold diagonal_mt.
  assert (Hpix : forall y, y ∈ seqZ 0 h ->
    let l := if (diag - y >=? 0) && (diag - y <? w) then pixel_mt w h y (diag - y) else [] in
    (occurrences (ADeposit c k) l <= 1)%nat /\
    ((y, diag - y) <> src c k -> occurrences (ADeposit c k) l = 0%nat)).
  { intros y Hy%elem_of_seqZ. cbn zeta.
    destruct ((diag - y >=? 0) && (diag - y <? w)) eqn:E.
    - apply occurrences_pixel, in_bounds_spec. cbn [fst snd].
      cmp_cases; simpl in *; try discriminate; lia.
    - unfold occurrences. simpl. split; [lia | done]. }
  split.
  - apply (occurrences_concat_once _ _ _ (src c k).1); [apply NoDup_seqZ | |].
    + intros y Hy Hne. apply (Hpix y Hy). intros E. apply Hne. by rewrite <- E.
    + intros Hin. apply (Hpix _ Hin).
  - intros Hne. apply occurrences_concat_zero. intros y Hy.
    apply (Hpix y Hy). intros E. apply Hne. rewrite <- E. simpl. lia.
Qed.

Lemma occurrences_worker w h n i c k :
  (occurrences (ADeposit c k) (process_wavefront w h n i) <= 1)%nat /\
  (i <> Z.rem ((src c k).1 + (src c k).2) n ->
   occurrences (ADeposit c k) (process_wavefront w h n i) = 0%nat).
Proof.
  unfold process_wavefront.
  set (d0 := (src c k).1 + (src c k).2).
  assert (Hd : forall diag,
    let l := if negb (Z.rem diag n =? i) then [] else diagonal_mt w h diag in
    (occurrences (ADeposit c k) l <= 1)%nat /\
    (diag <> d0 \/ i <> Z.rem d0 n -> occurrences (ADeposit c k) l = 0%nat)).
  { intros diag. cbn zeta. destruct (Z.eqb_spec (Z.rem diag n) i) as [E | E]; simpl.
    - destruct (occurrences_diagonal w h diag c k) as [H1 H0]. split; [done|].
      intros [Hne | Hne]; [by apply H0|]. apply H0. intros ->. by apply Hne.
    - unfold occurrences. simpl. split; [lia | done]. }
  split.
  - apply (occurrences_concat_once _ _ _ d0); [apply NoDup_seqZ | |].
    + intros diag _ Hne. apply (Hd diag). by left.
    + intros _. apply (Hd d0).
  - intros Hne. apply occurrences_concat_zero. intros diag _.
    apply (Hd diag). by right.
Qed.

Lemma deposits_left_initial inp out w h n c k :
  (deposits_left c k (threads (dither_image_mt inp out w h n)) <= 1)%nat.
Proof.
  unfold deposits_left. simpl. rewrite map_map. simpl.
  apply (occurrences_concat_once _ _ _ (Z.rem ((src c k).1 + (src c k).2) n));
    [apply NoDup_seqZ | |].
  - intros i _ Hne. by apply occurrences_worker.
  - intros _. apply occurrences_worker.
Qed.

Lemma deposits_left_insert c k (ths : list thread) t th th' :
  ths !! t = Some th ->
  (deposits_left c k (<[t := th']> ths) + occurrences (ADeposit c k) (script th) =
   deposits_left c k ths + occurrences (ADeposit c k) (script th'))%nat.
Proof.
  unfold deposits_left. revert t.
  induction ths as [|th0 ths IH]; intros [|t] Ht; simpl in *; try done.
  - injection Ht as ->. rewrite !occurrences_app. lia.
  - rewrite !occurrences_app. specialize (IH t Ht). lia.
Qed.

(** *** The flags chain *)

Section chain.

Variables (inp out : gmap coord Z) (w h : Z) (s : state) (D : gset (coord * Z)).
Hypothesis Hinv : agree_inv inp out w h s D.

Lemma flag_made q c k :
  processed (pixel_processed s) q -> in_bounds w h q = true ->
  in_bounds w h c = true -> k ∈ weights -> src c k = q -> (c, k) ∈ D.
Proof.
  intros Hq Hbq Hbc Hk Hs.
  apply (proj1 (inv_flags _ _ _ _ _ _ Hinv q Hbq Hq)). by apply live_targets_src.
Qed.

Lemma flag_left y x :
  processed (pixel_processed s) (y, x) -> in_bounds w h (y, x) = true ->
  in_bounds w h (y, x - 1) = true -> processed (pixel_processed s) (y, x - 1).
Proof.
  intros Hq Hb Hb'.
  apply (proj2 (inv_flags _ _ _ _ _ _ Hinv (y, x) Hb Hq)); [|done].
  unfold wait_targets. cbn [fst snd]. rewrite !elem_of_cons. auto.
Qed.

Lemma flag_upright y x :
  processed (pixel_processed s) (y, x) -> in_bounds w h (y, x) = true ->
  in_bounds w h (y - 1, x + 1) = true -> processed (pixel_processed s) (y - 1, x + 1).
Proof.
  intros Hq Hb Hb'.
  apply (proj2 (inv_flags _ _ _ _ _ _ Hinv (y, x) Hb Hq)); [|done].
  unfold wait_targets. cbn [fst snd]. rewrite !elem_of_cons. auto.
Qed.

(* Having waited for (y-1, x+1) and (y, x-1), the worker has all four
   deposits into (y, x): the pixel above was waited for by one of the two. *)
Lemma sources_made y x k :
  2 <= w ->
  in_bounds w h (y, x) = true ->
  (forall c, c ∈ wait_targets (y, x) -> in_bounds w h c = true ->
             processed (pixel_processed s) c) ->
  k ∈ weights -> in_bounds w h (src (y, x) k) = true -> ((y, x), k) ∈ D.
Proof.
  intros Hw Hp Hwait Hk Hsrc.
  assert (Hleft : in_bounds w h (y, x - 1) = true -> processed (pixel_processed s) (y, x - 1)).
  { intros Hb. apply Hwait; [|done]. unfold wait_targets. cbn [fst snd].
    rewrite !elem_of_cons. auto. }
  assert (Hur : in_bounds w h (y - 1, x + 1) = true ->
                processed (pixel_processed s) (y - 1, x + 1)).
  { intros Hb. apply Hwait; [|done]. unfold wait_targets. cbn [fst snd].
    rewrite !elem_of_cons. auto. }
  assert (Hup : in_bounds w h (y - 1, x) = true -> processed (pixel_processed s) (y - 1, x)).
  { intros Hb. pose proof Hp as Hp'. apply in_bounds_spec in Hp'. cbn [fst snd] in Hp'.
    pose proof Hb as Hb'. apply in_bounds_spec in Hb'. cbn [fst snd] in Hb'.
    destruct (Z.lt_ge_cases (x + 1) w) as [Hlt | Hge].
    - assert (Hb1 : in_bounds w h (y - 1, x + 1) = true)
        by (apply in_bounds_spec; cbn [fst snd]; lia).
      assert (E : (y - 1, x) = (y - 1, x + 1 - 1)) by (f_equal; lia).
      rewrite E. apply flag_left; [by apply Hur | done | by rewrite <- E].
    - assert (Hb1 : in_bounds w h (y, x - 1) = true)
        by (apply in_bounds_spec; cbn [fst snd]; lia).
      assert (E : (y - 1, x) = (y - 1, x - 1 + 1)) by (f_equal; lia).
      rewrite E. apply flag_upright; [by apply Hleft | done | by rewrite <- E]. }
  unfold weights in Hk. rewrite !elem_of_cons, elem_of_nil in Hk.
  destruct Hk as [-> | [-> | [-> | [-> | []]]]]; unfold src in Hsrc; cbn in Hsrc.
  - apply (flag_made (y, x - 1)); try done; [by apply Hleft|].
    unfold weights. rewrite !elem_of_cons. auto.
  - apply (flag_made (y - 1, x + 1)); try done; [by apply Hur|].
    unfold weights. rewrite !elem_of_cons. auto.
  - apply (flag_made (y - 1, x)); try done; [by apply Hup|].
    unfold weights. rewrite !elem_of_cons. auto.
  - assert (Hb5 : in_bounds w h (y - 1, x) = true).
    { apply in_bounds_spec in Hp, Hsrc. apply in_bounds_spec. cbn [fst snd] in *. lia. }
    apply (flag_made (y - 1, x - 1)); try done.
    + apply flag_left; [by apply Hup | done | done].
    + unfold weights. rewrite !elem_of_cons. auto 10.
Qed.

End chain.

(** *** One step preserves the invariant *)

Section step_helpers.

Variables (inp out : gmap coord Z) (w h : Z).

Lemma realized_mono (flags flags' : gmap coord Z) (D D' : gset (coord * Z))
    (th th' : thread) (x : ctx) :
  (forall c, processed flags c -> processed flags' c) ->
  D ⊆ D' -> old_pixel th' = old_pixel th ->
  realized inp out w h flags D th x -> realized inp out w h flags' D' th' x.
Proof.
  intros Hf HD Ho [Hwt Hcur]. split; [by auto|].
  destruct (curp x) as [p|]; [|done].
  destruct Hcur as (Hb & Hacc & Hwait & done & Hlive & Hdone).
  split; [done|]. split; [congruence|]. split; [by auto|].
  exists done. split; [done|]. intros ck Hck. by apply HD, Hdone.
Qed.

Lemma threads_after (flags flags' : gmap coord Z) (D D' : gset (coord * Z))
    (ths : list thread) (t0 : nat) (th0 th' : thread) :
  (forall t th, ths !! t = Some th ->
     exists x, is_Some (walk w h x (script th)) /\ realized inp out w h flags D th x) ->
  ths !! t0 = Some th0 ->
  (forall c, processed flags c -> processed flags' c) ->
  D ⊆ D' ->
  (exists x, is_Some (walk w h x (script th')) /\ realized inp out w h flags' D' th' x) ->
  forall t th, <[t0 := th']> ths !! t = Some th ->
    exists x, is_Some (walk w h x (script th)) /\ realized inp out w h flags' D' th x.
Proof.
  intros Hall H0 Hf HD Hnew t th Ht.
  destruct (threads_insert_lookup _ _ _ _ _ _ H0 Ht) as [[-> ->] | [Hne Ht']]; [done|].
  destruct (Hall _ _ Ht') as (x & Hwalk & Hreal). exists x. split; [done|].
  by apply (realized_mono flags flags' D D' th th).
Qed.

Lemma output_after (o o' : gmap coord Z) (ths : list thread) t0 th0 th' a rest :
  (forall p, in_bounds w h p = true ->
     o !! p = Some (new_pixel_of (serial_acc inp out w h p)) \/
     exists t th, ths !! t = Some th /\ AWriteOut p ∈ script th) ->
  ths !! t0 = Some th0 -> script th0 = a :: rest ->
  (forall b, b ∈ rest -> b ∈ script th') ->
  o' = match a with
       | AWriteOut p => <[p := new_pixel_of (serial_acc inp out w h p)]> o
       | _ => o
       end ->
  forall p, in_bounds w h p = true ->
    o' !! p = Some (new_pixel_of (serial_acc inp out w h p)) \/
    exists t th, <[t0 := th']> ths !! t = Some th /\ AWriteOut p ∈ script th.
Proof.
  intros Hall H0 Hscr Hsub -> p Hp.
  destruct (decide (a = AWriteOut p)) as [-> | Ha].
  { left. apply lookup_insert_eq. }
  assert (Hkeep : match a with
                  | AWriteOut p' => <[p' := new_pixel_of (serial_acc inp out w h p')]> o
                  | _ => o
                  end !! p = o !! p).
  { destruct a; try done. apply lookup_insert_ne. congruence. }
  rewrite Hkeep.
  destruct (Hall p Hp) as [Ho | (t & th & Ht & Hin)]; [by left|]. right.
  destruct (decide (t = t0)) as [-> | Hne].
  - exists t0, th'. split.
    + apply list_lookup_insert_eq. by eapply lookup_lt_Some.
    + apply Hsub. rewrite H0 in Ht. injection Ht as <-. rewrite Hscr in Hin.
      apply elem_of_cons in Hin as [Hin | Hin]; [congruence | done].
  - exists t, th. split; [|done]. by rewrite list_lookup_insert_ne.
Qed.

Lemma once_same (D : gset (coord * Z)) (ths : list thread) t0 th0 th' a rest :
  (forall c k, (deposits_left c k ths + (if made D c k then 1 else 0) <= 1)%nat) ->
  ths !! t0 = Some th0 -> script th0 = a :: rest ->
  (forall c k, a <> ADeposit c k) ->
  (forall c k, occurrences (ADeposit c k) (script th') = occurrences (ADeposit c k) rest) ->
  forall c k, (deposits_left c k (<[t0 := th']> ths) + (if made D c k then 1 else 0) <= 1)%nat.
Proof.
  intros Hall H0 Hscr Ha Hocc c k.
  pose proof (deposits_left_insert c k ths t0 th0 th' H0) as E.
  rewrite Hscr, occurrences_cons, Hocc in E.
  rewrite bool_decide_eq_false_2 in E by apply Ha.
  specialize (Hall c k). lia.
Qed.

Lemma once_deposit (D : gset (coord * Z)) (ths : list thread) t0 th0 th' c0 k0 rest :
  (forall c k, (deposits_left c k ths + (if made D c k then 1 else 0) <= 1)%nat) ->
  ths !! t0 = Some th0 -> script th0 = ADeposit c0 k0 :: rest ->
  script th' = rest ->
  ((c0, k0) ∉ D) /\
  forall c k, (deposits_left c k (<[t0 := th']> ths) +
               (if made ({[(c0, k0)]} ∪ D) c k then 1 else 0) <= 1)%nat.
Proof.
  intros Hall H0 Hscr Hscr'.
  assert (Hnot : (c0, k0) ∉ D).
  { intros Hin. specialize (Hall c0 k0). unfold made in Hall.
    rewrite bool_decide_eq_true_2 in Hall by done.
    pose proof (deposits_left_insert c0 k0 ths t0 th0 th' H0) as E.
    rewrite Hscr, Hscr', occurrences_cons, bool_decide_eq_true_2 in E by done. lia. }
  split; [done|]. intros c k.
  pose proof (deposits_left_insert c k ths t0 th0 th' H0) as E.
  rewrite Hscr, Hscr', occurrences_cons in E.
  specialize (Hall c k). unfold made in *.
  destruct (decide ((c, k) = (c0, k0))) as [[= -> ->] | Hne].
  - rewrite bool_decide_eq_true_2 in E by done.
    rewrite (bool_decide_eq_true_2 (_ ∈ _ ∪ _))
      by (apply elem_of_union; left; by apply elem_of_singleton).
    rewrite bool_decide_eq_false_2 in Hall by done. lia.
  - rewrite bool_decide_eq_false_2 in E by congruence.
    destruct (decide ((c, k) ∈ D)) as [Hin | Hnin].
    + rewrite bool_decide_eq_true_2 in Hall by done.
      rewrite bool_decide_eq_true_2 by (apply elem_of_union; by right). lia.
    + rewrite bool_decide_eq_false_2 in Hall by done.
      rewrite bool_decide_eq_false_2
        by (rewrite elem_of_union, elem_of_singleton; tauto). lia.
Qed.

End step_helpers.

Lemma agree_inv_quiet inp out w h s D t0 th0 a rest a' flags' m' th' :
  agree_inv inp out w h s D ->
  threads s !! t0 = Some th0 -> script th0 = a :: rest ->
  (forall c k, a <> ADeposit c k) ->
  work a' = work (arrs s) ->
  output a' = match a with
              | AWriteOut p => <[p := new_pixel_of (serial_acc inp out w h p)]> (output (arrs s))
              | _ => output (arrs s)
              end ->
  (forall c, processed (pixel_processed s) c -> processed flags' c) ->
  (forall q, in_bounds w h q = true -> processed flags' q ->
     (forall ck, ck ∈ live_targets w h q -> ck ∈ D) /\
     (forall c, c ∈ wait_targets q -> in_bounds w h c = true -> processed flags' c)) ->
  (forall c k, occurrences (ADeposit c k) (script th') = occurrences (ADeposit c k) rest) ->
  (forall b, b ∈ rest -> b ∈ script th') ->
  (exists x, is_Some (walk w h x (script th')) /\ realized inp out w h flags' D th' x) ->
  agree_inv inp out w h (State a' flags' m' (<[t0 := th']> (threads s))) D.
Proof.
  intros Hinv Ht0 Hscr Ha Hwork Hout Hmono Hflags Hocc Hsub Hctx.
  constructor; simpl.
  - rewrite Hwork. apply Hinv.
  - apply Hinv.
  - eapply once_same; eauto. apply Hinv.
  - done.
  - eapply threads_after; eauto. apply Hinv.
  - eapply output_after; eauto. apply Hinv.
Qed.

Lemma made_union_other (D : gset (coord * Z)) (c : coord) (k : Z) (c' : coord) (k' : Z) :
  (c', k') <> (c, k) -> made ({[(c, k)]} ∪ D) c' k' = made D c' k'.
Proof.
  intros Hne. unfold made. apply bool_decide_ext.
  rewrite elem_of_union, elem_of_singleton. tauto.
Qed.

Lemma made_union_here (D : gset (coord * Z)) (c : coord) (k : Z) : made ({[(c, k)]} ∪ D) c k = true.
Proof.
  unfold made. apply bool_decide_eq_true, elem_of_union. left. by apply elem_of_singleton.
Qed.

Lemma received_add (w h : Z) (D : gset (coord * Z)) (acc : coord -> Z) (c : coord) (k : Z) :
  (c, k) ∉ D -> k ∈ weights -> in_bounds w h (src c k) = true ->
  received w h (made ({[(c, k)]} ∪ D)) acc c =
  received w h (made D) acc c + dep_value acc c k.
Proof.
  intros Hnot Hk Hb. unfold received, term.
  assert (Hold : made D c k = false) by (by apply bool_decide_eq_false).
  unfold weights in Hk. rewrite !elem_of_cons, elem_of_nil in Hk.
  destruct Hk as [-> | [-> | [-> | [-> | []]]]];
    rewrite made_union_here, Hold, Hb, !made_union_other by (intros [=]);
    cbn [andb]; lia.
Qed.

Lemma received_other (w h : Z) (D : gset (coord * Z)) (acc : coord -> Z)
    (c : coord) (k : Z) (c' : coord) :
  c' <> c ->
  received w h (made ({[(c, k)]} ∪ D)) acc c' = received w h (made D) acc c'.
Proof.
  intros Hne. apply received_ext. intros k' _ _. apply made_union_other. congruence.
Qed.

Lemma read_gets_serial_acc inp out w h s D y x :
  byte_grid w h inp -> 2 <= w ->
  agree_inv inp out w h s D ->
  in_bounds w h (y, x) = true ->
  (forall c, c ∈ wait_targets (y, x) -> in_bounds w h c = true ->
             processed (pixel_processed s) c) ->
  cell (work (arrs s)) y x = serial_acc inp out w h (y, x).
Proof.
  intros Hbytes Hw Hinv Hp Hwait.
  change (cell (work (arrs s)) y x) with (cell (work (arrs s)) (y, x).1 (y, x).2).
  rewrite (cell_lookup _ (y, x) _ (inv_work _ _ _ _ _ _ Hinv (y, x) Hp)).
  destruct (serial_recurrence inp out w h (y, x) Hbytes Hp) as [E _].
  unfold serial_acc at 2. rewrite E.
  apply f_equal, f_equal, received_ext. intros k Hk Hb. unfold made.
  apply bool_decide_eq_true. by apply (sources_made inp out w h s).
Qed.

Lemma occurrences_skip a b l : b <> a -> occurrences a (b :: l) = occurrences a l.
Proof. intros H. rewrite occurrences_cons. by rewrite bool_decide_eq_false_2. Qed.

Lemma agree_inv_step inp out w h s s' D :
  byte_grid w h inp -> 2 <= w ->
  agree_inv inp out w h s D -> step_rel s s' ->
  exists D', agree_inv inp out w h s' D'.
Proof.
  intros Hbytes Hw Hinv [t0 Hs].
  destruct (step_inv _ _ _ Hs) as (th0 & a & rest & Ht0 & Hscr & He).
  destruct (inv_threads _ _ _ _ _ _ Hinv t0 th0 Ht0) as (x & [x1 Hwalk] & Hreal).
  rewrite Hscr in Hwalk.
  pose proof (inv_flags _ _ _ _ _ _ Hinv) as Hflags.
  assert (Hsame : realized inp out w h (pixel_processed s) D (Thread rest (old_pixel th0)) x)
    by (by eapply realized_mono).
  destruct a as [c | c | c | [y x0] | [y x0] | c k | [y x0] | c]; simpl in He.
  - (* ALock *)
    destruct (pixel_mutexes s !! c); [done|]. injection He as <-. exists D.
    apply (agree_inv_quiet _ _ _ _ s D t0 th0 (ALock c) rest); try done.
    exists x. split; [by eexists | done].
  - (* AAwait *)
    destruct (cell (pixel_processed s) c.1 c.2 =? 0) eqn:E; injection He as <-; exists D.
    + apply (agree_inv_quiet _ _ _ _ s D t0 th0 (AAwait c) rest); try done.
      * intros b Hb. simpl. by do 2 right.
      * exists x. split; [by eexists|]. by eapply realized_mono.
    + apply (agree_inv_quiet _ _ _ _ s D t0 th0 (AAwait c) rest); try done.
      exists (Ctx (c :: waited x) (curp x) (todo x)). split; [by eexists|].
      destruct Hsame as [Hwt Hcur]. split; [|done].
      intros c' [-> | Hc']%elem_of_cons; [|by auto].
      unfold processed. by apply Z.eqb_neq.
  - (* AUnlock *)
    injection He as <-. exists D.
    apply (agree_inv_quiet _ _ _ _ s D t0 th0 (AUnlock c) rest); try done.
    exists x. split; [by eexists | done].
  - (* ARead *)
    injection He as <-. exists D. cbn [walk] in Hwalk.
    destruct (in_bounds w h (y, x0)) eqn:Hp; [|done]. cbn [andb] in Hwalk.
    destruct (forallb _ _) eqn:Hall in Hwalk; [|done].
    assert (Hwait : forall c, c ∈ wait_targets (y, x0) -> in_bounds w h c = true ->
                              processed (pixel_processed s) c).
    { intros c Hc Hb. rewrite forallb_forall in Hall.
      specialize (Hall c (proj1 (list_elem_of_In _ _) Hc)). rewrite Hb in Hall.
      apply bool_decide_eq_true in Hall. by apply Hreal. }
    apply (agree_inv_quiet _ _ _ _ s D t0 th0 (ARead (y, x0)) rest); try done.
    exists (Ctx (waited x) (Some (y, x0)) (live_targets w h (y, x0))).
    split; [by eexists|]. split; [apply Hreal|]. simpl.
    split; [done|]. split; [by eapply read_gets_serial_acc|]. split; [done|].
    exists []. split; [done|]. intros ck Hck. by apply elem_of_nil in Hck.
  - (* AWriteOut *)
    injection He as <-. exists D. simpl in Hwalk.
    case_bool_decide as Hcur; [|done].
    pose proof Hreal as [Hwt Hcur']. rewrite Hcur in Hcur'.
    destruct Hcur' as (Hp & Hacc & Hrest).
    apply (agree_inv_quiet _ _ _ _ s D t0 th0 (AWriteOut (y, x0)) rest); try done.
    + simpl. by rewrite to_uchar_new_pixel, Hacc.
    + exists x. split; [by eexists | done].
  - (* ADeposit *)
    injection He as <-. simpl in Hwalk.
    destruct (todo x) as [|ck td] eqn:Htodo; [done|].
    case_bool_decide as Hck; [subst ck | done].
    destruct Hreal as [Hwt Hcur].
    destruct (curp x) as [p|] eqn:Hp; [|by rewrite Htodo in Hcur].
    destruct Hcur as (Hbp & Hacc & Hwait & done & Hlive & Hdone).
    assert (Hin : (c, k) ∈ live_targets w h p).
    { rewrite Hlive, Htodo. apply elem_of_app. right. by left. }
    apply live_targets_src in Hin as (Hbc & Hk & Hsrc).
    destruct (once_deposit D (threads s) t0 th0 (Thread rest (old_pixel th0)) c k rest
                (inv_once _ _ _ _ _ _ Hinv) Ht0 Hscr eq_refl) as [Hnot Honce].
    exists ({[(c, k)]} ∪ D). constructor; simpl.
    + intros c' Hc'. destruct c as [cy cx]. cbn [fst snd].
      destruct (decide (c' = (cy, cx))) as [-> | Hne].
      * rewrite received_add by (done || congruence).
        pose proof (cell_lookup _ (cy, cx) _ (inv_work _ _ _ _ _ _ Hinv (cy, cx) Hbc)) as Ec.
        cbn [fst snd] in Ec. unfold deposit. cbn [work]. unfold set_cell.
        rewrite lookup_insert_eq, Ec. unfold int_add. rewrite wrap_int_add_l. apply f_equal, f_equal.
        unfold dep_value. rewrite Hsrc, Hacc. cbn [fst snd]. lia.
      * unfold deposit. cbn [work]. unfold set_cell.
        rewrite lookup_insert_ne by done. rewrite received_other by done.
        by apply Hinv.
    + intros c' k' [Heq%elem_of_singleton | Hin]%elem_of_union.
      * injection Heq as -> ->. by rewrite Hsrc.
      * by apply Hinv.
    + done.
    + intros q Hq Hproc. destruct (Hflags q Hq Hproc) as [H1 H2]. split; [|done].
      intros ck Hck. apply elem_of_union. right. by apply H1.
    + apply (threads_after inp out w h (pixel_processed s) (pixel_processed s) D _
               (threads s) t0 th0); try done.
      * apply Hinv.
      * apply union_subseteq_r.
      * exists (Ctx (waited x) (Some p) td). split; [by eexists|].
        split; [done|]. simpl.
        split; [done|]. split; [done|]. split; [done|].
        exists (done ++ [(c, k)]). split.
        -- by rewrite <- app_assoc, Hlive, Htodo.
        -- intros ck [Hck | Hck%list_elem_of_singleton]%elem_of_app.
           ++ apply elem_of_union. right. by apply Hdone.
           ++ subst ck. apply elem_of_union. left. by apply elem_of_singleton.
    + apply (output_after inp out w h (output (arrs s)) _ (threads s) t0 th0 _
               (ADeposit c k) rest); try done.
      apply Hinv.
  - (* AMark *)
    injection He as <-. exists D. simpl in Hwalk.
    destruct (bool_decide (curp x = Some (y, x0)) && bool_decide (todo x = [])) eqn:E; [|done].
    apply andb_prop in E as [Hcur%bool_decide_eq_true Htodo%bool_decide_eq_true].
    destruct Hreal as [Hwt Hcur']. rewrite Hcur in Hcur'.
    destruct Hcur' as (Hp & Hacc & Hwait & done & Hlive & Hdone).
    rewrite Htodo, app_nil_r in Hlive.
    assert (Hmono : forall c, processed (pixel_processed s) c ->
                    processed (set_cell (pixel_processed s) y x0 1) c).
    { intros [cy cx] Hc. unfold processed, cell, set_cell in *. cbn [fst snd] in *.
      destruct (decide ((cy, cx) = (y, x0))) as [[= -> ->] | Hne].
      - by rewrite lookup_insert_eq.
      - by rewrite lookup_insert_ne. }
    apply (agree_inv_quiet _ _ _ _ s D t0 th0 (AMark (y, x0)) rest); try done.
    + intros q Hq Hproc. destruct (decide (q = (y, x0))) as [-> | Hne].
      * split; [intros ck Hck; apply Hdone; by rewrite <- Hlive | by auto].
      * assert (Hproc' : processed (pixel_processed s) q).
        { destruct q as [qy qx]. unfold processed, cell, set_cell in *. cbn [fst snd] in *.
          by rewrite lookup_insert_ne in Hproc. }
        destruct (Hflags q Hq Hproc') as [H1 H2]. split; [done | by auto].
    + exists ctx0. split; [by eexists|]. split; [|done].
      intros c Hc. by apply elem_of_nil in Hc.
  - (* ABroadcast *)
    injection He as <-. exists D.
    apply (agree_inv_quiet _ _ _ _ s D t0 th0 (ABroadcast c) rest); try done.
    exists x. split; [by eexists | done].
Qed.

Lemma made_empty (c : coord) (k : Z) : made ∅ c k = false.
Proof. unfold made. apply bool_decide_eq_false, not_elem_of_empty. Qed.

Lemma agree_inv_initial inp out w h n :
  byte_grid w h inp -> 0 < n ->
  agree_inv inp out w h (dither_image_mt inp out w h n) ∅.
Proof.
  intros Hbytes Hn. constructor.
  - intros [y x] Hc. simpl. rewrite copy_input_seeded by done. simpl. f_equal.
    unfold received, term. rewrite !made_empty, !andb_false_r.
    rewrite !Z.add_0_r. symmetry. apply wrap_int_id. specialize (Hbytes (y, x) Hc). simpl in Hbytes.
    unfold in_int, INT_MIN, INT_MAX. lia.
  - intros c k Hin. by apply elem_of_empty in Hin.
  - intros c k. rewrite made_empty.
    pose proof (deposits_left_initial inp out w h n c k). lia.
  - intros q _ Hq. exfalso. apply Hq. simpl. apply init_processed_zero.
  - intros t th (i & _ & _ & ->)%initial_thread. exists ctx0. split.
    + apply walk_process_wavefront.
    + split; [|done]. intros c Hc. by apply elem_of_nil in Hc.
  - intros [y x] Hp. right.
    exists (Z.to_nat ((y + x) mod n)), (Thread (process_wavefront w h n ((y + x) mod n)) 0).
    split.
    + apply initial_thread_lookup. by apply Z.mod_pos_bound.
    + by apply process_wavefront_writes.
Qed.

(** X5.  On a grid at least two pixels wide the wait protocol is sufficient:
    for a grid of bytes, at least one worker, and any interleaving of the
    workers' steps, once all workers have finished every cell of the
    output grid holds what the serial engine writes there.  (The pixel
    above is not waited for directly; it was waited for by the upper-right
    or by the left neighbour, whichever exists.) *)
Theorem wavefront_agrees_on_wide_grids
    (inp out : gmap coord Z) (width height num_threads : Z) (s : state) (c : coord) :
  byte_grid width height inp ->
  2 <= width -> 0 < num_threads ->
  reachable (dither_image_mt inp out width height num_threads) s ->
  finished s ->
  in_bounds width height c = true ->
  output (arrs s) !! c = output (dither_image_st inp out width height) !! c.
Proof.
  intros Hbytes Hw Hn Hr Hfin Hc.
  assert (Hinv : exists D, agree_inv inp out width height s D).
  { clear Hfin. revert s Hr.
    apply (reachable_invariant (fun s => exists D, agree_inv inp out width height s D)).
    - exists ∅. by apply agree_inv_initial.
    - intros s s' [D HD] Hs. by apply (agree_inv_step inp out width height s s' D). }
  destruct Hinv as [D Hinv].
  destruct (serial_recurrence inp out width height c Hbytes Hc) as [_ ->].
  destruct (inv_output _ _ _ _ _ _ Hinv c Hc) as [Ho | (t & th & Ht & Hin)]; [done|].
  unfold finished in Hfin. rewrite Forall_forall in Hfin.
  rewrite (Hfin th) in Hin by (by eapply list_elem_of_lookup_2).
  by apply elem_of_nil in Hin.
Qed.

Lemma wavefront_agrees_on_wide_grids_instance :
  let inp : gmap coord Z :=
    <[(0, 0) := 0]> (<[(0, 1) := 255]> (<[(1, 0) := 255]> (<[(1, 1) := 0]> ∅))) in
  let sched := (replicate 15 0 ++ replicate 27 1 ++ replicate 9 0)%nat in
  let s0 := dither_image_mt inp ∅ 2 2 2 in
  let s := default s0 (run sched s0) in
  reachable s0 s /\ finished s /\
  output (arrs s) !! (1, 1) = output (dither_image_st inp ∅ 2 2) !! (1, 1) /\
  output (arrs s) !! (1, 1) = Some 0.
Proof.
  intros inp sched s0 s.
  assert (Hrun : run sched s0 = Some s) by (vm_compute; reflexivity).
  assert (Hr : reachable s0 s) by (by apply (run_reachable sched)).
  assert (Hfin : finished s) by (vm_compute; repeat constructor).
  assert (Hbytes : byte_grid 2 2 inp).
  { intros [y x] [Hy Hx]%in_bounds_spec. cbn [fst snd] in *.
    assert (y = 0 \/ y = 1) as [-> | ->] by lia;
      assert (x = 0 \/ x = 1) as [-> | ->] by lia; vm_compute; split; discriminate. }
  split; [exact Hr|]. split; [exact Hfin|]. split.
  - exact (wavefront_agrees_on_wide_grids inp ∅ 2 2 2 s (1, 1) Hbytes
             ltac:(lia) ltac:(lia) Hr Hfin eq_refl).
  - vm_compute. reflexivity.
Defined.

(** ** Width one: the missing wait *)

(** C1 fails on a grid one pixel wide: with width 1 no pixel waits for
    anything, and two workers may quantize (1, 0) before the error of
    (0, 0) has been deposited into it.  For the column (100, 100) the
    execution below is allowed by the protocol, all workers finish, and the
    output cell (1, 0) is 0, while the serial engine writes 255 there. *)
Theorem wavefront_differs_on_single_column :
  let inp : gmap coord Z := <[(0, 0) := 100]> (<[(1, 0) := 100]> ∅) in
  let sched := (replicate 6 1 ++ replicate 9 0)%nat in
  let s0 := dither_image_mt inp ∅ 1 2 2 in
  let s := default s0 (run sched s0) in
  run sched s0 = Some s /\
  reachable s0 s /\
  finished s /\
  output (arrs s) = <[(0, 0) := 0]> (<[(1, 0) := 0]> ∅) /\
  output (dither_image_st inp ∅ 1 2) = <[(0, 0) := 0]> (<[(1, 0) := 255]> ∅).
Proof.
  intros inp sched s0 s.
  assert (Hrun : run sched s0 = Some s) by (vm_compute; reflexivity).
  split; [exact Hrun|]. split; [by apply (run_reachable sched)|].
  split; [vm_compute; repeat constructor|].
  split; vm_compute; reflexivity.
Qed.

(** * Further properties of the wavefront engine *)

Import Traversal.

(** ** Every access stays inside the grid *)

Lemma pixel_mt_in_bounds w h y x a :
  in_bounds w h (y, x) = true -> a ∈ pixel_mt w h y x ->
  in_bounds w h (action_coord a) = true.
Proof.
  intros Hp%in_bounds_spec Ha. cbn [fst snd] in Hp.
  unfold pixel_mt, propagate_mt, wait_for, locked_deposit, signal_completion in Ha.
  rewrite !elem_of_app in Ha.
  assert (Hin : forall c (l : list action),
            a ∈ l -> (forall b, b ∈ l -> action_coord b = c) ->
            in_bounds w h c = true -> in_bounds w h (action_coord a) = true).
  { intros c l Hl Hc Hb. by rewrite (Hc a Hl). }
  assert (H3 : forall c (x1 x2 x3 : action),
            action_coord x1 = c -> action_coord x2 = c -> action_coord x3 = c ->
            forall b, b ∈ [x1; x2; x3] -> action_coord b = c).
  { intros c x1 x2 x3 H1 H2 H3 b. rewrite !elem_of_cons, elem_of_nil.
    intros [-> | [-> | [-> | []]]]; done. }
  destruct Ha as [Ha | [Ha | [Ha | [Ha | Ha]]]].
  - destruct ((y >? 0) && (x + 1 <? w)) eqn:E; [|by apply elem_of_nil in Ha].
    eapply Hin; [exact Ha | by apply H3 |].
    apply in_bounds_spec. cbn [fst snd]. cmp_cases; simpl in *; try discriminate; lia.
  - destruct (x >? 0) eqn:E; [|by apply elem_of_nil in Ha].
    eapply Hin; [exact Ha | by apply H3 |].
    apply in_bounds_spec. cbn [fst snd]. cmp_cases; simpl in *; try discriminate; lia.
  - rewrite !elem_of_cons, elem_of_nil in Ha.
    destruct Ha as [-> | [-> | []]]; apply in_bounds_spec; simpl; lia.
  - destruct Ha as [Ha | Ha].
    + destruct (x + 1 <? w) eqn:E; [|by apply elem_of_nil in Ha].
      eapply Hin; [exact Ha | by apply H3 |].
      apply in_bounds_spec. cbn [fst snd]. cmp_cases; simpl in *; try discriminate; lia.
    + destruct (y + 1 <? h) eqn:E; [|by apply elem_of_nil in Ha].
      rewrite !elem_of_app in Ha. destruct Ha as [Ha | [Ha | Ha]].
      * destruct (x - 1 >=? 0) eqn:E'; [|by apply elem_of_nil in Ha].
        eapply Hin; [exact Ha | by apply H3 |].
        apply in_bounds_spec. cbn [fst snd]. cmp_cases; simpl in *; try discriminate; lia.
      * eapply Hin; [exact Ha | by apply H3 |].
        apply in_bounds_spec. cbn [fst snd]. cmp_cases; simpl in *; try discriminate; lia.
      * destruct (x + 1 <? w) eqn:E'; [|by apply elem_of_nil in Ha].
        eapply Hin; [exact Ha | by apply H3 |].
        apply in_bounds_spec. cbn [fst snd]. cmp_cases; simpl in *; try discriminate; lia.
  - rewrite !elem_of_cons, elem_of_nil in Ha.
    destruct Ha as [-> | [-> | [-> | [-> | []]]]]; apply in_bounds_spec; simpl; lia.
Qed.

Lemma elem_of_concat_map {A B : Type} (f : A -> list B) (l : list A) (b : B) :
  b ∈ concat (map f l) <-> exists a, a ∈ l /\ b ∈ f a.
Proof.
  rewrite list_elem_of_In, in_concat. split.
  - intros (lb & Hlb & Hb). apply in_map_iff in Hlb as (a & <- & Ha).
    exists a. by rewrite !list_elem_of_In.
  - intros (a & Ha & Hb). exists (f a). rewrite <- !list_elem_of_In. split; [|done].
    apply list_elem_of_In, in_map. by apply list_elem_of_In.
Qed.

Lemma process_wavefront_pixel w h n i a :
  a ∈ process_wavefront w h n i ->
  exists y x, in_bounds w h (y, x) = true /\ Z.rem (y + x) n = i /\ a ∈ pixel_mt w h y x.
Proof.
  unfold process_wavefront. intros (diag & Hd & Ha)%elem_of_concat_map.
  destruct (Z.eqb_spec (Z.rem diag n) i) as [E | E]; simpl in Ha;
    [|by apply elem_of_nil in Ha].
  unfold diagonal_mt in Ha. apply elem_of_concat_map in Ha as (y & Hy%elem_of_seqZ & Ha).
  cbn zeta in Ha.
  destruct ((diag - y >=? 0) && (diag - y <? w)) eqn:E'; [|by apply elem_of_nil in Ha].
  exists y, (diag - y). split; [|split; [|done]].
  - apply in_bounds_spec. cbn [fst snd]. cmp_cases; simpl in *; try discriminate; lia.
  - by replace (y + (diag - y)) with diag by lia.
Qed.

Lemma process_wavefront_in_bounds w h n i a :
  a ∈ process_wavefront w h n i -> in_bounds w h (action_coord a) = true.
Proof.
  intros (y & x & Hp & _ & Ha)%process_wavefront_pixel. by eapply pixel_mt_in_bounds.
Qed.

Lemma all_scripts_insert (ths : list thread) t th' a :
  a ∈ concat (map script (<[t := th']> ths)) ->
  a ∈ script th' \/ a ∈ concat (map script ths).
Proof.
  intros (th & Hth & Ha)%elem_of_concat_map.
  apply list_elem_of_lookup in Hth as [i Hi].
  destruct (decide (i = t)) as [-> | Hne].
  - destruct (decide (t < length ths)%nat) as [Hlt | Hge].
    + rewrite list_lookup_insert_eq in Hi by done. injection Hi as <-. by left.
    + rewrite list_insert_ge in Hi by lia. right. apply elem_of_concat_map.
      exists th. split; [by eapply list_elem_of_lookup_2 | done].
  - rewrite list_lookup_insert_ne in Hi by done. right. apply elem_of_concat_map.
    exists th. split; [by eapply list_elem_of_lookup_2 | done].
Qed.

Lemma head_in_all_scripts s t th a rest :
  threads s !! t = Some th -> script th = a :: rest -> a ∈ all_scripts s.
Proof.
  intros Ht Hs. apply elem_of_concat_map. exists th.
  split; [by eapply list_elem_of_lookup_2 | rewrite Hs; by left].
Qed.

Lemma rest_in_all_scripts s t th a rest b :
  threads s !! t = Some th -> script th = a :: rest -> b ∈ rest -> b ∈ all_scripts s.
Proof.
  intros Ht Hs Hb. apply elem_of_concat_map. exists th.
  split; [by eapply list_elem_of_lookup_2 | rewrite Hs; by right].
Qed.

(* What one action changes: only cells at its own coordinate, and the
   script of the worker, which shrinks or goes back to the lock of a wait. *)
Lemma exec_frame t th a rest s s' :
  exec t th a rest s = Some s' ->
  (exists scr' op', threads s' = <[t := Thread scr' op']> (threads s) /\
     forall b, b ∈ scr' -> b ∈ rest \/ action_coord b = action_coord a) /\
  input (arrs s') = input (arrs s) /\
  (forall c, c <> action_coord a ->
     work (arrs s') !! c = work (arrs s) !! c /\
     output (arrs s') !! c = output (arrs s) !! c /\
     pixel_processed s' !! c = pixel_processed s !! c /\
     pixel_mutexes s' !! c = pixel_mutexes s !! c) /\
  (forall c t', pixel_mutexes s' !! c = Some t' -> t' = t \/ pixel_mutexes s !! c = Some t').
Proof.
  destruct a as [c0 | c0 | c0 | c0 | c0 | c0 k | c0 | c0]; simpl; intros H.
  - destruct (pixel_mutexes s !! c0) eqn:E; [done|]. injection H as <-. simpl.
    split; [eexists _, _; split; [done | by left]|]. split; [done|]. split.
    + intros c Hc. by rewrite lookup_insert_ne.
    + intros c t'. destruct (decide (c = c0)) as [-> | Hne].
      * rewrite lookup_insert_eq. intros [= <-]. by left.
      * rewrite lookup_insert_ne by done. by right.
  - destruct (cell (pixel_processed s) c0.1 c0.2 =? 0); injection H as <-; simpl.
    + split.
      { eexists _, _. split; [done|]. intros b. rewrite !elem_of_cons.
        intros [-> | [-> | Hb]]; auto. }
      split; [done|]. split.
      * intros c Hc. by rewrite lookup_delete_ne.
      * intros c t' Hl. right. destruct (decide (c = c0)) as [-> | Hne].
        -- by rewrite lookup_delete_eq in Hl.
        -- by rewrite lookup_delete_ne in Hl.
    + split; [eexists _, _; split; [done | by left]|]. split; [done|].
      split; [done | by right].
  - injection H as <-. simpl.
    split; [eexists _, _; split; [done | by left]|]. split; [done|]. split.
    + intros c Hc. by rewrite lookup_delete_ne.
    + intros c t' Hl. right. destruct (decide (c = c0)) as [-> | Hne].
      * by rewrite lookup_delete_eq in Hl.
      * by rewrite lookup_delete_ne in Hl.
  - injection H as <-. simpl.
    split; [eexists _, _; split; [done | by left]|]. split; [done|].
    split; [done | by right].
  - injection H as <-. simpl.
    split; [eexists _, _; split; [done | by left]|]. split; [done|]. split.
    + intros c Hc. unfold set_cell. destruct c0. cbn [fst snd].
      by rewrite lookup_insert_ne.
    + by right.
  - injection H as <-. simpl.
    split; [eexists _, _; split; [done | by left]|]. split; [done|]. split.
    + intros c Hc. unfold set_cell. destruct c0. cbn [fst snd].
      by rewrite lookup_insert_ne.
    + by right.
  - injection H as <-. simpl.
    split; [eexists _, _; split; [done | by left]|]. split; [done|]. split.
    + intros c Hc. unfold set_cell. destruct c0. cbn [fst snd].
      by rewrite lookup_insert_ne.
    + by right.
  - injection H as <-. simpl.
    split; [eexists _, _; split; [done | by left]|]. split; [done|].
    split; [done | by right].
Qed.

Lemma scripts_in_bounds_step w h s s' :
  scripts_in_bounds w h s -> step_rel s s' -> scripts_in_bounds w h s'.
Proof.
  intros Hinv [t Hs] b Hb.
  destruct (step_inv _ _ _ Hs) as (th & a & rest & Ht & Hscr & He).
  destruct (exec_frame _ _ _ _ _ _ He) as ((scr' & op' & Hths & Hsub) & _).
  unfold all_scripts in Hb. rewrite Hths in Hb.
  apply all_scripts_insert in Hb as [Hb | Hb]; [|by apply Hinv].
  destruct (Hsub b Hb) as [Hr | ->].
  - apply Hinv. by eapply rest_in_all_scripts.
  - apply Hinv. by eapply head_in_all_scripts.
Qed.

Lemma untouched_outside_step out w h s s' :
  scripts_in_bounds w h s -> untouched_outside out w h s -> step_rel s s' ->
  untouched_outside out w h s'.
Proof.
  intros Hsc Hinv [t Hs] c Hc.
  destruct (step_inv _ _ _ Hs) as (th & a & rest & Ht & Hscr & He).
  destruct (exec_frame _ _ _ _ _ _ He) as (_ & _ & Hfr & _).
  assert (Hne : c <> action_coord a).
  { intros ->. rewrite (Hsc a) in Hc; [done|]. by eapply head_in_all_scripts. }
  destruct (Hfr c Hne) as (-> & -> & -> & ->). by apply Hinv.
Qed.

Lemma owners_exist_step s s' : owners_exist s -> step_rel s s' -> owners_exist s'.
Proof.
  intros Hinv [t Hs] c t' Hl.
  destruct (step_inv _ _ _ Hs) as (th & a & rest & Ht & Hscr & He).
  destruct (exec_frame _ _ _ _ _ _ He) as ((scr' & op' & Hths & _) & _ & _ & Hown).
  rewrite Hths. apply lookup_lt_is_Some. rewrite length_insert.
  apply lookup_lt_is_Some.
  destruct (Hown c t' Hl) as [-> | Hold]; [by eexists | by eapply Hinv].
Qed.

Lemma copy_input_outside w h a c :
  in_bounds w h c = false ->
  work (copy_input w h a) !! c = work a !! c.
Proof.
  intros Hc. unfold copy_input.
  apply (foldl_preserved _ (fun s => work s !! c = work a !! c)); [|done].
  intros s y Hy%elem_of_seqZ Hs. unfold copy_row.
  apply (foldl_preserved _ (fun s => work s !! c = work a !! c)); [|done].
  intros s' x Hx%elem_of_seqZ Hs'. simpl. unfold set_cell.
  rewrite lookup_insert_ne; [done|]. intros <-.
  rewrite (proj2 (in_bounds_spec w h (y, x))) in Hc; [done | simpl; lia].
Qed.

Lemma init_processed_outside w h c :
  in_bounds w h c = false -> init_processed w h !! c = None.
Proof.
  intros Hc. unfold init_processed.
  apply (foldl_preserved _ (fun p : gmap coord Z => p !! c = None)); [|done].
  intros p y Hy%elem_of_seqZ Hp.
  apply (foldl_preserved _ (fun p : gmap coord Z => p !! c = None)); [|done].
  intros p' x Hx%elem_of_seqZ Hp'. unfold set_cell.
  rewrite lookup_insert_ne; [done|]. intros <-.
  rewrite (proj2 (in_bounds_spec w h (y, x))) in Hc; [done | simpl; lia].
Qed.

Lemma scripts_in_bounds_initial inp out w h n :
  scripts_in_bounds w h (dither_image_mt inp out w h n).
Proof.
  intros a (th & Hth & Ha)%elem_of_concat_map.
  apply list_elem_of_lookup in Hth as [t Ht].
  apply initial_thread in Ht as (i & _ & _ & ->). by eapply process_wavefront_in_bounds.
Qed.

Lemma untouched_outside_reachable inp out w h n s :
  reachable (dither_image_mt inp out w h n) s ->
  scripts_in_bounds w h s /\ untouched_outside out w h s.
Proof.
  apply (reachable_invariant (fun s => scripts_in_bounds w h s /\ untouched_outside out w h s)).
  - split; [apply scripts_in_bounds_initial|].
    intros c Hc. simpl. rewrite copy_input_outside, copy_input_output by done.
    split; [done|]. split; [done|]. split; [by apply init_processed_outside | done].
  - intros s1 s2 [H1 H2] Hs. split.
    + by eapply scripts_in_bounds_step.
    + by eapply untouched_outside_step.
Qed.

Lemma pixel_st_outside w h y x a c :
  in_bounds w h (y, x) = true -> in_bounds w h c = false ->
  work (pixel_st w h y x a) !! c = work a !! c /\
  output (pixel_st w h y x a) !! c = output a !! c.
Proof.
  intros Hp Hc. split.
  - unfold pixel_st. rewrite propagate_st_deposited by done.
    rewrite (deposited_work_other w h) by
      (done || (intros k (Hb & _)%live_targets_src; congruence)).
    done.
  - rewrite pixel_st_output. apply lookup_insert_ne. congruence.
Qed.

Lemma dither_image_st_outside inp out w h c :
  in_bounds w h c = false ->
  work (dither_image_st inp out w h) !! c = None /\
  output (dither_image_st inp out w h) !! c = out !! c.
Proof.
  intros Hc. unfold dither_image_st.
  apply (foldl_preserved _ (fun s => work s !! c = None /\ output s !! c = out !! c)).
  - intros s y Hy%elem_of_seqZ Hs. unfold row_st.
    apply (foldl_preserved _ (fun s => work s !! c = None /\ output s !! c = out !! c));
      [|done].
    intros s' x Hx%elem_of_seqZ [Hw Ho].
    destruct (pixel_st_outside w h y x s' c) as [-> ->]; try done.
    apply in_bounds_spec. simpl. lia.
  - by rewrite copy_input_outside, copy_input_output.
Qed.

(** X1.  Neither engine touches anything outside the grid.  For a coordinate
    that is not inside the height x width grid: the serial engine leaves
    its accumulator unallocated and its output cell as the caller passed
    it, and in every state of every execution of the wavefront engine the
    same holds, and its flag and mutex are never used; every action in the
    script of a worker uses a coordinate inside the grid. *)
Theorem engines_stay_inside_grid
    (inp out : gmap coord Z) (width height num_threads : Z) (c : coord) :
  in_bounds width height c = false ->
  (work (dither_image_st inp out width height) !! c = None /\
   output (dither_image_st inp out width height) !! c = out !! c) /\
  (forall s, reachable (dither_image_mt inp out width height num_threads) s ->
     work (arrs s) !! c = None /\ output (arrs s) !! c = out !! c /\
     pixel_processed s !! c = None /\ pixel_mutexes s !! c = None) /\
  (forall i a, a ∈ process_wavefront width height num_threads i ->
     action_coord a <> c).
Proof.
  intros Hc. split; [by apply dither_image_st_outside|]. split.
  - intros s Hr. by apply (untouched_outside_reachable inp out width height num_threads s Hr).
  - intros i a Ha E. apply process_wavefront_in_bounds in Ha. congruence.
Qed.

Lemma engines_stay_inside_grid_witness :
  in_bounds 2 1 (1, 0) = false /\
  output (dither_image_st (<[(0, 0) := 200]> ∅) (<[(1, 0) := 77]> ∅) 2 1) !! (1, 0) = Some 77.
Proof.
  split; [reflexivity|].
  exact (proj2 (proj1 (engines_stay_inside_grid (<[(0, 0) := 200]> ∅) (<[(1, 0) := 77]> ∅)
                         2 1 1 (1, 0) eq_refl))).
Defined.

(** ** Mutexes: one at a time, none at the end *)

Lemma owners_exist_reachable inp out w h n s :
  reachable (dither_image_mt inp out w h n) s -> owners_exist s.
Proof.
  apply reachable_invariant; [|apply owners_exist_step].
  intros c t Hl. simpl in Hl. by rewrite lookup_empty in Hl.
Qed.

(** X2.  In every state of every execution of the wavefront engine a worker
    holds at most one mutex (no nested acquisition), and when all workers
    have finished no mutex is held, so that the cleanup destroys unlocked
    mutexes only. *)
Theorem mutexes_held_singly
    (inp out : gmap coord Z) (width height num_threads : Z) (s : state) :
  reachable (dither_image_mt inp out width height num_threads) s ->
  (forall t c c', pixel_mutexes s !! c = Some t -> pixel_mutexes s !! c' = Some t -> c = c') /\
  (finished s -> pixel_mutexes s = ∅).
Proof.
  intros Hr.
  pose proof (lock_inv_reachable _ _ _ _ _ _ Hr) as Hlock.
  pose proof (owners_exist_reachable _ _ _ _ _ _ Hr) as Hown.
  split.
  - intros t c c' Hc Hc'. destruct (Hown c t Hc) as [th Ht].
    destruct (Hlock t th Ht) as (held & _ & Hm).
    apply Hm in Hc, Hc'. congruence.
  - intros Hfin. apply map_eq. intros c. rewrite lookup_empty.
    destruct (pixel_mutexes s !! c) as [t|] eqn:Hc; [|done]. exfalso.
    destruct (Hown c t Hc) as [th Ht].
    destruct (Hlock t th Ht) as (held & Hd & Hm).
    unfold finished in Hfin. rewrite Forall_forall in Hfin.
    rewrite (Hfin th) in Hd by (by eapply list_elem_of_lookup_2). simpl in Hd.
    apply holds_none_true in Hd as ->. by apply Hm in Hc.
Qed.

Lemma mutexes_held_singly_witness :
  let s0 := dither_image_mt (<[(0, 0) := 200]> (<[(0, 1) := 7]> ∅)) ∅ 2 1 1 in
  let s := default s0 (run (replicate 18 0%nat) s0) in
  reachable s0 s /\ finished s /\ pixel_mutexes s = ∅.
Proof.
  intros s0 s.
  assert (Hrun : run (replicate 18 0%nat) s0 = Some s) by (vm_compute; reflexivity).
  assert (Hr : reachable s0 s) by (by apply (run_reachable (replicate 18 0%nat))).
  assert (Hfin : finished s) by (vm_compute; repeat constructor).
  split; [exact Hr|]. split; [exact Hfin|].
  exact (proj2 (mutexes_held_singly _ _ 2 1 1 s Hr) Hfin).
Defined.

(** ** Every pixel is processed exactly once *)

Lemma occurrences_pos a l : a ∈ l -> (0 < occurrences a l)%nat.
Proof.
  induction 1 as [b l | b c l _ IH]; rewrite occurrences_cons.
  - rewrite bool_decide_eq_true_2 by done. lia.
  - lia.
Qed.

Section once.

Variables (w h : Z) (a : action) (q : coord).
Hypothesis Hpix : forall y x, in_bounds w h (y, x) = true ->
  (occurrences a (pixel_mt w h y x) <= 1)%nat /\
  ((y, x) <> q -> occurrences a (pixel_mt w h y x) = 0%nat).

Lemma once_in_diagonal diag :
  (occurrences a (diagonal_mt w h diag) <= 1)%nat /\
  (diag <> q.1 + q.2 -> occurrences a (diagonal_mt w h diag) = 0%nat).
Proof.
  unfold diagonal_mt.
  assert (Hrow : forall y, y ∈ seqZ 0 h ->
    let l := if (diag - y >=? 0) && (diag - y <? w) then pixel_mt w h y (diag - y) else [] in
    (occurrences a l <= 1)%nat /\ ((y, diag - y) <> q -> occurrences a l = 0%nat)).
  { intros y Hy%elem_of_seqZ. cbn zeta.
    destruct ((diag - y >=? 0) && (diag - y <? w)) eqn:E.
    - apply Hpix, in_bounds_spec. cbn [fst snd].
      cmp_cases; simpl in *; try discriminate; lia.
    - unfold occurrences. simpl. split; [lia | done]. }
  split.
  - apply (occurrences_concat_once _ _ _ q.1); [apply NoDup_seqZ | |].
    + intros y Hy Hne. apply (Hrow y Hy). intros E. apply Hne. by rewrite <- E.
    + intros Hin. apply (Hrow _ Hin).
  - intros Hne. apply occurrences_concat_zero. intros y Hy.
    apply (Hrow y Hy). intros E. apply Hne. rewrite <- E. simpl. lia.
Qed.

Lemma once_in_worker n i :
  (occurrences a (process_wavefront w h n i) <= 1)%nat /\
  (i <> Z.rem (q.1 + q.2) n -> occurrences a (process_wavefront w h n i) = 0%nat).
Proof.
  unfold process_wavefront.
  assert (Hd : forall diag,
    let l := if negb (Z.rem diag n =? i) then [] else diagonal_mt w h diag in
    (occurrences a l <= 1)%nat /\
    (diag <> q.1 + q.2 \/ i <> Z.rem (q.1 + q.2) n -> occurrences a l = 0%nat)).
  { intros diag. cbn zeta. destruct (Z.eqb_spec (Z.rem diag n) i) as [E | E]; simpl.
    - destruct (once_in_diagonal diag) as [H1 H0]. split; [done|].
      intros [Hne | Hne]; [by apply H0|]. apply H0. intros ->. by apply Hne.
    - unfold occurrences. simpl. split; [lia | done]. }
  split.
  - apply (occurrences_concat_once _ _ _ (q.1 + q.2)); [apply NoDup_seqZ | |].
    + intros diag _ Hne. apply (Hd diag). by left.
    + intros _. apply (Hd (q.1 + q.2)).
  - intros Hne. apply occurrences_concat_zero. intros diag _.
    apply (Hd diag). by right.
Qed.

Lemma once_in_all_scripts inp out n :
  (occurrences a (all_scripts (dither_image_mt inp out w h n)) <= 1)%nat.
Proof.
  unfold all_scripts. simpl. rewrite map_map. simpl.
  apply (occurrences_concat_once _ _ _ (Z.rem (q.1 + q.2) n)); [apply NoDup_seqZ | |].
  - intros i _ Hne. by apply once_in_worker.
  - intros _. apply once_in_worker.
Qed.

End once.

Lemma occurrences_none a l : (forall b, b ∈ l -> b <> a) -> occurrences a l = 0%nat.
Proof. intros H. apply occurrences_zero. intros Ha. by apply (H a). Qed.

Lemma own_action_pixel w h a p y x :
  own_action a p -> in_bounds w h (y, x) = true ->
  (occurrences a (pixel_mt w h y x) <= 1)%nat /\
  ((y, x) <> p -> occurrences a (pixel_mt w h y x) = 0%nat).
Proof.
  intros Ha Hin.
  assert (E : occurrences a (pixel_mt w h y x) =
              occurrences a [ARead (y, x); AWriteOut (y, x); AMark (y, x)]).
  { unfold pixel_mt, signal_completion. rewrite !occurrences_app.
    rewrite (occurrences_none a (if _ : bool then _ else _)),
            (occurrences_none a (if _ : bool then _ else _)),
            (occurrences_none a (propagate_mt _ _ _ _)).
    - rewrite !occurrences_cons.
      rewrite (bool_decide_eq_false_2 (ALock _ = a)),
              (bool_decide_eq_false_2 (ABroadcast _ = a)),
              (bool_decide_eq_false_2 (AUnlock _ = a))
        by (destruct Ha as [-> | [-> | ->]]; done).
      unfold occurrences. simpl. lia.
    - unfold propagate_mt, locked_deposit. intros b Hb.
      repeat case_match; rewrite ?elem_of_app, ?elem_of_cons, ?elem_of_nil in Hb;
        destruct Ha as [-> | [-> | ->]]; intuition (subst; discriminate).
    - intros b Hb. case_match; unfold wait_for in Hb;
        rewrite ?elem_of_cons, ?elem_of_nil in Hb;
        destruct Ha as [-> | [-> | ->]]; intuition (subst; discriminate).
    - intros b Hb. case_match; unfold wait_for in Hb;
        rewrite ?elem_of_cons, ?elem_of_nil in Hb;
        destruct Ha as [-> | [-> | ->]]; intuition (subst; discriminate). }
  rewrite E, !occurrences_cons. change (occurrences a []) with 0%nat.
  destruct Ha as [-> | [-> | ->]];
    repeat case_bool_decide; simplify_eq; split; try lia; try done.
Qed.

Lemma pixel_mt_in_worker w h n y x a :
  0 < n -> in_bounds w h (y, x) = true -> a ∈ pixel_mt w h y x ->
  a ∈ process_wavefront w h n ((y + x) mod n).
Proof.
  intros Hn [Hy Hx]%in_bounds_spec Ha. cbn [fst snd] in *.
  unfold process_wavefront. apply elem_of_concat_map. exists (y + x). split.
  - apply elem_of_seqZ. lia.
  - rewrite Z.rem_mod_nonneg by lia. rewrite Z.eqb_refl. simpl.
    unfold diagonal_mt. apply elem_of_concat_map. exists y. split.
    + apply elem_of_seqZ. lia.
    + cbn zeta. replace (y + x - y) with x by lia.
      assert ((x >=? 0) && (x <? w) = true) as ->; [|done].
      cmp_cases; simpl; try lia; reflexivity.
Qed.

Lemma worker_in_all_scripts inp out w h n i a :
  0 <= i < n -> a ∈ process_wavefront w h n i ->
  a ∈ all_scripts (dither_image_mt inp out w h n).
Proof.
  intros Hi Ha. apply elem_of_concat_map.
  exists (Thread (process_wavefront w h n i) 0). split; [|done].
  eapply list_elem_of_lookup_2. by apply initial_thread_lookup.
Qed.

(** X3.  With at least one worker, the scripts of the workers taken together
    contain, for every pixel of the grid, its quantization read, its output
    write and the setting of its flag exactly once, all in the script of
    worker (row + col) mod num_threads, and each deposit into an in-bounds
    target exactly once; for a coordinate outside the grid they contain
    none of these. *)
Theorem every_pixel_processed_once
    (inp out : gmap coord Z) (width height num_threads : Z) (p : coord) :
  0 < num_threads ->
  let scripts := all_scripts (dither_image_mt inp out width height num_threads) in
  (in_bounds width height p = true ->
     occurrences (ARead p) scripts = 1%nat /\
     occurrences (AWriteOut p) scripts = 1%nat /\
     occurrences (AMark p) scripts = 1%nat /\
     (forall c k, (c, k) ∈ live_targets width height p ->
                  occurrences (ADeposit c k) scripts = 1%nat) /\
     (forall i, ARead p ∈ process_wavefront width height num_threads i ->
                i = (p.1 + p.2) mod num_threads)) /\
  (in_bounds width height p = false ->
     occurrences (ARead p) scripts = 0%nat /\
     occurrences (AWriteOut p) scripts = 0%nat /\
     occurrences (AMark p) scripts = 0%nat).
Proof.
  intros Hn scripts. split.
  - intros Hp. destruct p as [y x].
    assert (Hown : 0 <= (y + x) mod num_threads < num_threads) by (by apply Z.mod_pos_bound).
    assert (Hone : forall a, own_action a (y, x) -> occurrences a scripts = 1%nat).
    { intros a Ha.
      pose proof (once_in_all_scripts width height a (y, x)
                    (fun y' x' => own_action_pixel width height a (y, x) y' x' Ha)
                    inp out num_threads) as Hle.
      assert (Hin : a ∈ scripts).
      { apply (worker_in_all_scripts _ _ _ _ _ ((y + x) mod num_threads)); [done|].
        apply pixel_mt_in_worker; [done | done |].
        unfold pixel_mt, signal_completion. rewrite !elem_of_app, !elem_of_cons.
        destruct Ha as [-> | [-> | ->]]; auto 10. }
      apply occurrences_pos in Hin. fold scripts in Hle. lia. }
    split; [apply Hone; by left|]. split; [apply Hone; right; by left|].
    split; [apply Hone; right; by right|]. split.
    + intros c k Hck.
      pose proof (once_in_all_scripts width height (ADeposit c k) (src c k)
                    (fun y' x' => occurrences_pixel width height y' x' c k)
                    inp out num_threads) as Hle.
      assert (Hin : ADeposit c k ∈ scripts).
      { apply (worker_in_all_scripts _ _ _ _ _ ((y + x) mod num_threads)); [done|].
        apply pixel_mt_in_worker; [done | done |].
        unfold pixel_mt. rewrite propagate_mt_implement by done. cbn [implement].
        rewrite !elem_of_app. right. right. right. left.
        apply elem_of_concat_map. exists (c, k). split; [done|].
        cbn [fst snd]. rewrite !elem_of_cons. auto. }
      apply occurrences_pos in Hin. fold scripts in Hle. lia.
    + intros i Hi.
      destruct (once_in_worker width height (ARead (y, x)) (y, x)
                  (fun y' x' => own_action_pixel width height _ (y, x) y' x'
                                  (or_introl eq_refl))
                  num_threads i) as [_ H0].
      destruct (decide (i = Z.rem (y + x) num_threads)) as [-> | Hne].
      * cbn [fst snd]. apply in_bounds_spec in Hp. cbn [fst snd] in Hp.
        apply Z.rem_mod_nonneg; lia.
      * apply occurrences_pos in Hi. cbn [fst snd] in H0. specialize (H0 Hne). lia.
  - intros Hp.
    assert (Hnone : forall a, action_coord a = p -> occurrences a scripts = 0%nat).
    { intros a Ha. apply occurrences_zero. intros Hin.
      destruct (untouched_outside_reachable inp out width height num_threads _ (rtc_refl _ _))
        as [Hsc _].
      specialize (Hsc a Hin). congruence. }
    repeat split; by apply Hnone.
Qed.

Lemma every_pixel_processed_once_witness :
  0 < 3 /\
  occurrences (AWriteOut (1, 1)) (all_scripts (dither_image_mt ∅ ∅ 2 2 3)) = 1%nat.
Proof.
  assert (H : 0 < 3) by lia. split; [exact H|].
  exact (proj1 (proj2 (proj1 (every_pixel_processed_once ∅ ∅ 2 2 3 (1, 1) H) eq_refl))).
Defined.

(** ** The wavefront engine can always run to completion *)

Lemma run_app sched1 sched2 s :
  run (sched1 ++ sched2) s = run sched1 s ≫= run sched2.
Proof.
  revert s. induction sched1 as [|t sched1 IH]; intros s; simpl; [done|].
  destruct (step t s); [apply IH | done].
Qed.

(* A worker that holds the mutex its script expects, and whose waits are
   for flags already set, runs through a stretch of its script alone. *)
Lemma run_solo l : forall s j rest op held ar' fl' op',
  threads s !! j = Some (Thread (l ++ rest) op) ->
  disciplined held l = true ->
  pixel_mutexes s = match held with None => ∅ | Some c => {[c := j]} end ->
  solo l (arrs s, pixel_processed s, op) = Some (ar', fl', op') ->
  run (replicate (length l) j) s =
    Some (State ar' fl' ∅ (<[j := Thread rest op']> (threads s))).
Proof.
  induction l as [|a l IH]; intros s j rest op held ar' fl' op' Ht Hd Hm Hsolo.
  - simpl in *. injection Hsolo as <- <- <-. apply holds_none_true in Hd as ->.
    rewrite <- Hm. rewrite list_insert_id by done. by destruct s.
  - assert (Hj : (j < length (threads s))%nat) by (by eapply lookup_lt_Some).
    cbn [length replicate run]. unfold step. rewrite Ht. cbn [script app].
    assert (Hnext : forall s1 held1 m1,
      threads s1 = <[j := Thread (l ++ rest) m1.2]> (threads s) ->
      disciplined held1 l = true ->
      pixel_mutexes s1 = match held1 with None => ∅ | Some c => {[c := j]} end ->
      arrs s1 = m1.1.1 -> pixel_processed s1 = m1.1.2 ->
      solo l m1 = Some (ar', fl', op') ->
      run (replicate (length l) j) s1 =
        Some (State ar' fl' ∅ (<[j := Thread rest op']> (threads s)))).
    { intros s1 held1 [[ar1 fl1] op1] Hths Hd1 Hm1 Har Hfl Hs1. cbn [fst snd] in *.
      rewrite (IH s1 j rest op1 held1 ar' fl' op'); try done.
      - by rewrite Hths, list_insert_insert_eq.
      - rewrite Hths. by apply list_lookup_insert_eq.
      - by rewrite Har, Hfl. }
    destruct a as [c | c | c | c | c | c k | c | c]; cbn [disciplined] in Hd;
      apply andb_prop in Hd as [Hh Hd]; cbn [solo solo_action fst snd] in Hsolo;
      cbn [exec].
    + apply holds_none_true in Hh as ->. rewrite Hm, lookup_empty.
      refine (Hnext _ (Some c) _ _ Hd _ _ _ Hsolo); try done;
        simpl; by rewrite Hm, insert_empty.
    + apply holds_true in Hh as ->.
      destruct (cell (pixel_processed s) c.1 c.2 =? 0); [done|].
      by refine (Hnext _ (Some c) _ _ Hd _ _ _ Hsolo).
    + apply holds_true in Hh as ->.
      refine (Hnext _ None _ _ Hd _ _ _ Hsolo); try done;
        simpl; by rewrite Hm, delete_singleton_eq.
    + apply holds_none_true in Hh as ->.
      by refine (Hnext _ None _ _ Hd _ _ _ Hsolo).
    + apply holds_none_true in Hh as ->.
      by refine (Hnext _ None _ _ Hd _ _ _ Hsolo).
    + apply holds_true in Hh as ->.
      by refine (Hnext _ (Some c) _ _ Hd _ _ _ Hsolo).
    + apply holds_true in Hh as ->.
      by refine (Hnext _ (Some c) _ _ Hd _ _ _ Hsolo).
    + apply holds_true in Hh as ->.
      by refine (Hnext _ (Some c) _ _ Hd _ _ _ Hsolo).
Qed.

Lemma solo_app l1 l2 m :
  solo (l1 ++ l2) m = solo l1 m ≫= solo l2.
Proof.
  revert m. induction l1 as [|a l1 IH]; intros m; simpl; [done|].
  destruct (solo_action a m); [apply IH | done].
Qed.

Lemma solo_wait (b : bool) c ar fl op :
  (b = true -> cell fl c.1 c.2 <> 0) ->
  solo (if b then wait_for c else []) (ar, fl, op) = Some (ar, fl, op).
Proof.
  intros H. destruct b; [|done]. cbn [wait_for solo solo_action fst snd].
  destruct (cell fl c.1 c.2 =? 0) eqn:E; [|done].
  apply Z.eqb_eq in E. by destruct H.
Qed.

(* Alone, a worker gets through a pixel whose two waits are for flags
   already set; only the flag of the pixel changes. *)
Lemma solo_pixel w h y x ar fl op :
  (((y >? 0) && (x + 1 <? w)) = true -> cell fl (y - 1) (x + 1) <> 0) ->
  ((x >? 0) = true -> cell fl y (x - 1) <> 0) ->
  exists ar' op',
    solo (pixel_mt w h y x) (ar, fl, op) = Some (ar', set_cell fl y x 1, op').
Proof.
  intros H1 H2. unfold pixel_mt.
  rewrite solo_app, solo_wait by done. cbn [mbind option_bind].
  rewrite solo_app, solo_wait by done. cbn [mbind option_bind].
  unfold propagate_mt, locked_deposit, signal_completion.
  repeat case_match; cbn [app solo solo_action fst snd]; eauto.
Qed.

(* A loop over an interval of integers, one stretch of schedule for each. *)
Lemma run_seqZ (f : Z -> list nat) (P : Z -> state -> Prop) (len : Z) :
  forall lo s,
  (forall z s, lo <= z < lo + len -> P z s ->
     exists s', run (f z) s = Some s' /\ P (z + 1) s') ->
  P lo s ->
  exists s', run (concat (map f (seqZ lo len))) s = Some s' /\
             P (lo + Z.max 0 len) s'.
Proof.
  remember (Z.to_nat len) as k eqn:Hk. revert len Hk.
  induction k as [|k IH]; intros len Hk lo s Hstep HP.
  - assert (len <= 0) by lia. rewrite seqZ_nil by lia. exists s. simpl.
    by replace (lo + Z.max 0 len) with lo by lia.
  - assert (0 < len) by lia. rewrite seqZ_cons by lia. cbn [map concat].
    destruct (Hstep lo s) as [s1 [Hr1 HP1]]; [lia | done |].
    assert (Hk' : k = Z.to_nat (Z.pred len)) by lia.
    destruct (IH (Z.pred len) Hk' (Z.succ lo) s1) as [s2 [Hr2 HP2]].
    + intros z s0 Hz. apply Hstep. lia.
    + by replace (Z.succ lo) with (lo + 1) by lia.
    + exists s2. rewrite run_app, Hr1. split; [done|].
      by replace (lo + Z.max 0 len) with (Z.succ lo + Z.max 0 (Z.pred len)) by lia.
Qed.

Lemma swept_weaken w h n (scr scr' : Z -> list action) (done done' : coord -> Prop) s :
  (forall i, 0 <= i < n -> scr i = scr' i) ->
  (forall q, in_bounds w h q = true -> done' q -> done q) ->
  swept w h n scr done s -> swept w h n scr' done' s.
Proof.
  intros Hscr Hdone (Hm & Hlen & Hth & Hfl). repeat split; [done | done | |].
  - intros i Hi. destruct (Hth i Hi) as [op Hop]. exists op. by rewrite <- Hscr.
  - intros q Hq Hd. apply Hfl; auto.
Qed.

(* One row of a diagonal: the owner of the diagonal processes the pixel,
   if the row has one, from its first action to its last. *)
Lemma row_step w h n d y s :
  0 < n -> 0 <= d -> 0 <= y < h ->
  at_row w h n d y s ->
  exists s',
    run (let x := d - y in
         if (x >=? 0) && (x <? w)
         then replicate (length (pixel_mt w h y x)) (Z.to_nat (Z.rem d n))
         else []) s = Some s' /\
    at_row w h n d (y + 1) s'.
Proof.
  intros Hn Hd Hy Hs. cbn zeta.
  destruct ((d - y >=? 0) && (d - y <? w)) eqn:E.
  - destruct Hs as (Hm & Hlen & Hth & Hfl).
    assert (Hj : 0 <= Z.rem d n < n) by (apply Z.rem_bound_pos; lia).
    destruct (Hth _ Hj) as [op Hop]. unfold remaining in Hop.
    rewrite Z.eqb_refl, seqZ_cons in Hop by lia. cbn [map concat] in Hop.
    cbn zeta in Hop. rewrite E, <- app_assoc in Hop.
    apply andb_prop in E as [E1 E2].
    destruct (solo_pixel w h y (d - y) (arrs s) (pixel_processed s) op)
      as (ar' & op' & Hsolo).
    + intros Hc. apply andb_prop in Hc as [Hc1 Hc2].
      apply (Hfl (y - 1, d - y + 1)).
      * apply in_bounds_spec. cbn [fst snd]. lia.
      * right. cbn [fst snd]. lia.
    + intros Hc. apply (Hfl (y, d - y - 1)).
      * apply in_bounds_spec. cbn [fst snd]. lia.
      * left. cbn [fst snd]. lia.
    + eexists. split.
      * eapply (run_solo _ s _ _ op None);
          [exact Hop | apply pixel_mt_disciplined | done | exact Hsolo].
      * repeat split; cbn [pixel_mutexes threads pixel_processed].
        -- by rewrite length_insert.
        -- intros i Hi. destruct (decide (i = Z.rem d n)) as [-> | Hne].
           ++ exists op'. rewrite list_lookup_insert_eq by lia. unfold remaining.
              rewrite Z.eqb_refl.
              by replace (Z.pred (h - y)) with (h - (y + 1)) by lia.
           ++ destruct (Hth i Hi) as [opi Hopi]. exists opi.
              rewrite list_lookup_insert_ne by lia. rewrite Hopi. unfold remaining.
              by destruct (Z.rem d n =? i) eqn:Ei; [apply Z.eqb_eq in Ei|].
        -- intros q Hq Hdone. unfold cell, set_cell.
           destruct (decide ((y, d - y) = (q.1, q.2))) as [-> | Hne].
           ++ by rewrite lookup_insert_eq.
           ++ rewrite lookup_insert_ne by done. apply Hfl; [done|].
              destruct Hdone as [? | [? ?]]; [by left|]. right. split; [done|].
              destruct (decide (q.1 = y)) as [Hy' | ?]; [|lia].
              destruct Hne. f_equal; lia.
  - exists s. split; [done|]. revert Hs. apply swept_weaken.
    + intros i Hi. unfold remaining. destruct (Z.rem d n =? i); [|done].
      rewrite (seqZ_cons y) by lia. cbn [map concat]. cbn zeta. rewrite E.
      by replace (Z.pred (h - y)) with (h - (y + 1)) by lia.
    + intros q Hq [? | [? ?]]; [by left|]. right. split; [done|].
      destruct (decide (q.1 = y)) as [Hy' | ?]; [|lia].
      apply in_bounds_spec in Hq. apply andb_false_iff in E as [E | E]; lia.
Qed.

(* One diagonal. *)
Lemma diagonal_step w h n d s :
  0 < n -> 0 <= d < w + h - 1 ->
  at_diagonal w h n d s ->
  exists s', run (diagonal_schedule w h n d) s = Some s' /\
             at_diagonal w h n (d + 1) s'.
Proof.
  intros Hn Hd Hs. unfold diagonal_schedule.
  destruct (run_seqZ (fun y => let x := d - y in
                        if (x >=? 0) && (x <? w)
                        then replicate (length (pixel_mt w h y x)) (Z.to_nat (Z.rem d n))
                        else [])
                     (at_row w h n d) h 0 s) as [s' [Hrun Hs']].
  - intros y s0 Hy. apply row_step; lia.
  - revert Hs. apply swept_weaken.
    + intros i Hi. unfold remaining_from, remaining.
      rewrite (seqZ_cons d) by lia. cbn [map concat]. unfold diagonal_mt.
      rewrite Z.sub_0_r.
      replace (Z.pred (w + h - 1 - d)) with (w + h - 1 - (d + 1)) by lia.
      by destruct (Z.rem d n =? i).
    + intros q Hq Hdone. apply in_bounds_spec in Hq. lia.
  - exists s'. split; [done|]. revert Hs'. apply swept_weaken.
    + intros i Hi. unfold remaining. rewrite seqZ_nil by lia.
      by destruct (Z.rem d n =? i).
    + intros q Hq Hdone. apply in_bounds_spec in Hq. lia.
Qed.

Lemma sequential_schedule_runs inp out w h n :
  0 < n ->
  exists s, run (sequential_schedule w h n) (dither_image_mt inp out w h n) = Some s /\
            finished s.
Proof.
  intros Hn. unfold sequential_schedule.
  destruct (run_seqZ (diagonal_schedule w h n) (at_diagonal w h n) (w + h - 1) 0
                     (dither_image_mt inp out w h n))
    as [s [Hrun Hs]].
  - intros d s0 Hd. apply diagonal_step; lia.
  - repeat split.
    + cbn [dither_image_mt threads]. by rewrite length_map, length_seqZ.
    + intros i Hi. exists 0. rewrite initial_thread_lookup by done.
      unfold remaining_from, process_wavefront. by rewrite Z.sub_0_r.
    + intros q Hq Hdone. apply in_bounds_spec in Hq. lia.
  - exists s. split; [done|]. destruct Hs as (_ & Hlen & Hth & _).
    apply Forall_lookup. intros t th Ht.
    assert (Hlt : (t < length (threads s))%nat) by (by eapply lookup_lt_Some).
    destruct (Hth (Z.of_nat t)) as [op Hop]; [lia|].
    rewrite Nat2Z.id, Ht in Hop. injection Hop as ->. cbn [script].
    unfold remaining_from. by rewrite seqZ_nil by lia.
Qed.

(** X4.  Termination is possible from the start, whatever the grid and the
    number of workers: when the workers take turns pixel by pixel along
    the diagonals (sequential_schedule), no step of the schedule finds its
    worker blocked or out of work, and at the end every worker has run
    its script to the end. *)
Theorem wavefront_completes (inp out : gmap coord Z) (width height num_threads : Z) :
  0 < num_threads ->
  exists s,
    run (sequential_schedule width height num_threads)
        (dither_image_mt inp out width height num_threads) = Some s /\
    finished s.
Proof. apply sequential_schedule_runs. Qed.

Lemma wavefront_completes_witness :
  0 < 2 /\
  exists s, run (sequential_schedule 3 2 2) (dither_image_mt ∅ ∅ 3 2 2) = Some s /\
            finished s.
Proof. split; [lia | apply wavefront_completes; lia]. Defined.

(** * Further properties of the serial engines *)

(** X6.  The recurrence that error_diffusion.c computes: on a grid of
    bytes, the accumulator a pixel is quantized from is its input plus, for
    each of its in-grid neighbours to the left, upper right, above and
    upper left, floor_divide(err * weight, 16) of that neighbour's error
    (weights 7, 3, 5, 1), in int arithmetic; and the output cell is the
    threshold of that accumulator. *)
Theorem error_diffusion_recurrence (inp out : gmap coord Z) (width height : Z) (c : coord) :
  byte_grid width height inp -> in_bounds width height c = true ->
  let a := ErrorDiffusion.dither_image inp out width height in
  let acc := fun q => cell (work a) q.1 q.2 in
  acc c = wrap_int (cell inp c.1 c.2 +
                    received width height (fun _ _ => true) acc c) /\
  output a !! c = Some (if acc c >? 128 then 255 else 0).
Proof.
  intros Hbytes Hc. rewrite dither_image_same_as_st_arrays.
  exact (serial_recurrence inp out width height c Hbytes Hc).
Qed.

Lemma error_diffusion_recurrence_witness :
  let inp : gmap coord Z := <[(0, 0) := 200]> (<[(0, 1) := 100]> ∅) in
  let a := ErrorDiffusion.dither_image inp ∅ 2 1 in
  cell (work a) 0 1 = 100 + floor_divide ((200 - 255) * 7) 16 /\
  output a !! (0, 1) = Some 0.
Proof.
  intros inp a.
  assert (Hbytes : byte_grid 2 1 inp).
  { intros [y x] [Hy Hx]%in_bounds_spec. cbn [fst snd] in *.
    assert (y = 0) as -> by lia.
    assert (x = 0 \/ x = 1) as [-> | ->] by lia; vm_compute; split; discriminate. }
  destruct (error_diffusion_recurrence inp ∅ 2 1 (0, 1) Hbytes eq_refl) as [Hacc Hout].
  split; [|exact Hout]. vm_compute. reflexivity.
Defined.

(* A grid of output levels. *)
Lemma bilevel_cell (g : gmap coord Z) (c : coord) :
  bilevel g c -> g !! c = Some (new_pixel_of (cell g c.1 c.2)) /\ err_of (cell g c.1 c.2) = 0.
Proof.
  intros [H | H]; rewrite (cell_lookup _ _ _ H), H; by vm_compute.
Qed.

Lemma dep_value_zero acc c k : err_of (acc (src c k)) = 0 -> dep_value acc c k = 0.
Proof. intros H. unfold dep_value. rewrite H. by vm_compute. Qed.

(* Dithering an image of output levels diffuses no error. *)
Lemma bilevel_fixed inp out w h :
  (forall c, in_bounds w h c = true -> bilevel inp c) ->
  forall (k : nat) c, in_bounds w h c = true -> Z.to_nat (2 * c.1 + c.2) = k ->
  cell (work (dither_image_st inp out w h)) c.1 c.2 = cell inp c.1 c.2.
Proof.
  intros Hbi.
  assert (Hbytes : byte_grid w h inp).
  { intros c Hc. destruct (Hbi c Hc) as [H | H]; rewrite (cell_lookup _ _ _ H); lia. }
  induction k as [k IH] using lt_wf_ind. intros c Hc Hk.
  destruct (serial_recurrence inp out w h c Hbytes Hc) as [-> _].
  assert (Hterm : forall k0, k0 ∈ weights ->
    term w h (fun _ _ => true)
      (fun q => cell (work (dither_image_st inp out w h)) q.1 q.2) c k0 = 0).
  { intros k0 Hk0. unfold term. destruct (in_bounds w h (src c k0)) eqn:Hs; [|done].
    cbn [andb]. apply dep_value_zero.
    assert (Hlt : 0 <= 2 * (src c k0).1 + (src c k0).2 < 2 * c.1 + c.2).
    { apply in_bounds_spec in Hs, Hc. revert Hs. unfold weights in Hk0.
      rewrite !elem_of_cons in Hk0.
      destruct Hk0 as [-> | [-> | [-> | [-> | Hk0]]]];
        [| | | | by apply elem_of_nil in Hk0]; cbn [src Z.eqb Pos.eqb fst snd]; lia. }
    rewrite (IH (Z.to_nat (2 * (src c k0).1 + (src c k0).2)) ltac:(lia) _ Hs eq_refl).
    by apply bilevel_cell, Hbi. }
  unfold received. rewrite !Hterm by (unfold weights; rewrite !elem_of_cons; auto).
  rewrite Z.add_0_r. apply wrap_int_id. specialize (Hbytes c Hc). unfold in_int, INT_MIN, INT_MAX. lia.
Qed.

(** X7.  Dithering is idempotent: dithering the output of the serial
    engine again gives the same picture, cell by cell of the grid; more
    generally every grid of output levels is a fixed point. *)
Theorem dithering_is_idempotent (inp out out' : gmap coord Z) (width height : Z) (c : coord) :
  in_bounds width height c = true ->
  ((forall q, in_bounds width height q = true -> bilevel inp q) ->
   output (dither_image_st inp out width height) !! c = inp !! c) /\
  let once := output (dither_image_st inp out width height) in
  output (dither_image_st once out' width height) !! c = once !! c.
Proof.
  intros Hc.
  assert (Hfix : forall g o, (forall q, in_bounds width height q = true -> bilevel g q) ->
            output (dither_image_st g o width height) !! c = g !! c).
  { intros g o Hbi.
    assert (Hbytes : byte_grid width height g).
    { intros q Hq. destruct (Hbi q Hq) as [H | H]; rewrite (cell_lookup _ _ _ H); lia. }
    destruct (serial_recurrence g o width height c Hbytes Hc) as [_ ->].
    cbv beta. rewrite (bilevel_fixed g o width height Hbi _ c Hc eq_refl).
    symmetry. by apply bilevel_cell, Hbi. }
  split; [exact (Hfix inp out)|].
  intros once. apply Hfix. intros [y x] Hq. apply in_bounds_spec in Hq.
  cbn [fst snd] in Hq. apply dither_image_st_bilevel; lia.
Qed.

Lemma dithering_is_idempotent_witness :
  let inp : gmap coord Z := <[(0, 0) := 200]> (<[(0, 1) := 100]> ∅) in
  let once := output (dither_image_st inp ∅ 2 1) in
  output (dither_image_st once ∅ 2 1) !! (0, 1) = once !! (0, 1).
Proof.
  intros inp once.
  exact (proj2 (dithering_is_idempotent inp ∅ ∅ 2 1 (0, 1) eq_refl)).
Defined.

(** * The dithering step of main *)

Lemma agree_inv_reachable inp out w h n s :
  byte_grid w h inp -> 2 <= w -> 0 < n ->
  reachable (dither_image_mt inp out w h n) s ->
  exists D, agree_inv inp out w h s D.
Proof.
  intros Hbytes Hw Hn. revert s.
  apply (reachable_invariant (fun s => exists D, agree_inv inp out w h s D)).
  - exists ∅. by apply agree_inv_initial.
  - intros s s' [D HD] Hs. by apply (agree_inv_step inp out w h s s' D).
Qed.

(** X8.  The picture that thread.c writes does not depend on the thread
    count given on the command line, for a grid of bytes at least two
    pixels wide: whichever engine main chooses, and however the workers
    interleave, the dithering step can complete, and every cell of the
    grid then holds what dither_image of error_diffusion.c writes there. *)
Theorem main_output_independent_of_threads
    (inp out : gmap coord Z) (width height num_threads : Z) :
  byte_grid width height inp -> 2 <= width ->
  (exists a, Main.dithered inp out width height num_threads a) /\
  forall a c, Main.dithered inp out width height num_threads a ->
    in_bounds width height c = true ->
    output a !! c = output (ErrorDiffusion.dither_image inp out width height) !! c.
Proof.
  intros Hbytes Hw. unfold Main.dithered, Main.single_threaded.
  destruct (num_threads <=? 1) eqn:En; cbn [orb].
  { split; [by eexists|]. by intros a c -> _. }
  destruct (int_mul height width <? 10000); [split; [by eexists | by intros a c -> _]|].
  assert (Hn : 0 < num_threads) by lia. split.
  - destruct (sequential_schedule_runs inp out width height num_threads Hn)
      as [s [Hrun Hfin]].
    exists (arrs s), s. split; [|done]. by apply (run_reachable _ _ _ Hrun).
  - intros a c (s & Hr & Hfin & ->) Hc.
    destruct (agree_inv_reachable inp out width height num_threads s Hbytes Hw Hn Hr)
      as [D Hinv].
    rewrite dither_image_same_as_st_arrays.
    destruct (serial_recurrence inp out width height c Hbytes Hc) as [_ ->].
    destruct (inv_output _ _ _ _ _ _ Hinv c Hc) as [Ho | (t & th & Ht & Hin)]; [done|].
    unfold finished in Hfin. rewrite Forall_forall in Hfin.
    rewrite (Hfin th) in Hin by (by eapply list_elem_of_lookup_2).
    by apply elem_of_nil in Hin.
Qed.

Lemma main_output_independent_of_threads_witness :
  byte_grid 100 100 ∅ /\ 2 <= 100 /\
  Main.single_threaded 4 100 100 = false /\
  (exists a, Main.dithered ∅ ∅ 100 100 4 a) /\
  forall a c, Main.dithered ∅ ∅ 100 100 4 a ->
    in_bounds 100 100 c = true ->
    output a !! c = output (ErrorDiffusion.dither_image ∅ ∅ 100 100) !! c.
Proof.
  assert (Hbytes : byte_grid 100 100 ∅).
  { intros c _. unfold cell. rewrite lookup_empty. simpl. lia. }
  split; [exact Hbytes|]. split; [lia|]. split; [reflexivity|].
  apply main_output_independent_of_threads; [exact Hbytes | lia].
Defined.

(** * No signed overflow in the serial engine *)

Lemma in_range_ok z : in_int z -> Checked.in_range z = Some z.
Proof.
  unfold in_int, Checked.in_range. intros H.
  by rewrite (proj2 (Z.leb_le _ _) (proj1 H)), (proj2 (Z.leb_le _ _) (proj2 H)).
Qed.

Lemma div16_bounds n : 16 * (n / 16) <= n < 16 * (n / 16) + 16.
Proof.
  pose proof (Z.div_mod n 16 ltac:(lia)). pose proof (Z.mod_pos_bound n 16 ltac:(lia)).
  lia.
Qed.

Lemma quot16_in_int t : in_int t -> in_int (Z.quot t 16).
Proof.
  unfold in_int, INT_MIN, INT_MAX. intros H.
  destruct (Z_le_gt_dec 0 t) as [Ht | Ht].
  - rewrite Z.quot_div_nonneg by lia. pose proof (div16_bounds t). lia.
  - pose proof (Z.quot_opp_l (- t) 16 ltac:(lia)) as E.
    rewrite Z.opp_involutive in E. rewrite E.
    rewrite Z.quot_div_nonneg by lia. pose proof (div16_bounds (- t)). lia.
Qed.

Lemma checked_floor_divide n :
  INT_MIN + 16 <= n <= INT_MAX ->
  Checked.floor_divide n 16 = Some (Thread.floor_divide n 16).
Proof.
  intros H. unfold Checked.floor_divide, Thread.floor_divide, INT_MIN, INT_MAX in *.
  destruct (n >=? 0).
  - unfold Checked.div, int_div. cbn [Z.eqb].
    rewrite in_range_ok by (apply quot16_in_int; unfold in_int, INT_MIN, INT_MAX; lia).
    by rewrite wrap_int_id by (apply quot16_in_int; unfold in_int, INT_MIN, INT_MAX; lia).
  - unfold Checked.sub, Checked.add, Checked.div, int_sub, int_add, int_div.
    rewrite in_range_ok by (unfold in_int, INT_MIN, INT_MAX; lia). cbn [mbind option_bind].
    rewrite in_range_ok by (unfold in_int, INT_MIN, INT_MAX; lia). cbn [mbind option_bind Z.eqb].
    rewrite (wrap_int_id (n - 16)) by (unfold in_int, INT_MIN, INT_MAX; lia).
    rewrite (wrap_int_id (n - 16 + 1)) by (unfold in_int, INT_MIN, INT_MAX; lia).
    rewrite in_range_ok by (apply quot16_in_int; unfold in_int, INT_MIN, INT_MAX; lia).
    by rewrite wrap_int_id by (apply quot16_in_int; unfold in_int, INT_MIN, INT_MAX; lia).
Qed.

(* Away from the smallest ints floor_divide is defined and is the floor. *)
Lemma floor_divide_defined_floor n :
  INT_MIN + 16 <= n <= INT_MAX ->
  Checked.floor_divide n 16 = Some (n / 16) /\
  Thread.floor_divide n 16 = n / 16 /\
  ErrorDiffusion.floor_divide n 16 = n / 16.
Proof.
  intros H. rewrite checked_floor_divide by done.
  assert (E : Thread.floor_divide n 16 = n / 16) by (apply floor_divide_floor; lia).
  split; [by rewrite E|]. split; [done|]. exact E.
Qed.

(* One deposit: the error and the accumulator are small enough. *)
Lemma checked_deposit w h err k y x m a :
  in_bounds w h (y, x) = true ->
  Checked.work_within w h m a ->
  0 <= m <= 1500000000 -> - 306000000 <= err <= 306000000 -> 0 <= k <= 7 ->
  Checked.deposit err k y x a = Some (Thread.deposit err k y x a) /\
  Checked.work_within w h (m + 140000000) (Thread.deposit err k y x a).
Proof.
  intros Hc Hm Hm' He Hk.
  assert (Hek : - 2142000000 <= err * k <= 2142000000) by nia.
  assert (Hf : Thread.floor_divide (err * k) 16 = err * k / 16)
    by (apply floor_divide_floor; unfold INT_MIN, INT_MAX; lia).
  pose proof (Hm (y, x) Hc) as Hyx. cbn [fst snd] in Hyx.
  pose proof (div16_bounds (err * k)) as Hdiv.
  split.
  - unfold Checked.deposit, Thread.deposit, Checked.mul, Checked.add, int_mul, int_add.
    rewrite in_range_ok by (unfold in_int, INT_MIN, INT_MAX; lia). cbn [mbind option_bind].
    rewrite checked_floor_divide by (unfold INT_MIN, INT_MAX; lia).
    cbn [mbind option_bind].
    rewrite (wrap_int_id (err * k)) by (unfold in_int, INT_MIN, INT_MAX; lia).
    rewrite Hf.
    rewrite in_range_ok by (unfold in_int, INT_MIN, INT_MAX; lia). cbn [mbind option_bind].
    by rewrite wrap_int_id by (unfold in_int, INT_MIN, INT_MAX; lia).
  - intros c Hc'. unfold Thread.deposit. cbn [work]. unfold cell, set_cell in *.
    destruct (decide ((y, x) = c)) as [<- | Hne].
    + cbn [fst snd]. rewrite lookup_insert_eq. cbn [default]. unfold int_add, int_mul.
      rewrite (wrap_int_id (err * k)) by (unfold in_int, INT_MIN, INT_MAX; lia).
      rewrite Hf. rewrite wrap_int_id by (unfold in_int, INT_MIN, INT_MAX; lia).
      unfold id in *. lia.
    + destruct c as [cy cx]. cbn [fst snd]. rewrite lookup_insert_ne by done.
      pose proof (Hm (cy, cx) Hc') as Hb. unfold cell in Hb. cbn [fst snd] in Hb. lia.
Qed.

(* The error of a pixel whose accumulator is between - E and 383. *)
Lemma err_of_bounds v E : 126 <= E <= 306000000 -> - E <= v <= 383 ->
  err_of v = v - new_pixel_of v /\ - E <= err_of v <= 128.
Proof.
  intros HE Hv.
  assert (Hex : err_of v = v - new_pixel_of v)
    by (apply err_of_exact; unfold in_int, INT_MIN, INT_MAX; lia).
  split; [done|]. rewrite Hex. unfold new_pixel_of. destruct (v >? 128) eqn:Ev; lia.
Qed.

Lemma dep_value_bounds acc c k E :
  k ∈ weights -> 126 <= E <= 306000000 -> - E <= acc (src c k) <= 383 ->
  dep_value acc c k = err_of (acc (src c k)) * k / 16 /\
  (- E * k) / 16 <= dep_value acc c k <= 8 * k.
Proof.
  intros Hk HE Hacc. destruct (err_of_bounds _ E HE Hacc) as [_ He].
  unfold dep_value, int_mul.
  assert (Hk' : 1 <= k <= 7).
  { unfold weights in Hk. rewrite !elem_of_cons in Hk.
    destruct Hk as [-> | [-> | [-> | [-> | Hk]]]]; [lia.. | by apply elem_of_nil in Hk]. }
  set (e := err_of (acc (src c k))) in *.
  assert (Hek : - E * k <= e * k <= 128 * k) by nia.
  rewrite wrap_int_id by (unfold in_int, INT_MIN, INT_MAX; nia).
  rewrite floor_divide_floor by (unfold INT_MIN, INT_MAX; nia).
  split; [done|].
  pose proof (div16_bounds (e * k)). pose proof (div16_bounds (- E * k)). lia.
Qed.

Lemma term_bounds w h dn acc c k E :
  k ∈ weights -> 126 <= E <= 306000000 ->
  (in_bounds w h (src c k) = true -> - E <= acc (src c k) <= 383) ->
  (- E * k) / 16 <= term w h dn acc c k <= 8 * k.
Proof.
  intros Hk HE Hacc. unfold term.
  destruct (in_bounds w h (src c k) && dn c k) eqn:Eb.
  - apply andb_prop in Eb as [Eb _]. by apply dep_value_bounds; [| |apply Hacc].
  - assert (Hk' : 1 <= k <= 7).
    { unfold weights in Hk. rewrite !elem_of_cons in Hk.
      destruct Hk as [-> | [-> | [-> | [-> | Hk]]]]; [lia.. | by apply elem_of_nil in Hk]. }
    pose proof (div16_bounds (- E * k)). nia.
Qed.

(* Where the serial sweep stands, every accumulator of the grid is at most
   383 and at least - (129 + 3 * (2 * row + col)). *)
Lemma sweep_bounds inp w h y0 x0 a :
  byte_grid w h inp -> sweep_inv inp w h y0 x0 a -> 2 * h + w <= 100000000 ->
  forall (n : nat) c, in_bounds w h c = true -> Z.to_nat (2 * c.1 + c.2) = n ->
  - (129 + 3 * (2 * c.1 + c.2)) <= cell (work a) c.1 c.2 <= 383.
Proof.
  intros Hbytes [Hw _] Hsize. induction n as [n IH] using lt_wf_ind. intros c Hc Hn.
  rewrite (cell_lookup _ _ _ (Hw c Hc)).
  pose proof (Hbytes c Hc) as Hin.
  pose proof (proj1 (in_bounds_spec w h c) Hc) as Hcb.
  set (E := 126 + 3 * (2 * c.1 + c.2)).
  assert (HE : 126 <= E <= 306000000) by (unfold E; lia).
  assert (Hsrc : forall k, k ∈ weights -> in_bounds w h (src c k) = true ->
            - E <= cell (work a) (src c k).1 (src c k).2 <= 383).
  { intros k Hk Hs.
    assert (Hlt : 0 <= 2 * (src c k).1 + (src c k).2 < 2 * c.1 + c.2).
    { apply in_bounds_spec in Hs. revert Hs. unfold weights in Hk.
      rewrite !elem_of_cons in Hk.
      destruct Hk as [-> | [-> | [-> | [-> | Hk]]]];
        [| | | | by apply elem_of_nil in Hk]; cbn [src Z.eqb Pos.eqb fst snd]; lia. }
    pose proof (IH (Z.to_nat (2 * (src c k).1 + (src c k).2)) ltac:(lia) _ Hs eq_refl).
    unfold E. lia. }
  unfold received.
  set (acc := fun q : coord => cell (work a) q.1 q.2).
  set (dn := fun (c : coord) (k : Z) => before y0 x0 (src c k)).
  pose proof (term_bounds w h dn acc c 7 E ltac:(unfold weights; rewrite !elem_of_cons; auto) HE
                (Hsrc 7 ltac:(unfold weights; rewrite !elem_of_cons; auto))) as H7.
  pose proof (term_bounds w h dn acc c 3 E ltac:(unfold weights; rewrite !elem_of_cons; auto) HE
                (Hsrc 3 ltac:(unfold weights; rewrite !elem_of_cons; auto))) as H3.
  pose proof (term_bounds w h dn acc c 5 E ltac:(unfold weights; rewrite !elem_of_cons; auto) HE
                (Hsrc 5 ltac:(unfold weights; rewrite !elem_of_cons; auto))) as H5.
  pose proof (term_bounds w h dn acc c 1 E ltac:(unfold weights; rewrite !elem_of_cons; auto) HE
                (Hsrc 1 ltac:(unfold weights; rewrite !elem_of_cons; auto))) as H1.
  pose proof (div16_bounds (- E * 7)). pose proof (div16_bounds (- E * 3)).
  pose proof (div16_bounds (- E * 5)). pose proof (div16_bounds (- E * 1)).
  rewrite wrap_int_id by (unfold in_int, INT_MIN, INT_MAX; lia).
  unfold E in *. lia.
Qed.

Lemma checked_propagate w h y x err m a :
  in_bounds w h (y, x) = true ->
  Checked.work_within w h m a ->
  0 <= m <= 900000000 -> - 306000000 <= err <= 306000000 ->
  Checked.propagate_st w h y x err a = Some (Thread.propagate_st w h y x err a).
Proof.
  intros Hc Hm Hm' He. apply in_bounds_spec in Hc. cbn [fst snd] in Hc.
  unfold Checked.propagate_st, Thread.propagate_st.
  destruct (x + 1 <? w) eqn:E1; [apply Z.ltb_lt in E1|];
    (destruct (y + 1 <? h) eqn:E2; [apply Z.ltb_lt in E2|]);
    (destruct (x - 1 >=? 0) eqn:E3; [apply Z.geb_le in E3|]);
    cbn [mbind option_bind];
    repeat match goal with
    | H : Checked.work_within w h ?m' ?a' |- context [Checked.deposit ?e ?k ?y' ?x' ?a'] =>
        let Hd := fresh "Hd" in
        let Hw := fresh "Hw" in
        destruct (checked_deposit w h e k y' x' m' a') as [Hd Hw];
          [apply in_bounds_spec; cbn [fst snd]; lia | exact H | lia | lia | lia |];
        rewrite Hd; clear Hd H; cbn [mbind option_bind]
    end; reflexivity.
Qed.

Lemma checked_pixel inp w h y x a :
  byte_grid w h inp -> 2 * h + w <= 100000000 ->
  in_bounds w h (y, x) = true -> sweep_inv inp w h y x a ->
  Checked.pixel_st w h y x a = Some (Thread.pixel_st w h y x a).
Proof.
  intros Hbytes Hsize Hc Hinv.
  assert (Hm : Checked.work_within w h 306000000 a).
  { intros c Hc'. pose proof (sweep_bounds inp w h y x a Hbytes Hinv Hsize _ c Hc' eq_refl).
    apply in_bounds_spec in Hc'. lia. }
  pose proof (sweep_bounds inp w h y x a Hbytes Hinv Hsize _ (y, x) Hc eq_refl) as Hold.
  cbn [fst snd] in Hold.
  pose proof (proj1 (in_bounds_spec w h (y, x)) Hc) as Hcb. cbn [fst snd] in Hcb.
  unfold Checked.pixel_st, Thread.pixel_st, Checked.sub, int_sub. cbv zeta.
  assert (Hnew : 0 <= new_pixel_of (cell (work a) y x) <= 255)
    by (unfold new_pixel_of; destruct (_ >? _); lia).
  rewrite in_range_ok by (unfold in_int, INT_MIN, INT_MAX; lia).
  cbn [mbind option_bind].
  rewrite wrap_int_id by (unfold in_int, INT_MIN, INT_MAX; lia).
  apply (checked_propagate w h y x _ 306000000); [done | exact Hm | lia |].
  unfold new_pixel_of in *. destruct (cell (work a) y x >? 128) eqn:Ev; lia.
Qed.

(* A loop of statements that all have a result. *)
Lemma checked_foldl {A : Type} (f : A -> Z -> A) (g : Z -> A -> option A)
    (P : Z -> A -> Prop) (n : Z) :
  (forall i a, 0 <= i < n -> P i a -> g i a = Some (f a i) /\ P (i + 1) (f a i)) ->
  forall a, P 0 a ->
  foldl (fun oa i => oa ≫= g i) (Some a) (seqZ 0 n) = Some (foldl f a (seqZ 0 n)).
Proof.
  intros Hstep.
  assert (G : forall (k : nat) m a, 0 <= m -> m + Z.of_nat k <= Z.max 0 n -> P m a ->
    foldl (fun oa i => oa ≫= g i) (Some a) (seqZ m (Z.of_nat k)) =
      Some (foldl f a (seqZ m (Z.of_nat k)))).
  { induction k as [|k IH]; intros m a Hm Hk Ha; [done|].
    rewrite seqZ_cons by lia. cbn [foldl mbind option_bind].
    destruct (Hstep m a ltac:(lia) Ha) as [-> Hnext].
    replace (Z.pred (Z.of_nat (S k))) with (Z.of_nat k) by lia.
    apply IH; [lia | lia |]. by replace (Z.succ m) with (m + 1) by lia. }
  intros a Ha. destruct (Z_le_gt_dec n 0) as [Hn | Hn].
  - by rewrite seqZ_nil by lia.
  - pose proof (G (Z.to_nat n) 0 a ltac:(lia) ltac:(lia) Ha) as Hk.
    by rewrite Z2Nat.id in Hk by lia.
Qed.

Lemma checked_row inp w h y a :
  byte_grid w h inp -> 2 * h + w <= 100000000 -> 0 <= y < h ->
  sweep_inv inp w h y 0 a ->
  Checked.row_st w h y a = Some (Thread.row_st w h y a).
Proof.
  intros Hbytes Hsize Hy Hinv. unfold Checked.row_st, Thread.row_st.
  apply (checked_foldl (fun a x => Thread.pixel_st w h y x a) (Checked.pixel_st w h y)
                       (fun x a => sweep_inv inp w h y x a)); [|done].
  intros x a' Hx Ha'.
  assert (Hc : in_bounds w h (y, x) = true) by (apply in_bounds_spec; cbn [fst snd]; lia).
  split; [by apply (checked_pixel inp) | by apply sweep_pixel].
Qed.

Lemma checked_image inp out w h :
  byte_grid w h inp -> 2 * h + w <= 100000000 ->
  Checked.dither_image_st inp out w h = Some (Thread.dither_image_st inp out w h).
Proof.
  intros Hbytes Hsize. unfold Checked.dither_image_st, Thread.dither_image_st.
  destruct (Z_le_gt_dec h 0) as [Hh | Hh]; [by rewrite seqZ_nil by lia|].
  apply (checked_foldl (fun a y => Thread.row_st w h y a) (Checked.row_st w h)
                       (fun y a => sweep_inv inp w h y 0 a)); [|by apply sweep_start].
  intros y a Hy Ha. destruct (Z_le_gt_dec 0 w) as [Hw | Hw].
  - split; [by apply (checked_row inp) | by apply sweep_row].
  - split.
    + unfold Checked.row_st, Thread.row_st. by rewrite seqZ_nil by lia.
    + unfold Thread.row_st. rewrite seqZ_nil by lia. cbn [foldl].
      revert Ha. apply sweep_inv_ext. intros q Hq. apply in_bounds_spec in Hq. lia.
Qed.

(** X9.  The serial engine never overflows an int: on a grid of bytes with
    2 * height + width <= 100000000, every subtraction, multiplication,
    division and addition that dither_image_st performs on pixel values
    has an int as its mathematical result, so the run is defined in C and
    its result is the one of the wrap-around model. *)
Theorem serial_engine_never_overflows (inp out : gmap coord Z) (width height : Z) :
  byte_grid width height inp -> 2 * height + width <= 100000000 ->
  Checked.dither_image_st inp out width height =
    Some (Thread.dither_image_st inp out width height).
Proof. apply checked_image. Qed.

Lemma serial_engine_never_overflows_witness :
  let inp : gmap coord Z := <[(0, 0) := 200]> (<[(0, 1) := 100]> ∅) in
  byte_grid 2 1 inp /\ 2 * 1 + 2 <= 100000000 /\
  Checked.dither_image_st inp ∅ 2 1 = Some (Thread.dither_image_st inp ∅ 2 1).
Proof.
  intros inp.
  assert (Hbytes : byte_grid 2 1 inp).
  { intros [y x] [Hy Hx]%in_bounds_spec. cbn [fst snd] in *.
    assert (y = 0) as -> by lia.
    assert (x = 0 \/ x = 1) as [-> | ->] by lia; vm_compute; split; discriminate. }
  split; [exact Hbytes|]. split; [lia|].
  apply serial_engine_never_overflows; [exact Hbytes | lia].
Defined.

(** X10.  How far the accumulators of the serial engine drift: on a grid
    of bytes with 2 * height + width <= 100000000, the value a pixel is
    quantized from is at most 383 and at least
    - (129 + 3 * (2 * row + col)). *)
Theorem accumulators_stay_small (inp out : gmap coord Z) (width height : Z) (c : coord) :
  byte_grid width height inp -> 2 * height + width <= 100000000 ->
  in_bounds width height c = true ->
  - (129 + 3 * (2 * c.1 + c.2)) <=
    cell (work (dither_image_st inp out width height)) c.1 c.2 <= 383.
Proof.
  intros Hbytes Hsize Hc.
  assert (0 <= width /\ 0 <= height) as [Hw Hh] by (apply in_bounds_spec in Hc; lia).
  exact (sweep_bounds inp width height height 0 _ Hbytes
           (sweep_image inp out width height Hw Hh Hbytes) Hsize _ c Hc eq_refl).
Qed.

Lemma accumulators_stay_small_witness :
  let inp : gmap coord Z := <[(0, 0) := 200]> (<[(0, 1) := 100]> ∅) in
  - (129 + 3 * 1) <= cell (work (dither_image_st inp ∅ 2 1)) 0 1 <= 383.
Proof.
  intros inp.
  assert (Hbytes : byte_grid 2 1 inp).
  { intros [y x] [Hy Hx]%in_bounds_spec. cbn [fst snd] in *.
    assert (y = 0) as -> by lia.
    assert (x = 0 \/ x = 1) as [-> | ->] by lia; vm_compute; split; discriminate. }
  exact (accumulators_stay_small inp ∅ 2 1 (0, 1) Hbytes ltac:(lia) eq_refl).
Defined.

(** * Allocation and release *)

Import Heap.

Lemma concat_map_app_perm {A B : Type} (f g : A -> list B) (l : list A) :
  concat (map (fun a => f a ++ g a) l) ≡ₚ concat (map f l) ++ concat (map g l).
Proof.
  induction l as [|a l IH]; [done|]. cbn [map concat]. rewrite IH.
  rewrite <- !(assoc_L (++)). apply Permutation_app_head.
  rewrite !(assoc_L (++)). apply Permutation_app_tail. apply Permutation_app_comm.
Qed.

Lemma concat_map_singleton {A B : Type} (f : A -> B) (l : list A) :
  concat (map (fun a => [f a]) l) = map f l.
Proof. induction l as [|a l IH]; [done|]. cbn [map concat app]. by rewrite IH. Qed.

Lemma NoDup_concat_map {A B : Type} (f : A -> list B) (l : list A) :
  NoDup l -> (forall a, a ∈ l -> NoDup (f a)) ->
  (forall a a' b, a ∈ l -> a' ∈ l -> b ∈ f a -> b ∈ f a' -> a = a') ->
  NoDup (concat (map f l)).
Proof.
  induction 1 as [|a l Ha Hl IH]; intros Hf Hdis; [constructor|].
  cbn [map concat]. apply NoDup_app. split; [apply Hf; left|]. split.
  - intros b Hb (a' & Ha' & Hb')%elem_of_concat_map.
    assert (a = a') as <- by (eapply Hdis; [left | by right | done | done]). done.
  - apply IH; [intros a' Ha'; apply Hf; by right|].
    intros a1 a2 b H1 H2. apply Hdis; by right.
Qed.

Lemma pixel_blocks_elem w y b :
  b ∈ pixel_blocks w y ->
  exists x, b = mutex_at y x \/ b = cond_at y x \/ b = flag_at y x.
Proof.
  intros (x & _ & Hb)%elem_of_concat_map. exists x. revert Hb.
  rewrite !elem_of_cons. intros [? | [? | [? | Hb]]]; auto. by apply elem_of_nil in Hb.
Qed.

Lemma pixel_blocks_NoDup w y : NoDup (pixel_blocks w y).
Proof.
  apply NoDup_concat_map; [apply NoDup_seqZ | |].
  - intros x _. repeat (apply NoDup_cons; split; [rewrite ?elem_of_cons, ?elem_of_nil; intuition discriminate|]).
    apply NoDup_nil_2.
  - intros x x' b _ _. rewrite !elem_of_cons, !elem_of_nil.
    intros [-> | [-> | [-> | []]]] [H | [H | [H | []]]]; by inversion H.
Qed.

Lemma count_occ_concat_map_app {A : Type} (f g : A -> list block) (l : list A) (b : block) :
  count_occ block_eq_dec (concat (map (fun a => f a ++ g a) l)) b =
  (count_occ block_eq_dec (concat (map f l)) b +
   count_occ block_eq_dec (concat (map g l)) b)%nat.
Proof.
  induction l as [|a l IH]; [done|]. cbn [map concat].
  rewrite !count_occ_app, IH. lia.
Qed.

(* The blocks of row y. *)
Lemma row_blocks_elem w y b :
  b ∈ [work_row y; mutex_row y; cond_row y; flag_row y] ++ pixel_blocks w y ->
  b = work_row y \/ b = mutex_row y \/ b = cond_row y \/ b = flag_row y \/
  exists x, b = mutex_at y x \/ b = cond_at y x \/ b = flag_at y x.
Proof.
  rewrite elem_of_app, !elem_of_cons, elem_of_nil.
  intros [[? | [? | [? | [? | []]]]] | Hb]; auto 6.
  do 4 right. by eapply pixel_blocks_elem.
Qed.

Lemma row_blocks_NoDup w h :
  NoDup (concat (map (fun y => [work_row y; mutex_row y; cond_row y; flag_row y] ++
                               pixel_blocks w y) (seqZ 0 h))).
Proof.
  apply NoDup_concat_map; [apply NoDup_seqZ | |].
  - intros y _. apply NoDup_app. split; [|split; [|apply pixel_blocks_NoDup]].
    + repeat (apply NoDup_cons; split;
               [rewrite ?elem_of_cons, ?elem_of_nil; intuition discriminate|]).
      apply NoDup_nil_2.
    + intros b Hb (x & Hx)%pixel_blocks_elem. revert Hb.
      rewrite !elem_of_cons, elem_of_nil. intuition congruence.
  - intros y y' b _ _ Hb Hb'.
    apply row_blocks_elem in Hb, Hb'.
    destruct Hb as [-> | [-> | [-> | [-> | [x [-> | [-> | ->]]]]]]];
      destruct Hb' as [H | [H | [H | [H | [x' [H | [H | H]]]]]]]; by inversion H.
Qed.

(** X11.  Neither engine of thread.c leaks or frees twice: the blocks
    that dither_image_mt (and dither_image_st) frees are the blocks it has
    allocated, each allocated once and freed once, for every width and
    height. *)
Theorem engines_free_what_they_allocate (width height : Z) :
  NoDup (dither_image_mt_allocated width height) /\
  dither_image_mt_freed width height ≡ₚ dither_image_mt_allocated width height /\
  NoDup (dither_image_st_allocated height) /\
  dither_image_st_freed height ≡ₚ dither_image_st_allocated height.
Proof.
  assert (Hperm : dither_image_mt_allocated width height ≡ₚ
            [work_rows; mutex_rows; cond_rows; flag_rows; thread_handles; thread_args] ++
            concat (map (fun y => [work_row y; mutex_row y; cond_row y; flag_row y] ++
                                  pixel_blocks width y) (seqZ 0 height))).
  { apply (Permutation_count_occ block_eq_dec). intros b.
    unfold dither_image_mt_allocated.
    rewrite <- (concat_map_singleton work_row).
    change [work_rows; mutex_rows; cond_rows; flag_rows; thread_handles; thread_args]
      with ([work_rows] ++ [mutex_rows; cond_rows; flag_rows] ++ [thread_handles; thread_args]).
    rewrite !count_occ_app.
    rewrite (count_occ_concat_map_app (fun y => [mutex_row y; cond_row y; flag_row y])
               (pixel_blocks width)).
    rewrite (count_occ_concat_map_app (fun y => [work_row y])
               (fun y => [mutex_row y; cond_row y; flag_row y] ++ pixel_blocks width y)).
    rewrite (count_occ_concat_map_app (fun y => [mutex_row y; cond_row y; flag_row y])
               (pixel_blocks width)).
    lia. }
  assert (Hnodup : NoDup (dither_image_mt_allocated width height)).
  { rewrite Hperm. apply NoDup_app. split; [|split; [|apply row_blocks_NoDup]].
    - repeat (apply NoDup_cons; split;
               [rewrite ?elem_of_cons, ?elem_of_nil; intuition discriminate|]).
      apply NoDup_nil_2.
    - intros b Hb (y & _ & Hy)%elem_of_concat_map. apply row_blocks_elem in Hy.
      revert Hb. rewrite !elem_of_cons, elem_of_nil.
      destruct Hy as [-> | [-> | [-> | [-> | [x [-> | [-> | ->]]]]]]];
        intuition discriminate. }
  split; [exact Hnodup|]. split; [|split].
  - apply (Permutation_count_occ block_eq_dec). intros b.
    unfold dither_image_mt_freed, dither_image_mt_allocated.
    rewrite <- (concat_map_singleton work_row).
    change [mutex_rows; cond_rows; flag_rows; work_rows; thread_handles; thread_args]
      with ([mutex_rows; cond_rows; flag_rows] ++ [work_rows] ++ [thread_handles; thread_args]).
    rewrite !count_occ_app.
    rewrite (count_occ_concat_map_app (fun y => [mutex_row y; cond_row y; flag_row y])
               (pixel_blocks width)).
    rewrite (count_occ_concat_map_app (pixel_blocks width)
               (fun y => [mutex_row y; cond_row y; flag_row y] ++ [work_row y])).
    rewrite (count_occ_concat_map_app (fun y => [mutex_row y; cond_row y; flag_row y])
               (fun y => [work_row y])).
    lia.
  - unfold dither_image_st_allocated. apply NoDup_app. split; [|split].
    + apply NoDup_singleton.
    + intros b ->%list_elem_of_singleton Hb. rewrite <- concat_map_singleton in Hb.
      apply elem_of_concat_map in Hb as (y & _ & Hb).
      by apply list_elem_of_singleton in Hb.
    + rewrite <- concat_map_singleton. apply NoDup_concat_map; [apply NoDup_seqZ | |].
      * intros y _. apply NoDup_singleton.
      * intros y y' b _ _ ->%list_elem_of_singleton H%list_elem_of_singleton.
        by inversion H.
  - unfold dither_image_st_freed, dither_image_st_allocated. apply Permutation_app_comm.
Qed.

(** * The wavefront engine cannot get stuck *)

Import Progress.






















(** ** Releasing the mutexes that are held *)



(** ** From a state in which no mutex is held *)













(** * The quantization read comes after the waits *)

Lemma waits_seen_initial inp out w h n : waits_seen w h (dither_image_mt inp out w h n).
Proof.
  intros t th (i & _ & _ & ->)%initial_thread. exists ctx0. split.
  - apply walk_process_wavefront.
  - intros c Hc. by apply elem_of_nil in Hc.
Qed.

Lemma waits_seen_update w h s t th ar' flags' mtx' x' scr' op' :
  waits_seen w h s -> threads s !! t = Some th ->
  (forall c, processed (pixel_processed s) c -> processed flags' c) ->
  is_Some (walk w h x' scr') ->
  (forall c, c ∈ waited x' -> processed flags' c) ->
  waits_seen w h (State ar' flags' mtx' (<[t := Thread scr' op']> (threads s))).
Proof.
  intros Hinv Ht Hmono Hwalk Hseen t' th' Ht'. cbn [threads pixel_processed] in *.
  destruct (threads_insert_lookup _ _ _ _ _ _ Ht Ht') as [[_ ->] | [_ Hold]].
  - by exists x'.
  - destruct (Hinv t' th' Hold) as (x & Hx & Hs). exists x. split; [done|].
    intros c Hc. by apply Hmono, Hs.
Qed.

Lemma waits_seen_step w h s s' : waits_seen w h s -> step_rel s s' -> waits_seen w h s'.
Proof.
  intros Hinv [t Hs].
  destruct (step_inv _ _ _ Hs) as (th & a & rest & Ht & Hscr & He).
  destruct (Hinv t th Ht) as (x & Hwalk & Hseen). rewrite Hscr in Hwalk.
  assert (Hset : forall (c c' : coord), processed (pixel_processed s) c' ->
            processed (set_cell (pixel_processed s) c.1 c.2 1) c').
  { intros c c' Hc'. unfold processed, cell, set_cell in *.
    destruct (decide ((c.1, c.2) = (c'.1, c'.2))) as [-> | Hne].
    - by rewrite lookup_insert_eq.
    - by rewrite lookup_insert_ne. }
  destruct a as [c | c | c | p | p | c k | p | c]; cbn [exec] in He; cbn [walk] in Hwalk.
  - destruct (pixel_mutexes s !! c); [done|]. injection He as <-.
    by apply (waits_seen_update w h s t th _ _ _ x).
  - destruct (cell (pixel_processed s) c.1 c.2 =? 0) eqn:E; injection He as <-.
    + by apply (waits_seen_update w h s t th _ _ _ x).
    + unfold with_thread.
      apply (waits_seen_update w h s t th _ _ _ (Ctx (c :: waited x) (curp x) (todo x)));
        [done | done | done | done |].
      cbn [waited]. intros c' [-> | Hc']%elem_of_cons; [|by apply Hseen].
      unfold processed. by apply Z.eqb_neq in E.
  - injection He as <-. by apply (waits_seen_update w h s t th _ _ _ x).
  - injection He as <-. unfold with_thread.
    destruct (in_bounds w h p && _) in Hwalk; [|by destruct Hwalk].
    by apply (waits_seen_update w h s t th _ _ _
                (Ctx (waited x) (Some p) (live_targets w h p))).
  - injection He as <-. destruct (bool_decide _) in Hwalk; [|by destruct Hwalk].
    by apply (waits_seen_update w h s t th _ _ _ x).
  - injection He as <-. destruct (todo x) as [|ck td]; [by destruct Hwalk|].
    destruct (bool_decide _) in Hwalk; [|by destruct Hwalk].
    by apply (waits_seen_update w h s t th _ _ _ (Ctx (waited x) (curp x) td)).
  - injection He as <-. destruct (_ && _) in Hwalk; [|by destruct Hwalk].
    apply (waits_seen_update w h s t th _ _ _ ctx0); [done | done | by apply Hset | done |].
    intros c Hc. by apply elem_of_nil in Hc.
  - injection He as <-. unfold with_thread.
    by apply (waits_seen_update w h s t th _ _ _ x).
Qed.

Lemma waits_seen_reachable inp out w h n s :
  reachable (dither_image_mt inp out w h n) s -> waits_seen w h s.
Proof. apply reachable_invariant; [apply waits_seen_initial | apply waits_seen_step]. Qed.

(* A worker about to read the accumulator of p has found set the flags of
   the in-grid wait targets of p. *)
Lemma read_after_waits inp out w h n s t th p rest :
  reachable (dither_image_mt inp out w h n) s ->
  threads s !! t = Some th -> script th = ARead p :: rest ->
  in_bounds w h p = true /\
  forall c, c ∈ wait_targets p -> in_bounds w h c = true ->
            processed (pixel_processed s) c.
Proof.
  intros Hr Ht Hscr.
  destruct (waits_seen_reachable _ _ _ _ _ _ Hr t th Ht) as (x & Hwalk & Hseen).
  rewrite Hscr in Hwalk. cbn [walk] in Hwalk.
  destruct (in_bounds w h p && _) eqn:E in Hwalk; [|by destruct Hwalk].
  apply andb_prop in E as [Hp Hall]. split; [done|].
  intros c Hc Hb. rewrite forallb_forall in Hall.
  specialize (Hall c (proj1 (list_elem_of_In _ _) Hc)). rewrite Hb in Hall.
  cbn [negb orb] in Hall. apply Hseen. by apply bool_decide_eq_true in Hall.
Qed.

(** C5 (amended): in every state of every execution of the wavefront
    engine, a worker about to deposit into a coordinate's accumulator
    holds that coordinate's mutex, and so does a worker about to test or
    set its processed flag; a worker about to perform the quantization read
    (or the output write) holds no mutex at all.  The read comes after the
    waits: the pixel is in the grid and the flags of its in-grid wait
    targets (row - 1, col + 1) and (row, col - 1) are set.  On a grid of
    bytes at least two pixels wide all deposits of the raster-order
    predecessors have then been made: the value about to be read is the
    accumulator of the serial engine, the input plus the deposits of the
    four in-grid predecessors. *)
Theorem accesses_and_mutexes
    (inp out : gmap coord Z) (width height num_threads : Z)
    (s : state) (t : nat) (th : thread) (a : action) (rest : list action) :
  reachable (dither_image_mt inp out width height num_threads) s ->
  threads s !! t = Some th ->
  script th = a :: rest ->
  match a with
  | ADeposit c _ | AAwait c | AMark c | ABroadcast c | AUnlock c =>
      pixel_mutexes s !! c = Some t
  | ARead _ | AWriteOut _ | ALock _ =>
      forall c', pixel_mutexes s !! c' <> Some t
  end /\
  forall p, a = ARead p ->
    in_bounds width height p = true /\
    (forall c, c ∈ wait_targets p -> in_bounds width height c = true ->
               processed (pixel_processed s) c) /\
    (byte_grid width height inp -> 2 <= width -> 0 < num_threads ->
     let acc := fun q => cell (work (dither_image_st inp out width height)) q.1 q.2 in
     cell (work (arrs s)) p.1 p.2 = acc p /\
     acc p = wrap_int (cell inp p.1 p.2 +
                       received width height (fun _ _ => true) acc p)).
Proof.
  intros Hr Ht Hs. split.
  - apply lock_inv_reachable in Hr.
    destruct (Hr _ _ Ht) as (held & Hd & Hm). rewrite Hs in Hd.
    destruct a; simpl in Hd; apply andb_prop in Hd as [H1 _];
      first [ apply holds_true in H1 as ->; by apply Hm
            | apply holds_none_true in H1 as ->; intros c' Hc'; by apply Hm in Hc' ].
  - intros p ->.
    destruct (read_after_waits _ _ _ _ _ _ _ _ _ _ Hr Ht Hs) as [Hp Hwait].
    split; [done|]. split; [done|]. intros Hbytes Hw Hn acc.
    destruct (agree_inv_reachable inp out width height num_threads s Hbytes Hw Hn Hr)
      as [D Hinv].
    destruct p as [y x]. split.
    + by apply (read_gets_serial_acc inp out width height s D).
    + by destruct (serial_recurrence inp out width height (y, x) Hbytes Hp) as [E _].
Qed.

Lemma accesses_and_mutexes_witness :
  let inp : gmap coord Z := <[(0, 0) := 200]> (<[(0, 1) := 100]> ∅) in
  let s0 := dither_image_mt inp ∅ 2 1 2 in
  let s := default s0 (run (replicate 9 0 ++ replicate 3 1)%nat s0) in
  reachable s0 s /\
  (exists rest, threads s !! 1%nat = Some (Thread (ARead (0, 1) :: rest) 0)) /\
  (forall c', pixel_mutexes s !! c' <> Some 1%nat) /\
  processed (pixel_processed s) (0, 0) /\
  cell (work (arrs s)) 0 1 = cell (work (dither_image_st inp ∅ 2 1)) 0 1 /\
  cell (work (arrs s)) 0 1 = 75.
Proof.
  intros inp s0 s.
  assert (Hrun : run (replicate 9 0 ++ replicate 3 1)%nat s0 = Some s)
    by (vm_compute; reflexivity).
  assert (Hr : reachable s0 s) by (by apply (run_reachable _ _ _ Hrun)).
  assert (Ht : exists rest, threads s !! 1%nat = Some (Thread (ARead (0, 1) :: rest) 0)).
  { eexists. vm_compute. reflexivity. }
  assert (Hbytes : byte_grid 2 1 inp).
  { intros [y x] [Hy Hx]%in_bounds_spec. cbn [fst snd] in *.
    assert (y = 0) as -> by lia.
    assert (x = 0 \/ x = 1) as [-> | ->] by lia; vm_compute; split; discriminate. }
  split; [exact Hr|]. split; [exact Ht|].
  destruct Ht as [rest Ht].
  destruct (accesses_and_mutexes inp ∅ 2 1 2 s 1%nat _ (ARead (0, 1)) rest Hr Ht eq_refl)
    as [Hlock Hread].
  destruct (Hread (0, 1) eq_refl) as (_ & Hwait & Hvis).
  split; [exact Hlock|]. split.
  - apply Hwait; [|reflexivity]. unfold wait_targets. cbn [fst snd]. right. left.
  - split; [exact (proj1 (Hvis Hbytes ltac:(lia) ltac:(lia)))|]. vm_compute. reflexivity.
Defined.
